(** * rabbot: the broker facade of [src/index.js]

    A shallow embedding of the [Broker] object: its registry of named
    (Connection, Topology) pairs, the topic derivation of [handle], the
    request/reply correlation of [request], the built-in serializers, and
    the remaining facade operations.  Stateful code is written in a small
    state-and-exception monad over a [World] that holds the broker, the
    module-level registries, the objects of the external collaborators
    (connections, postal subscriptions, promises, timers) and a log of the
    calls made on them. *)

From stdpp Require Import base option list strings gmap pretty.
From Stdlib Require Import ZArith Lia Ascii.

Local Open Scope Z_scope.
Set Warnings "-register-all".

(** ** JavaScript values and coercions *)

Inductive JsVal :=
| V_undefined
| V_null
| V_bool (b : bool)
| V_num (n : Z)
| V_str (s : string)
| V_array (vs : list JsVal).

Inductive JsError :=
| TypeError (what : string)
| Error (message : string).

(** ToBoolean. *)
Definition truthy (v : JsVal) : bool :=
  match v with
  | V_undefined | V_null => false
  | V_bool b => b
  | V_num n => negb (n =? 0)
  | V_str s => negb (String.eqb s "")
  | V_array _ => true
  end.

(** [x || d] for an optional string property and for an optional number. *)
Definition or_string (x : option string) (d : string) : string :=
  match x with
  | Some s => if String.eqb s "" then d else s
  | None => d
  end.

Definition truthy_number (x : option Z) : bool :=
  match x with
  | Some n => negb (n =? 0)
  | None => false
  end.

Definition or_number (x : option Z) (d : Z) : Z :=
  match x with
  | Some n => if n =? 0 then d else n
  | None => d
  end.

(** ** Data model *)

(** The connection options the facade reads or writes. *)
Record ConnOptions := mkConnOptions {
  opt_name : option string;
  opt_retryLimit : option Z;
  opt_failAfter : option Z;
  opt_publishTimeout : option Z
}.

Definition no_options : ConnOptions := mkConnOptions None None None None.

(** A Connection object of [connectionFsm.js]: an identity and its name. *)
Record Connection := mkConnection {
  conn_id : nat;
  conn_name : string
}.

Inductive ChannelKind := ExchangeChannel | QueueChannel.

Record Channel := mkChannel {
  chan_kind : ChannelKind;
  chan_name : string
}.

(** A Topology object of [topology.js], as far as the facade touches it:
    [name], [connection], [options] and the [channels] registry keyed by
    "exchange:<name>" and "queue:<name>". *)
Record Topology := mkTopology {
  topo_name : string;
  topo_connection : option Connection;
  topo_options : ConnOptions;
  channels : gmap string Channel
}.

Record ExchangeDef := mkExchangeDef { ex_name : string; ex_type : option string }.
Record QueueDef := mkQueueDef { q_name : string; q_subscribe : bool }.
Record BindingDef := mkBindingDef {
  b_source : string;
  b_target : string;
  b_keys : list string;
  b_queue : bool
}.

Record Config := mkConfig {
  cfg_name : option string;
  cfg_connection : option ConnOptions;
  cfg_exchanges : list ExchangeDef;
  cfg_queues : list QueueDef;
  cfg_bindings : list BindingDef
}.

Record Message := mkMessage {
  properties_headers : gmap string JsVal;
  properties_type : string;
  msg_body : JsVal
}.

(** The record handed to an exchange's [publish]. *)
Record PublishOptions := mkPublishOptions {
  po_appId : option string;
  po_type : option string;
  po_body : JsVal;
  po_routingKey : option string;
  po_correlationId : option string;
  po_sequenceNo : option Z;
  po_timestamp : option Z;
  po_headers : option (gmap string JsVal);
  po_connectionName : option string;
  po_messageId : option string;
  po_connectionPublishTimeout : option Z
}.

Inductive ConnEvent := Connected | Closed | Failed | Unreachable.

(** The four closures [addConnection] registers on a new connection, with
    the variables they capture. *)
Inductive Listener :=
| OnConnected (connection : Connection)
| OnClosed (connection : Connection)
| OnFailed (name : string) (connection : Connection)
| OnUnreachable (name : string) (connection : Connection).

Inductive PostalChannel := Dispatch | Responses | Signal.

(** The callback of a postal subscription: a caller's handler bound to a
    context, or the reply closure of [request]. *)
Inductive Callback :=
| UserHandler (handler : nat) (context : option nat)
| ReplyCallback (promise : nat) (subscription : nat).

Record Subscription := mkSubscription {
  sub_id : nat;
  sub_channel : PostalChannel;
  sub_topic : string;
  sub_callback : Callback;
  sub_catch : bool;
  sub_active : bool
}.

Inductive PState :=
| Pending
| Resolved (m : Message)
| RejectedWith (e : JsError).

Record PromiseCell := mkPromiseCell {
  p_state : PState;
  p_progress : list Message
}.

Inductive UnhandledStrategy :=
| nackOnUnhandled
| rejectOnUnhandled
| customOnUnhandled (handler : option nat).

Inductive EmitArg :=
| ArgConnection (c : Connection)
| ArgError (err : string)
| ArgString (s : string).

Inductive TopologyCall :=
| createExchange (name : string) (type : option string)
| createQueue (q : QueueDef) (connectionName : string)
| createBinding (b : BindingDef)
| deleteExchangeCall (name : string)
| deleteQueueCall (name : string)
| topologyReset.

(** Calls the facade makes on its collaborators and on the console. *)
Inductive Effect :=
| E_connectionFn (c : Connection) (o : ConnOptions)
| E_topologyFn (c : Connection) (o : ConnOptions)
| E_on (c : Connection) (ev : ConnEvent)
| E_connect (c : Connection)
| E_close (c : Connection) (reset : bool)
| E_topology (topology : string) (call : TopologyCall)
| E_emit (event : string) (arg : EmitArg)
| E_warn (text : string)
| E_setInterval (timer : nat) (ms : Z)
| E_clearInterval (timer : option nat)
| E_signalAck
| E_subscribe (s : Subscription)
| E_unsubscribe (subscription : nat)
| E_queueSubscribe (q : Channel) (exclusive : bool)
| E_exchangePublish (x : Channel) (o : PublishOptions)
| E_resolve (promise : nat) (m : Message)
| E_reject (promise : nat) (e : JsError)
| E_notify (promise : nat) (m : Message)
| E_invoke (handler : nat) (context : option nat) (m : Message).

(** Promises handed back to the caller. *)
Inductive Promise :=
| P_value (v : JsVal)
| P_closing (c : Connection) (reset : bool)
| P_publishing (x : Channel) (o : PublishOptions)
| P_topology (topology : string) (call : TopologyCall)
| P_all (ps : list Promise)
| P_then_clearAckInterval (p : Promise).

(** [var Broker = function() {...}].  [this.connections] is a plain object:
    [connections] holds its own properties and [connections_keys] their
    names in the order they were created, which is the order an object
    keeps them in. *)
Record Broker := mkBroker {
  connections : gmap string Topology;
  connections_keys : list string;
  hasHandles : bool;
  autoNack : bool;
  configurations : gmap string Config;
  ackIntervalId : option nat
}.

Record World := mkWorld {
  broker : Broker;
  serializers : gmap string nat;
  unhandled_onUnhandled : UnhandledStrategy;
  unhandled_custom : option nat;
  listeners : list (Connection * ConnEvent * Listener);
  subscriptions : list Subscription;
  promises : gmap nat PromiseCell;
  timers : gmap nat Z;
  next_id : nat;
  log : list Effect
}.

Definition new_Broker : Broker := mkBroker ∅ [] false false ∅ None.

(** The three content types seeded in the module-level registry. *)
Definition seeded_serializers : gmap string nat :=
  <["text/plain" := 2%nat]> (<["application/octet-stream" := 1%nat]>
    (<["application/json" := 0%nat]> ∅)).

(** The state when the module has been loaded: a new broker, the seeded
    registry, nack as the strategy for unhandled messages.  Identifiers
    0 to 2 name the three built-in serializers. *)
Definition initial_world : World :=
  mkWorld new_Broker seeded_serializers nackOnUnhandled None [] [] ∅ ∅ 3%nat [].

(** ** The state-and-exception monad *)

Inductive Res (A : Type) :=
| Ok (a : A)
| Throw (e : JsError).
Arguments Ok {A} a.
Arguments Throw {A} e.

Definition M (A : Type) : Type := World → Res A * World.

Definition ret {A} (a : A) : M A := λ w, (Ok a, w).
Definition throw {A} (e : JsError) : M A := λ w, (Throw e, w).
Definition bind {A B} (m : M A) (k : A → M B) : M B :=
  λ w, match m w with
       | (Ok a, w') => k a w'
       | (Throw e, w') => (Throw e, w')
       end.

Notation "x <- m ;; k" := (bind m (λ x, k))
  (at level 100, m at next level, right associativity, only parsing).
Notation "m >> k" := (bind m (λ _, k))
  (at level 100, right associativity, only parsing).

Definition get : M World := λ w, (Ok w, w).
Definition this : M Broker := λ w, (Ok (broker w), w).

Definition with_broker (f : Broker → Broker) (w : World) : World :=
  mkWorld (f (broker w)) (serializers w) (unhandled_onUnhandled w)
    (unhandled_custom w) (listeners w) (subscriptions w) (promises w)
    (timers w) (next_id w) (log w).

Definition with_log (f : list Effect → list Effect) (w : World) : World :=
  mkWorld (broker w) (serializers w) (unhandled_onUnhandled w)
    (unhandled_custom w) (listeners w) (subscriptions w) (promises w)
    (timers w) (next_id w) (f (log w)).

Definition modify (f : World → World) : M unit := λ w, (Ok tt, f w).
Definition update (f : Broker → Broker) : M unit := modify (with_broker f).
Definition effect (e : Effect) : M unit := modify (with_log (λ l, l ++ [e])).

Definition fresh : M nat :=
  λ w, (Ok (next_id w),
        mkWorld (broker w) (serializers w) (unhandled_onUnhandled w)
          (unhandled_custom w) (listeners w) (subscriptions w) (promises w)
          (timers w) (S (next_id w)) (log w)).

(** An exception raised by [m] is handed to [handler]: the resolver of
    [when.promise] turns it into a rejection. *)
Definition try_catch {A} (m : M A) (handler : JsError → M A) : M A :=
  λ w, match m w with
       | (Ok a, w') => (Ok a, w')
       | (Throw e, w') => handler e w'
       end.

Definition discard {A} (m : M A) : M unit := m >> ret tt.

Definition exec {A} (m : M A) (w : World) : World := snd (m w).
Definition result {A} (m : M A) (w : World) : Res A := fst (m w).

(** Effects logged by [m] when it runs on [w]. *)
Definition logged {A} (m : M A) (w : World) : list Effect :=
  drop (length (log w)) (log (exec m w)).

(** The texts of the warnings in a log. *)
Definition warnings (l : list Effect) : list string :=
  omap (λ e, match e with E_warn text => Some text | _ => None end) l.

(** ** Collaborators *)

(** Modelled from the spec: [connectionFsm.js] is not among the sources.
    [connectionFn(options)] constructs a Connection, an opaque object with
    a fresh identity and the name of its options. *)
Definition connectionFn (options : ConnOptions) : M Connection :=
  id <- fresh ;;
  let connection := mkConnection id (default "" (opt_name options)) in
  effect (E_connectionFn connection options) >>
  ret connection.

(** Modelled from the spec: [topology.js] is not among the sources.
    [topologyFn(connection, options, ...)] constructs the Topology owned by
    the connection, with an empty registry of channels. *)
Definition topologyFn (connection : Connection) (options : ConnOptions)
  : M Topology :=
  effect (E_topologyFn connection options) >>
  ret (mkTopology (default "" (opt_name options)) (Some connection) options ∅).

(** [connection.on( event, listener )] *)
Definition connection_on (connection : Connection) (ev : ConnEvent)
    (l : Listener) : M unit :=
  modify (λ w, mkWorld (broker w) (serializers w) (unhandled_onUnhandled w)
    (unhandled_custom w) (listeners w ++ [(connection, ev, l)])
    (subscriptions w) (promises w) (timers w) (next_id w) (log w)) >>
  effect (E_on connection ev).

(** [this.emit( event, arg )], mixed in by Monologue. *)
Definition emit (event : string) (arg : EmitArg) : M unit :=
  effect (E_emit event arg).

(** Modelled from the spec: the local registry of a Topology.  Creating an
    exchange or a queue registers a channel under "exchange:<name>" or
    "queue:<name>", deleting removes the entry, [reset()] clears the
    registry, and a binding registers no channel. *)
Definition apply_call (call : TopologyCall) (t : Topology) : Topology :=
  let chans :=
    match call with
    | createExchange name _ =>
        <["exchange:" +:+ name := mkChannel ExchangeChannel name]> (channels t)
    | createQueue q _ =>
        <["queue:" +:+ q_name q := mkChannel QueueChannel (q_name q)]> (channels t)
    | createBinding _ => channels t
    | deleteExchangeCall name => delete ("exchange:" +:+ name) (channels t)
    | deleteQueueCall name => delete ("queue:" +:+ name) (channels t)
    | topologyReset => ∅
    end in
  mkTopology (topo_name t) (topo_connection t) (topo_options t) chans.

Definition set_connections (f : gmap string Topology → gmap string Topology)
    (b : Broker) : Broker :=
  mkBroker (f (connections b)) (connections_keys b) (hasHandles b) (autoNack b)
    (configurations b) (ackIntervalId b).

(** [this.connections[ name ] = topology] for a name that is not yet a key
    of the object: the new key comes last. *)
Definition register (name : string) (topology : Topology) (b : Broker) : Broker :=
  mkBroker (<[name := topology]> (connections b)) (connections_keys b ++ [name])
    (hasHandles b) (autoNack b) (configurations b) (ackIntervalId b).

(** The names every object inherits from [Object.prototype].  For such a
    name [this.connections[ name ]] is not undefined although nothing is
    registered under it, and what is found there has no [connection]
    property. *)
Definition inherited (name : string) : bool :=
  existsb (String.eqb name)
    ["constructor"; "hasOwnProperty"; "isPrototypeOf"; "propertyIsEnumerable";
     "toLocaleString"; "toString"; "valueOf"; "__proto__"; "__defineGetter__";
     "__defineSetter__"; "__lookupGetter__"; "__lookupSetter__"].

(** The order in which the own keys of an object are enumerated: the keys
    that are array indices (canonical decimal numerals below 2^32 - 1)
    first, in ascending order, then the other keys in the order they were
    created. *)
Fixpoint decimal (s : string) (acc : N) : option N :=
  match s with
  | EmptyString => Some acc
  | String c rest =>
      let d := N_of_ascii c in
      if ((48 <=? d) && (d <=? 57))%N then decimal rest (10 * acc + (d - 48))%N
      else None
  end.

Definition array_index (key : string) : option N :=
  match key with
  | EmptyString => None
  | String c rest =>
      if Ascii.eqb c "0"%char && negb (String.eqb rest "") then None
      else match decimal key 0%N with
           | Some n => if (n <? 4294967295)%N then Some n else None
           | None => None
           end
  end.

Fixpoint insert_index (key : string) (sorted : list string) : list string :=
  match sorted with
  | [] => [key]
  | key' :: rest =>
      if (default 0 (array_index key) <=? default 0 (array_index key'))%N
      then key :: sorted
      else key' :: insert_index key rest
  end.

Definition own_keys (keys : list string) : list string :=
  foldr insert_index [] (filter (λ key, is_Some (array_index key)) keys)
  ++ filter (λ key, ¬ is_Some (array_index key)) keys.

(** The registered topologies, in the order [_.map] visits them. *)
Definition registered (b : Broker) : list Topology :=
  omap (λ key, connections b !! key) (own_keys (connections_keys b)).

(** [this.connections[ connectionName ].<call>( ... )]: a TypeError when no
    topology is registered under the name.  (Under a name inherited from
    [Object.prototype] the lookup finds a member without the method, and
    the call is a TypeError as well; so it is for [getExchange],
    [getQueue] and [publish], which read [channels] and [options] of what
    they find.) *)
Definition on_topology (connectionName : string) (call : TopologyCall)
  : M Promise :=
  b <- this ;;
  match connections b !! connectionName with
  | None => throw (TypeError "this.connections[connectionName] is undefined")
  | Some t =>
      effect (E_topology connectionName call) >>
      update (set_connections (<[connectionName := apply_call call t]>)) >>
      ret (P_topology connectionName call)
  end.

(** ** The facade, in the order of [src/index.js] *)

(** [clearAckInterval]: [clearInterval( this.ackIntervalId )]. *)
Definition clearAckInterval : M unit :=
  b <- this ;;
  effect (E_clearInterval (ackIntervalId b)) >>
  match ackIntervalId b with
  | Some id =>
      modify (λ w, mkWorld (broker w) (serializers w) (unhandled_onUnhandled w)
        (unhandled_custom w) (listeners w) (subscriptions w) (promises w)
        (delete id (timers w)) (next_id w) (log w))
  | None => ret tt
  end.

(** [setAckInterval( interval )] *)
Definition setAckInterval (interval : Z) : M unit :=
  b <- this ;;
  match ackIntervalId b with
  | Some _ => clearAckInterval
  | None => ret tt
  end >>
  id <- fresh ;;
  effect (E_setInterval id interval) >>
  modify (λ w, mkWorld (broker w) (serializers w) (unhandled_onUnhandled w)
    (unhandled_custom w) (listeners w) (subscriptions w) (promises w)
    (<[id := interval]> (timers w)) (next_id w) (log w)) >>
  update (λ b, mkBroker (connections b) (connections_keys b) (hasHandles b)
    (autoNack b) (configurations b) (Some id)).

(** [batchAck]: [signal.publish( "ack", {} )]. *)
Definition batchAck : M unit := effect E_signalAck.

(** Lines 60-64 of [addConnection]: the name and the options after the
    defaults are applied. *)
Definition connection_name (options : option ConnOptions) : string :=
  match options with
  | Some o => or_string (opt_name o) "default"
  | None => "default"
  end.

Definition connection_options (options : option ConnOptions) : ConnOptions :=
  let name := connection_name options in
  let options := default no_options options in
  mkConnOptions (Some name)
    (Some (or_number (opt_retryLimit options) 3))
    (Some (or_number (opt_failAfter options) 60))
    (opt_publishTimeout options).

(** The body of a lifecycle listener; [err] is the argument of "failed". *)
Definition run_listener (l : Listener) (err : string) : M unit :=
  match l with
  | OnConnected connection =>
      emit "connected" (ArgConnection connection) >>
      emit (conn_name connection +:+ ".connection.opened")
        (ArgConnection connection) >>
      setAckInterval 500
  | OnClosed connection =>
      emit "closed" (ArgConnection connection) >>
      emit (conn_name connection +:+ ".connection.closed")
        (ArgConnection connection)
  | OnFailed name connection =>
      emit "failed" (ArgConnection connection) >>
      emit (name +:+ ".connection.failed") (ArgError err)
  | OnUnreachable name connection =>
      emit "unreachable" (ArgConnection connection) >>
      emit name (ArgString ".connection.unreachable") >>
      clearAckInterval
  end.

Definition addConnection (options : option ConnOptions) : M Topology :=
  let name := connection_name options in
  let options := connection_options options in
  b <- this ;;
  match connections b !! name with
  | None =>
      if inherited name
      then throw (TypeError "connection.connection is undefined")
      else
        connection <- connectionFn options ;;
        topology <- topologyFn connection options ;;
        connection_on connection Connected (OnConnected connection) >>
        connection_on connection Closed (OnClosed connection) >>
        connection_on connection Failed (OnFailed name connection) >>
        connection_on connection Unreachable (OnUnreachable name connection) >>
        update (register name topology) >>
        ret topology
  | Some connection =>
      match topo_connection connection with
      | Some c => effect (E_connect c) >> ret connection
      | None => throw (TypeError "connection.connection is undefined")
      end
  end.

(** A connection raises a lifecycle event: its listeners run in the order
    they were registered. *)
Fixpoint run_listeners (ls : list (Connection * ConnEvent * Listener))
    (c : nat) (ev : ConnEvent) (err : string) : M unit :=
  match ls with
  | [] => ret tt
  | (c', ev', l) :: ls =>
      (if bool_decide (conn_id c' = c) &&
          match ev, ev' with
          | Connected, Connected | Closed, Closed
          | Failed, Failed | Unreachable, Unreachable => true
          | _, _ => false
          end
       then run_listener l err else ret tt) >>
      run_listeners ls c ev err
  end.

Definition signal (c : Connection) (ev : ConnEvent) (err : string) : M unit :=
  w <- get ;;
  run_listeners (listeners w) (conn_id c) ev err.

Fixpoint mapM {A B} (f : A → M B) (l : list A) : M (list B) :=
  match l with
  | [] => ret []
  | x :: l =>
      y <- f x ;;
      ys <- mapM f l ;;
      ret (y :: ys)
  end.

(** The property key a possibly undefined name is converted to. *)
Definition key_of (name : option string) : string := default "undefined" name.

(** [addExchange( name, type, options, connectionName )]: [name] is either
    a string or the options object. *)
Inductive ExchangeName :=
| ExchangeNamed (name : string)
| ExchangeObject (options : ExchangeDef).

Definition addExchange (name : ExchangeName) (type : option string)
    (options : option ExchangeDef) (connectionName : option string)
  : M Promise :=
  let connectionName := or_string connectionName "default" in
  match name with
  | ExchangeObject options =>
      on_topology (key_of type) (createExchange (ex_name options) (ex_type options))
  | ExchangeNamed name =>
      match options with
      | None => throw (TypeError "options is undefined")
      | Some _ =>
          on_topology connectionName (createExchange name type)
      end
  end.

Definition handlers_warning (name : string) : string :=
  "Subscription to '" +:+ name +:+
  "' was started without any handlers. This will result in lost messages!".

Definition addQueue (name : string) (options : option QueueDef)
    (connectionName : option string) : M Promise :=
  let connectionName := or_string connectionName "default" in
  match options with
  | None => throw (TypeError "options is undefined")
  | Some options =>
      let options := mkQueueDef name (q_subscribe options) in
      b <- this ;;
      (if q_subscribe options && negb (hasHandles b)
       then effect (E_warn (handlers_warning name)) else ret tt) >>
      on_topology connectionName (createQueue options connectionName)
  end.

Definition addSerializer (contentType : string) (serializer : nat) : M unit :=
  modify (λ w, mkWorld (broker w) (<[contentType := serializer]> (serializers w))
    (unhandled_onUnhandled w) (unhandled_custom w) (listeners w)
    (subscriptions w) (promises w) (timers w) (next_id w) (log w)).

Definition bindExchange (source target : string) (keys : list string)
    (connectionName : option string) : M Promise :=
  let connectionName := or_string connectionName "default" in
  on_topology connectionName (createBinding (mkBindingDef source target keys false)).

Definition bindQueue (source target : string) (keys : list string)
    (connectionName : option string) : M Promise :=
  let connectionName := or_string connectionName "default" in
  on_topology connectionName (createBinding (mkBindingDef source target keys true)).

(** [connection.close( reset )] of the underlying connection. *)
Definition connection_close (c : Connection) (reset : bool) : M Promise :=
  effect (E_close c reset) >> ret (P_closing c reset).

Definition close (connectionName : option string) (reset : bool) : M Promise :=
  let connectionName := or_string connectionName "default" in
  b <- this ;;
  match connections b !! connectionName with
  | None =>
      if inherited connectionName then ret (P_value (V_bool true))
      else throw (TypeError "this.connections[connectionName] is undefined")
  | Some topology =>
      match topo_connection topology with
      | Some connection =>
          (if reset then on_topology connectionName topologyReset >> ret tt
           else ret tt) >>
          connection_close connection reset
      | None => ret (P_value (V_bool true))
      end
  end.

(** [_.map( this.connections, ... )] visits the registered topologies in
    the order of the own keys of the object. *)
Definition closeAll (reset : bool) : M Promise :=
  b <- this ;;
  closers <- mapM (λ connection : Topology,
                     close (Some (topo_name connection)) reset)
               (registered b) ;;
  ret (P_all closers).

Definition deleteExchange (name : string) (connectionName : option string)
  : M Promise :=
  let connectionName := or_string connectionName "default" in
  on_topology connectionName (deleteExchangeCall name).

Definition deleteQueue (name : string) (connectionName : option string)
  : M Promise :=
  let connectionName := or_string connectionName "default" in
  on_topology connectionName (deleteQueueCall name).

Definition getExchange (name : string) (connectionName : option string)
  : M (option Channel) :=
  let connectionName := or_string connectionName "default" in
  b <- this ;;
  match connections b !! connectionName with
  | None => throw (TypeError "this.connections[connectionName] is undefined")
  | Some t => ret (channels t !! ("exchange:" +:+ name))
  end.

Definition getQueue (name : string) (connectionName : option string)
  : M (option Channel) :=
  let connectionName := or_string connectionName "default" in
  b <- this ;;
  match connections b !! connectionName with
  | None => throw (TypeError "this.connections[connectionName] is undefined")
  | Some t => ret (channels t !! ("queue:" +:+ name))
  end.

(** [queueName.replace( /[.]/g, "-" )] *)
Fixpoint replace_dots (s : string) : string :=
  match s with
  | EmptyString => EmptyString
  | String c s =>
      String (if Ascii.eqb c "."%char then "-"%char else c) (replace_dots s)
  end.

(** [parts.join( sep )] *)
Fixpoint join (sep : string) (parts : list string) : string :=
  match parts with
  | [] => ""
  | [p] => p
  | p :: rest => p +:+ sep +:+ join sep rest
  end.

(** [_.isEmpty] of an argument that is undefined or a string. *)
Definition isEmpty (s : option string) : bool :=
  match s with
  | None => true
  | Some s => String.eqb s ""
  end.

(** The third argument of [handle]: nothing, a queue name, or (when it is
    not a string) the context the handler is bound to. *)
Inductive QueueArg :=
| NoQueue
| QueueName (queueName : string)
| ContextObject (context : nat).

(** Lines 185-196 of [handle]: the topic subscribed to. *)
Definition handle_target (messageType : option string) (queueName : QueueArg)
  : string :=
  let prefix :=
    match queueName with
    | QueueName queueName => replace_dots queueName
    | _ => "#"
    end in
  let parts := [prefix] in
  let parts := if negb (isEmpty messageType)
               then parts ++ [default "" messageType] else parts in
  join "." parts.

Definition handle_context (queueName : QueueArg) (context : option nat)
  : option nat :=
  match queueName with
  | QueueName _ => context
  | NoQueue => None
  | ContextObject c => Some c
  end.

Definition set_hasHandles (v : bool) (b : Broker) : Broker :=
  mkBroker (connections b) (connections_keys b) v (autoNack b) (configurations b)
    (ackIntervalId b).

Definition set_autoNack (v : bool) (b : Broker) : Broker :=
  mkBroker (connections b) (connections_keys b) (hasHandles b) v (configurations b)
    (ackIntervalId b).

(** [channel.subscribe( topic, callback )] of postal: the constructor of a
    subscription refuses an empty topic before anything is registered. *)
Definition postal_subscribe (id : nat) (channel : PostalChannel)
    (topic : string) (callback : Callback) (catch : bool) : M Subscription :=
  if String.eqb topic "" then throw (Error "Topics cannot be empty")
  else
    let s := mkSubscription id channel topic callback catch true in
    modify (λ w, mkWorld (broker w) (serializers w) (unhandled_onUnhandled w)
      (unhandled_custom w) (listeners w) (subscriptions w ++ [s]) (promises w)
      (timers w) (next_id w) (log w)) >>
    effect (E_subscribe s) >>
    ret s.

(** [subscription.unsubscribe()], also reachable as [subscription.remove]. *)
Definition unsubscribe (id : nat) : M unit :=
  modify (λ w, mkWorld (broker w) (serializers w) (unhandled_onUnhandled w)
    (unhandled_custom w) (listeners w)
    ((λ s, if bool_decide (sub_id s = id)
           then mkSubscription (sub_id s) (sub_channel s) (sub_topic s)
                  (sub_callback s) (sub_catch s) false
           else s) <$> subscriptions w)
    (promises w) (timers w) (next_id w) (log w)) >>
  effect (E_unsubscribe id).

Definition handle (messageType : option string) (handler : nat)
    (queueName : QueueArg) (context : option nat) : M Subscription :=
  update (set_hasHandles true) >>
  let context := handle_context queueName context in
  let target := handle_target messageType queueName in
  b <- this ;;
  id <- fresh ;;
  postal_subscribe id Dispatch target (UserHandler handler context) (autoNack b).

Definition ignoreHandlerErrors : M unit := update (set_autoNack false).
Definition nackOnError : M unit := update (set_autoNack true).

Definition set_unhandled (s : UnhandledStrategy) (custom : option nat → option nat)
  : M unit :=
  modify (λ w, mkWorld (broker w) (serializers w) s (custom (unhandled_custom w))
    (listeners w) (subscriptions w) (promises w) (timers w) (next_id w) (log w)).

Definition nackUnhandled : M unit := set_unhandled nackOnUnhandled id.
Definition onUnhandled (handler : nat) : M unit :=
  set_unhandled (customOnUnhandled (Some handler)) (λ _, Some handler).
Definition rejectUnhandled : M unit := set_unhandled rejectOnUnhandled id.

(** The second and third arguments of [publish]. *)
Inductive TypeArg :=
| TypeName (type : option string)
| TypeOptions (options : PublishOptions).

Inductive MessageArg :=
| MessageUndefined
| MessageString (s : string)
| MessageObject (connectionName : option string) (body : JsVal).

Definition message_body (message : MessageArg) : JsVal :=
  match message with
  | MessageUndefined => V_undefined
  | MessageString s => V_str s
  | MessageObject _ body => body
  end.

Definition set_publishTimeout (t : option Z) (o : PublishOptions)
  : PublishOptions :=
  mkPublishOptions (po_appId o) (po_type o) (po_body o) (po_routingKey o)
    (po_correlationId o) (po_sequenceNo o) (po_timestamp o) (po_headers o)
    (po_connectionName o) (po_messageId o) t.

(** [publish]; [now] is the value of [Date.now()].  [this.appId] is never
    assigned by the facade. *)
Definition publish (now : Z) (exchangeName : string) (type : TypeArg)
    (message : MessageArg) (routingKey correlationId connectionName : option string)
    (sequenceNo : option Z) : M Promise :=
  let timestamp := now in
  prepared <-
    match type with
    | TypeOptions options =>
        let connectionName :=
          match message with
          | MessageUndefined => or_string (po_connectionName options) "default"
          | MessageString s =>
              if String.eqb s ""
              then or_string (po_connectionName options) "default" else s
          | MessageObject _ _ => "[object Object]"
          end in
        ret (options, connectionName)
    | TypeName type =>
        connectionName <-
          match connectionName with
          | Some c =>
              if String.eqb c "" then
                match message with
                | MessageUndefined => throw (TypeError "message is undefined")
                | MessageString _ => ret "default"
                | MessageObject c' _ => ret (or_string c' "default")
                end
              else ret c
          | None =>
              match message with
              | MessageUndefined => throw (TypeError "message is undefined")
              | MessageString _ => ret "default"
              | MessageObject c' _ => ret (or_string c' "default")
              end
          end ;;
        ret (mkPublishOptions None type (message_body message) routingKey
               correlationId sequenceNo (Some timestamp) (Some ∅)
               (Some connectionName) None None, connectionName)
    end ;;
  let '(options, connectionName) := prepared in
  b <- this ;;
  match connections b !! connectionName with
  | None => throw (TypeError "this.connections[connectionName] is undefined")
  | Some t =>
      let connection := topo_options t in
      let options :=
        if truthy_number (opt_publishTimeout connection)
        then set_publishTimeout (opt_publishTimeout connection) options
        else options in
      exchange <- getExchange exchangeName (Some connectionName) ;;
      match exchange with
      | None => throw (TypeError "getExchange(...) is undefined")
      | Some x =>
          effect (E_exchangePublish x options) >> ret (P_publishing x options)
      end
  end.

(** Promise cells of [when.promise]: [resolve], [reject] and [notify] act
    on a pending cell only. *)
Definition set_promises (f : gmap nat PromiseCell → gmap nat PromiseCell)
  : M unit :=
  modify (λ w, mkWorld (broker w) (serializers w) (unhandled_onUnhandled w)
    (unhandled_custom w) (listeners w) (subscriptions w) (f (promises w))
    (timers w) (next_id w) (log w)).

Definition settle_cell (s : PState) (c : PromiseCell) : PromiseCell :=
  match p_state c with
  | Pending => mkPromiseCell s (p_progress c)
  | _ => c
  end.

Definition resolve (p : nat) (m : Message) : M unit :=
  effect (E_resolve p m) >> set_promises (alter (settle_cell (Resolved m)) p).

Definition reject (p : nat) (e : JsError) : M unit :=
  effect (E_reject p e) >> set_promises (alter (settle_cell (RejectedWith e)) p).

Definition notify (p : nat) (m : Message) : M unit :=
  effect (E_notify p m) >>
  set_promises (alter (λ c, match p_state c with
                            | Pending => mkPromiseCell Pending (p_progress c ++ [m])
                            | _ => c
                            end) p).

(** [uuid.v1()]: an identifier made from a fresh counter value. *)
Definition uuid_v1 : M string :=
  n <- fresh ;; ret ("uuid-" +:+ pretty n).

(** The reply closure of [request], lines 262-269. *)
Definition sequence_end (message : Message) : bool :=
  truthy (default V_undefined (properties_headers message !! "sequence_end")).

Definition run_callback (cb : Callback) (message : Message) : M unit :=
  match cb with
  | ReplyCallback promise subscription =>
      if sequence_end message
      then resolve promise message >> unsubscribe subscription
      else notify promise message
  | UserHandler handler context => effect (E_invoke handler context message)
  end.

Definition request (now : Z) (exchangeName : string)
    (options : option PublishOptions) (connectionName : option string) : M nat :=
  match options with
  | None =>
      (* line 257 reads [options.connectionName] unless [connectionName] is
         truthy; line 259 writes [options.messageId], after [uuid.v1()] *)
      if String.eqb (or_string connectionName "") ""
      then throw (TypeError "options is undefined")
      else uuid_v1 >> throw (TypeError "options is undefined")
  | Some options =>
      let connectionName :=
        match connectionName with
        | Some c => if String.eqb c ""
                    then or_string (po_connectionName options) "default" else c
        | None => or_string (po_connectionName options) "default"
        end in
      requestId <- uuid_v1 ;;
      let options :=
        mkPublishOptions (po_appId options) (po_type options) (po_body options)
          (po_routingKey options) (po_correlationId options) (po_sequenceNo options)
          (po_timestamp options) (po_headers options) (Some connectionName)
          (Some requestId) (po_connectionPublishTimeout options) in
      promise <- fresh ;;
      set_promises (<[promise := mkPromiseCell Pending []]>) >>
      sid <- fresh ;;
      postal_subscribe sid Responses requestId (ReplyCallback promise sid) false >>
      try_catch
        (discard (publish now exchangeName (TypeOptions options) MessageUndefined
                    None None None None))
        (reject promise) >>
      ret promise
  end.

(** A message published on the responses channel under [topic] reaches the
    subscriptions to that topic, in registration order; a subscription
    that has been unsubscribed by then is skipped. *)
Definition is_active (w : World) (id : nat) : bool :=
  existsb (λ s, bool_decide (sub_id s = id) && sub_active s) (subscriptions w).

Definition listens (s : Subscription) (topic : string) : bool :=
  match sub_channel s with
  | Responses => String.eqb (sub_topic s) topic
  | _ => false
  end.

Fixpoint deliver (subs : list Subscription) (topic : string) (message : Message)
  : M unit :=
  match subs with
  | [] => ret tt
  | s :: subs =>
      w <- get ;;
      (if listens s topic && is_active w (sub_id s)
       then run_callback (sub_callback s) message else ret tt) >>
      deliver subs topic message
  end.

Definition reply (topic : string) (message : Message) : M unit :=
  w <- get ;;
  deliver (subscriptions w) topic message.

Definition reset : M unit :=
  update (λ b, mkBroker ∅ [] (hasHandles b) (autoNack b) ∅ (ackIntervalId b)).

Definition set_configurations (f : gmap string Config → gmap string Config)
    (b : Broker) : Broker :=
  mkBroker (connections b) (connections_keys b) (hasHandles b) (autoNack b)
    (f (configurations b)) (ackIntervalId b).

(** Modelled from the spec: [config.js], which mixes [configure] into the
    broker, is not among the sources.  [configure(config)] stores the
    configuration under its name and rebuilds the connection and its
    topology from it through the facade. *)
Definition configure (config : option Config) : M Promise :=
  match config with
  | None => throw (TypeError "config is undefined")
  | Some config =>
      let name := connection_name (cfg_connection config) in
      update (set_configurations (<[or_string (cfg_name config) "default" := config]>)) >>
      addConnection (cfg_connection config) >>
      mapM (λ x, addExchange (ExchangeObject x) (Some name) None None)
        (cfg_exchanges config) >>
      mapM (λ q, addQueue (q_name q) (Some q) (Some name)) (cfg_queues config) >>
      mapM (λ b, if b_queue b
                 then bindQueue (b_source b) (b_target b) (b_keys b) (Some name)
                 else bindExchange (b_source b) (b_target b) (b_keys b) (Some name))
        (cfg_bindings config) >>
      ret (P_value V_undefined)
  end.

Definition retry (connectionName : option string) : M Promise :=
  let connectionName := or_string connectionName "default" in
  b <- this ;;
  let config := configurations b !! connectionName in
  configure config.

(** [shutdown]: the [then] callback runs [clearAckInterval] once the
    promise of [closeAll( true )] is fulfilled. *)
Definition shutdown : M Promise :=
  p <- closeAll true ;;
  ret (P_then_clearAckInterval p).

(** The second argument of [startSubscription]. *)
Inductive ExclusiveArg :=
| ExclusiveUndefined
| ExclusiveFlag (b : bool)
| ExclusiveString (connectionName : string).

Definition startSubscription (queueName : string) (exclusive : ExclusiveArg)
    (connectionName : option string) : M Channel :=
  b <- this ;;
  (if negb (hasHandles b)
   then effect (E_warn (handlers_warning queueName)) else ret tt) >>
  let '(connectionName, exclusive) :=
    match exclusive with
    | ExclusiveString s => (Some s, false)
    | ExclusiveFlag e => (connectionName, e)
    | ExclusiveUndefined => (connectionName, false)
    end in
  let connectionName := or_string connectionName "default" in
  queue <- getQueue queueName (Some connectionName) ;;
  match queue with
  | Some queue =>
      effect (E_queueSubscribe queue exclusive) >>
      ret queue
  | None =>
      throw (Error ("No queue named '" +:+ queueName +:+ "' for connection '"
                    +:+ connectionName +:+ "'. Subscription failed."))
  end.

(** ** The dispatcher

    [handle] subscribes on the channel "rabbit.dispatch" of postal, a
    dependency that is not among the sources.  A message published on that
    channel reaches the subscriptions whose topic (their binding) matches
    the topic of the message, as the default bindings resolver of postal
    decides it. *)

(** [binding.split( "." )] *)
Fixpoint split_dots (s : string) : list string :=
  match s with
  | EmptyString => [EmptyString]
  | String c rest =>
      if Ascii.eqb c "."%char then EmptyString :: split_dots rest
      else match split_dots rest with
           | segment :: segments => String c segment :: segments
           | [] => [String c EmptyString]
           end
  end.

(** What the resolver builds its regular expression from: [[\s\S]*] for
    the segment "#", [[^.]+] for the segment "*", the segment itself
    otherwise, with [\.] and [\b] between segments. *)
Inductive Item :=
| Any
| Word
| Lit (segment : string)
| Dot
| Boundary.

(** Lines of [compare]: no separator before the first segment nor after an
    empty one, [\b] alone after "#", [\.\b] otherwise. *)
Fixpoint pattern_of (prevSegment : option string) (segments : list string)
  : list Item :=
  match segments with
  | [] => []
  | segment :: rest =>
      match prevSegment with
      | Some p => if String.eqb p "" then []
                  else if String.eqb p "#" then [Boundary] else [Dot; Boundary]
      | None => []
      end ++
      (if String.eqb segment "#" then [Any]
       else if String.eqb segment "*" then [Word]
       else [Lit segment]) ++
      pattern_of (Some segment) rest
  end.

(** A word character of a regular expression: a letter, a digit or "_". *)
Definition is_word (c : option ascii) : bool :=
  match c with
  | Some c =>
      let n := N_of_ascii c in
      (((48 <=? n) && (n <=? 57)) || ((65 <=? n) && (n <=? 90)) ||
       ((97 <=? n) && (n <=? 122)) || (n =? 95))%N
  | None => false
  end.

Definition first_char (s : string) : option ascii :=
  match s with
  | EmptyString => None
  | String c _ => Some c
  end.

(** [s] without the prefix [l], with the character before what is left. *)
Fixpoint strip_prefix (l s : string) (prev : option ascii)
  : option (option ascii * string) :=
  match l with
  | EmptyString => Some (prev, s)
  | String a l' =>
      match s with
      | String b s' => if Ascii.eqb a b then strip_prefix l' s' (Some a) else None
      | EmptyString => None
      end
  end.

(** [rgx.test( topic )] for the expression [^items$]: [prev] is the
    character before the rest [s] of the topic.  A segment is compared as
    a literal, which is how the regular expression reads it when it has no
    character that is special there ([plain_segment]). *)
Fixpoint regex_match (items : list Item) : option ascii → string → bool :=
  match items with
  | [] => λ _ s, String.eqb s ""
  | Boundary :: r =>
      λ prev s, xorb (is_word prev) (is_word (first_char s)) && regex_match r prev s
  | Dot :: r =>
      λ _ s, match s with
             | String c s' => Ascii.eqb c "."%char && regex_match r (Some c) s'
             | EmptyString => false
             end
  | Lit l :: r =>
      λ prev s, match strip_prefix l s prev with
                | Some (prev', s') => regex_match r prev' s'
                | None => false
                end
  | Any :: r =>
      fix any (prev : option ascii) (s : string) : bool :=
        regex_match r prev s ||
        match s with
        | String c s' => any (Some c) s'
        | EmptyString => false
        end
  | Word :: r =>
      λ _ s, match s with
             | String c s' =>
                 negb (Ascii.eqb c "."%char) &&
                 (fix more (prev : option ascii) (s : string) : bool :=
                    regex_match r prev s ||
                    match s with
                    | String c s' => negb (Ascii.eqb c "."%char) && more (Some c) s'
                    | EmptyString => false
                    end) (Some c) s'
             | EmptyString => false
             end
  end.

Fixpoint occurs (c : ascii) (s : string) : bool :=
  match s with
  | EmptyString => false
  | String a s' => Ascii.eqb a c || occurs c s'
  end.

(** A segment without a character that is special in a regular
    expression. *)
Definition plain_segment (segment : string) : bool :=
  forallb (λ c, negb (occurs c segment))
    (String.list_ascii_of_string "\^$.|?*+()[]{}").

(** [resolver.compare( binding, topic )]: a binding without "#" and "*" is
    compared with the topic as a string, any other through its regular
    expression. *)
Definition postal_compare (binding topic : string) : bool :=
  if negb (occurs "#" binding) && negb (occurs "*" binding)
  then String.eqb topic binding
  else regex_match (pattern_of None (split_dots binding)) None topic.

(** The bindings [postal_compare] is the resolver for: those compared as
    strings, and those whose segments are "#", "*" or plain.  In any other
    binding the regular expression reads a character of a segment as an
    operator. *)
Definition modelled_binding (binding : string) : bool :=
  negb (occurs "#" binding) && negb (occurs "*" binding)
  || forallb (λ segment, String.eqb segment "#" || String.eqb segment "*"
                         || plain_segment segment)
       (split_dots binding).

Definition hears (s : Subscription) (topic : string) : bool :=
  match sub_channel s with
  | Dispatch => postal_compare (sub_topic s) topic
  | _ => false
  end.

(** [dispatch.publish( topic, message )]: the subscriptions of the dispatch
    channel that match are called in the order they were made. *)
Fixpoint dispatch_deliver (subs : list Subscription) (topic : string)
    (message : Message) : M unit :=
  match subs with
  | [] => ret tt
  | s :: subs =>
      w <- get ;;
      (if hears s topic && is_active w (sub_id s)
       then run_callback (sub_callback s) message else ret tt) >>
      dispatch_deliver subs topic message
  end.

Definition dispatch (topic : string) (message : Message) : M unit :=
  w <- get ;;
  dispatch_deliver (subscriptions w) topic message.

(** Modelled from the spec: [queue.js], which publishes each message a
    queue receives to the dispatcher, is not among the sources.  The topic
    of a message is formed as section 4.3 forms the topic of a handler: the
    name of the queue with every "." replaced by "-", then "." and the type
    the message is dispatched under, when it has one. *)
Definition inbound_topic (queue type : string) : string :=
  join "." ([replace_dots queue] ++ if String.eqb type "" then [] else [type]).

(** ** Everything that can happen to a broker

    The calls of the public surface, and the events its collaborators
    deliver to the closures it registered: the lifecycle events of a
    connection, a reply on the responses channel, a message on the dispatch
    channel. *)
Inductive Op :=
| Op_addConnection (options : option ConnOptions)
| Op_addExchange (name : ExchangeName) (type : option string)
    (options : option ExchangeDef) (connectionName : option string)
| Op_addQueue (name : string) (options : option QueueDef)
    (connectionName : option string)
| Op_addSerializer (contentType : string) (serializer : nat)
| Op_batchAck
| Op_bindExchange (source target : string) (keys : list string)
    (connectionName : option string)
| Op_bindQueue (source target : string) (keys : list string)
    (connectionName : option string)
| Op_clearAckInterval
| Op_closeAll (reset : bool)
| Op_close (connectionName : option string) (reset : bool)
| Op_deleteExchange (name : string) (connectionName : option string)
| Op_deleteQueue (name : string) (connectionName : option string)
| Op_getExchange (name : string) (connectionName : option string)
| Op_getQueue (name : string) (connectionName : option string)
| Op_handle (messageType : option string) (handler : nat)
    (queueName : QueueArg) (context : option nat)
| Op_ignoreHandlerErrors
| Op_nackOnError
| Op_nackUnhandled
| Op_onUnhandled (handler : nat)
| Op_rejectUnhandled
| Op_publish (now : Z) (exchangeName : string) (type : TypeArg)
    (message : MessageArg) (routingKey correlationId connectionName : option string)
    (sequenceNo : option Z)
| Op_request (now : Z) (exchangeName : string) (options : option PublishOptions)
    (connectionName : option string)
| Op_reset
| Op_retry (connectionName : option string)
| Op_configure (config : option Config)
| Op_setAckInterval (interval : Z)
| Op_shutdown
| Op_startSubscription (queueName : string) (exclusive : ExclusiveArg)
    (connectionName : option string)
| Ev_remove (subscription : nat)
| Ev_signal (c : Connection) (ev : ConnEvent) (err : string)
| Ev_reply (topic : string) (message : Message)
| Ev_dispatch (topic : string) (message : Message)
| Ev_shutdown_closed.

Definition run_op (op : Op) : M unit :=
  match op with
  | Op_addConnection o => discard (addConnection o)
  | Op_addExchange n t o c => discard (addExchange n t o c)
  | Op_addQueue n o c => discard (addQueue n o c)
  | Op_addSerializer t s => addSerializer t s
  | Op_batchAck => batchAck
  | Op_bindExchange s t k c => discard (bindExchange s t k c)
  | Op_bindQueue s t k c => discard (bindQueue s t k c)
  | Op_clearAckInterval => clearAckInterval
  | Op_closeAll r => discard (closeAll r)
  | Op_close c r => discard (close c r)
  | Op_deleteExchange n c => discard (deleteExchange n c)
  | Op_deleteQueue n c => discard (deleteQueue n c)
  | Op_getExchange n c => discard (getExchange n c)
  | Op_getQueue n c => discard (getQueue n c)
  | Op_handle t h q c => discard (handle t h q c)
  | Op_ignoreHandlerErrors => ignoreHandlerErrors
  | Op_nackOnError => nackOnError
  | Op_nackUnhandled => nackUnhandled
  | Op_onUnhandled h => onUnhandled h
  | Op_rejectUnhandled => rejectUnhandled
  | Op_publish now x t m r c n s => discard (publish now x t m r c n s)
  | Op_request now x o c => discard (request now x o c)
  | Op_reset => reset
  | Op_retry c => discard (retry c)
  | Op_configure c => discard (configure c)
  | Op_setAckInterval i => setAckInterval i
  | Op_shutdown => discard shutdown
  | Op_startSubscription q e c => discard (startSubscription q e c)
  | Ev_remove s => unsubscribe s
  | Ev_signal c ev err => signal c ev err
  | Ev_reply topic m => reply topic m
  | Ev_dispatch topic m => dispatch topic m
  | Ev_shutdown_closed => clearAckInterval
  end.

(** A history of calls and events; an exception ends the call that raised
    it and the history goes on from the state it left. *)
Definition run_ops (ops : list Op) (w : World) : World :=
  foldl (λ w op, exec (run_op op) w) w ops.

(** ** Settlement of the promises the facade returns

    [env] gives the eventual outcome of the promises of the collaborators
    (the underlying close, publish and topology calls) with the logical
    time at which each settles.  [when.all] is fulfilled with the array of
    all values once every input is fulfilled, and is rejected with the
    reason of the first input that rejects. *)
Inductive Settlement :=
| Unsettled
| Fulfilled (time : nat) (v : JsVal)
| Rejected (time : nat) (reason : JsError).

Fixpoint first_rejection (ss : list Settlement) : option (nat * JsError) :=
  match ss with
  | [] => None
  | s :: ss =>
      match s, first_rejection ss with
      | Rejected t e, Some (t', e') =>
          if (t <=? t')%nat then Some (t, e) else Some (t', e')
      | Rejected t e, None => Some (t, e)
      | _, r => r
      end
  end.

Fixpoint all_fulfilled (ss : list Settlement) : option (nat * list JsVal) :=
  match ss with
  | [] => Some (0%nat, [])
  | Fulfilled t v :: ss =>
      match all_fulfilled ss with
      | Some (t', vs) => Some (Nat.max t t', v :: vs)
      | None => None
      end
  | _ :: _ => None
  end.

Definition when_all (ss : list Settlement) : Settlement :=
  match first_rejection ss with
  | Some (t, e) => Rejected t e
  | None =>
      match all_fulfilled ss with
      | Some (t, vs) => Fulfilled t (V_array vs)
      | None => Unsettled
      end
  end.

Fixpoint settle (env : Promise → Settlement) (p : Promise) : Settlement :=
  match p with
  | P_value v => Fulfilled 0 v
  | P_all ps => when_all (map (settle env) ps)
  | P_then_clearAckInterval p =>
      match settle env p with
      | Fulfilled t _ => Fulfilled t V_undefined
      | s => s
      end
  | p => env p
  end.

(** The outcome of a settlement, without its time. *)
Definition outcome (s : Settlement) : option (JsVal + JsError) :=
  match s with
  | Unsettled => None
  | Fulfilled _ v => Some (inl v)
  | Rejected _ e => Some (inr e)
  end.

(** ** Strings, buffers and the built-in serializers

    A JavaScript string is a sequence of UTF-16 code units and a Buffer a
    sequence of bytes, both written as lists of integers. *)

(** The code unit of an ASCII character, and of each character of a
    literal. *)
Definition chr (a : ascii) : Z := Z.of_nat (nat_of_ascii a).

Fixpoint units (s : string) : list Z :=
  match s with
  | EmptyString => []
  | String a s => chr a :: units s
  end.

Definition is_high_surrogate (c : Z) : bool := (0xD800 <=? c) && (c <=? 0xDBFF).
Definition is_low_surrogate (c : Z) : bool := (0xDC00 <=? c) && (c <=? 0xDFFF).

(** A string is well formed when its code units are in range and its
    surrogates come in pairs, a high one followed by a low one. *)
Fixpoint well_formed (s : list Z) : bool :=
  match s with
  | [] => true
  | c :: s' =>
      if is_high_surrogate c then
        match s' with
        | d :: s'' => is_low_surrogate d && well_formed s''
        | [] => false
        end
      else (0 <=? c) && (c <? 0x10000) && negb (is_low_surrogate c) && well_formed s'
  end.

(** The UTF-8 bytes of one code point. *)
Definition utf8_bytes (cp : Z) : list Z :=
  if cp <? 0x80 then [cp]
  else if cp <? 0x800 then [0xC0 + cp / 64; 0x80 + cp mod 64]
  else if cp <? 0x10000 then
    [0xE0 + cp / 4096; 0x80 + (cp / 64) mod 64; 0x80 + cp mod 64]
  else
    [0xF0 + cp / 262144; 0x80 + (cp / 4096) mod 64; 0x80 + (cp / 64) mod 64;
     0x80 + cp mod 64].

(** [new Buffer( string, "utf8" )]: a surrogate pair is one code point, a
    lone surrogate is written as U+FFFD. *)
Fixpoint utf8_write (s : list Z) : list Z :=
  match s with
  | [] => []
  | c :: s' =>
      if is_high_surrogate c then
        match s' with
        | d :: s'' =>
            if is_low_surrogate d
            then utf8_bytes (0x10000 + (c - 0xD800) * 1024 + (d - 0xDC00))
                 ++ utf8_write s''
            else utf8_bytes 0xFFFD ++ utf8_write s'
        | [] => utf8_bytes 0xFFFD
        end
      else if is_low_surrogate c then utf8_bytes 0xFFFD ++ utf8_write s'
      else utf8_bytes c ++ utf8_write s'
  end.

Definition is_continuation (b : Z) : bool := (0x80 <=? b) && (b <? 0xC0).

(** The code units of one code point. *)
Definition code_units (cp : Z) : list Z :=
  if cp <? 0x10000 then [cp]
  else [0xD800 + (cp - 0x10000) / 1024; 0xDC00 + (cp - 0x10000) mod 1024].

(** [bytes.toString( "utf8" )]: an ill-formed sequence (a stray
    continuation byte, an overlong form, an encoded surrogate, a code point
    above U+10FFFF, a truncated sequence) is read as U+FFFD and decoding
    goes on at the next byte. *)
Fixpoint utf8_slice (bytes : list Z) : list Z :=
  match bytes with
  | [] => []
  | b0 :: rest =>
      if b0 <? 0x80 then b0 :: utf8_slice rest
      else if (0xC2 <=? b0) && (b0 <? 0xE0) then
        match rest with
        | b1 :: rest' =>
            if is_continuation b1
            then ((b0 - 0xC0) * 64 + (b1 - 0x80)) :: utf8_slice rest'
            else 0xFFFD :: utf8_slice rest
        | [] => [0xFFFD]
        end
      else if (0xE0 <=? b0) && (b0 <? 0xF0) then
        match rest with
        | b1 :: b2 :: rest' =>
            let cp := (b0 - 0xE0) * 4096 + (b1 - 0x80) * 64 + (b2 - 0x80) in
            if is_continuation b1 && is_continuation b2 && (0x800 <=? cp)
               && negb ((0xD800 <=? cp) && (cp <=? 0xDFFF))
            then cp :: utf8_slice rest'
            else 0xFFFD :: utf8_slice rest
        | _ => 0xFFFD :: utf8_slice rest
        end
      else if (0xF0 <=? b0) && (b0 <? 0xF5) then
        match rest with
        | b1 :: b2 :: b3 :: rest' =>
            let cp := (b0 - 0xF0) * 262144 + (b1 - 0x80) * 4096
                      + (b2 - 0x80) * 64 + (b3 - 0x80) in
            if is_continuation b1 && is_continuation b2 && is_continuation b3
               && (0x10000 <=? cp) && (cp <=? 0x10FFFF)
            then code_units cp ++ utf8_slice rest'
            else 0xFFFD :: utf8_slice rest
        | _ => 0xFFFD :: utf8_slice rest
        end
      else 0xFFFD :: utf8_slice rest
  end.

(** The encodings [toString] is called with here. *)
Inductive Encoding := utf8 | latin1 | ascii_encoding.

Definition toString (bytes : list Z) (encoding : Encoding) : list Z :=
  match encoding with
  | utf8 => utf8_slice bytes
  | latin1 => bytes
  | ascii_encoding => (λ b, b mod 128) <$> bytes
  end.

(** JSON values: numbers are the integers, objects keep their members in
    order. *)
Inductive json :=
| JNull
| JBool (b : bool)
| JNumber (n : Z)
| JString (s : list Z)
| JArray (items : list json)
| JObject (members : list (list Z * json)).

(** The decimal digits of [n], most significant first, in front of [acc]. *)
Fixpoint digits (fuel : nat) (n : Z) (acc : list Z) : list Z :=
  match fuel with
  | O => acc
  | S fuel =>
      let acc := (chr "0" + n mod 10) :: acc in
      if n <? 10 then acc else digits fuel (n / 10) acc
  end.

(** ToString of an integer below 10^21. *)
Definition number_to_string (n : Z) : list Z :=
  if n <? 0 then chr "-" :: digits (S (Z.to_nat (Z.log2 (- n)))) (- n) []
  else digits (S (Z.to_nat (Z.log2 n))) n [].

Definition hex_digit (n : Z) : Z :=
  if n <? 10 then chr "0" + n else chr "a" + (n - 10).

(** The abstract operation Quote of [JSON.stringify], one code unit at a
    time; 0x22 is the double quote and 0x5C the backslash.  This is Quote
    as ECMAScript 5 has it; later editions escape a surrogate that is not
    part of a pair, which the well-formed strings do not have. *)
Definition quote_unit (c : Z) : list Z :=
  if c =? 0x22 then [0x5C; 0x22]
  else if c =? 0x5C then [0x5C; 0x5C]
  else if c =? 0x08 then units "\b"
  else if c =? 0x0C then units "\f"
  else if c =? 0x0A then units "\n"
  else if c =? 0x0D then units "\r"
  else if c =? 0x09 then units "\t"
  else if c <? 0x20 then units "\u00" ++ [hex_digit (c / 16); hex_digit (c mod 16)]
  else [c].

Definition quote (s : list Z) : list Z :=
  0x22 :: concat (quote_unit <$> s) ++ [0x22].

Fixpoint join_units (sep : list Z) (parts : list (list Z)) : list Z :=
  match parts with
  | [] => []
  | [p] => p
  | p :: rest => p ++ sep ++ join_units sep rest
  end.

(** [JSON.stringify( object )] without indentation. *)
Fixpoint JSON_stringify (v : json) : list Z :=
  match v with
  | JNull => units "null"
  | JBool true => units "true"
  | JBool false => units "false"
  | JNumber n => number_to_string n
  | JString s => quote s
  | JArray items =>
      units "[" ++ join_units (units ",") (map JSON_stringify items) ++ units "]"
  | JObject members =>
      units "{" ++
      join_units (units ",")
        (map (λ m, quote (fst m) ++ units ":" ++ JSON_stringify (snd m)) members)
      ++ units "}"
  end.

Definition is_ws (c : Z) : bool :=
  (c =? 0x20) || (c =? 0x09) || (c =? 0x0A) || (c =? 0x0D).

Fixpoint skip_ws (s : list Z) : list Z :=
  match s with
  | c :: s' => if is_ws c then skip_ws s' else s
  | [] => []
  end.

(** The rest of [s] after the literal [lit]. *)
Fixpoint expect (lit s : list Z) : option (list Z) :=
  match lit, s with
  | [], _ => Some s
  | l :: lit, c :: s => if c =? l then expect lit s else None
  | _ :: _, [] => None
  end.

Definition is_digit (c : Z) : bool := (chr "0" <=? c) && (c <=? chr "9").

Fixpoint parse_digits (acc : Z) (s : list Z) : Z * list Z :=
  match s with
  | c :: s' => if is_digit c then parse_digits (acc * 10 + (c - chr "0")) s'
               else (acc, s)
  | [] => (acc, [])
  end.

(** The fraction of a number, read after its integer part [int]: the
    digits of both as one integer, the number of digits of the fraction,
    and the rest of the text. *)
Definition parse_fraction (int : Z) (s : list Z) : option (Z * Z * list Z) :=
  match s with
  | c :: s' =>
      if c =? chr "." then
        match s' with
        | d :: _ =>
            if is_digit d then
              let '(m, rest) := parse_digits int s' in
              Some (m, Z.of_nat (length s' - length rest), rest)
            else None
        | [] => None
        end
      else Some (int, 0, s)
  | [] => Some (int, 0, [])
  end.

(** The exponent of a number, 0 when it has none. *)
Definition parse_exponent (s : list Z) : option (Z * list Z) :=
  match s with
  | c :: s' =>
      if (c =? chr "e") || (c =? chr "E") then
        let '(negative, s'') :=
          match s' with
          | x :: t => if x =? chr "-" then (true, t)
                      else if x =? chr "+" then (false, t) else (false, s')
          | [] => (false, s')
          end in
        match s'' with
        | d :: _ =>
            if is_digit d then
              let '(e, rest) := parse_digits 0 s'' in
              Some (if negative : bool then - e else e, rest)
            else None
        | [] => None
        end
      else Some (0, s)
  | [] => Some (0, [])
  end.

(** [m] times the power [e] of ten, when that is an integer. *)
Definition integer_value (m e : Z) : option Z :=
  if 0 <=? e then Some (m * 10 ^ e)
  else if m mod 10 ^ (- e) =? 0 then Some (m / 10 ^ (- e)) else None.

(** The integers every one of which is a number of JavaScript. *)
Definition safe_integer (n : Z) : bool := (- 2 ^ 53 <? n) && (n <? 2 ^ 53).

(** A JSON number: an optional minus sign, an integer part without leading
    zeros, an optional fraction, an optional exponent.  The outer [None]
    stands for a text that is not a number.  The value read is given when
    the text denotes a safe integer, which [JSON.parse] then returns as it
    is (minus zero as zero); for any other number, which [JSON.parse] rounds
    to a double, the value is left open. *)
Definition parse_number (s : list Z) : option (option Z * list Z) :=
  let '(negative, s) :=
    match s with
    | c :: s' => if c =? chr "-" then (true, s') else (false, s)
    | [] => (false, s)
    end in
  match s with
  | d :: s' =>
      if is_digit d then
        let '(int, rest) := if d =? chr "0" then (0, s') else parse_digits 0 s in
        match parse_fraction int rest with
        | Some (m, k, rest) =>
            match parse_exponent rest with
            | Some (e, rest) =>
                let m := if negative : bool then - m else m in
                Some (match integer_value m (e - k) with
                      | Some n => if safe_integer n then Some n else None
                      | None => None
                      end, rest)
            | None => None
            end
        | None => None
        end
      else None
  | [] => None
  end.

(** The two ways numbers are read: only those whose value is known, or any
    number, for the syntax alone. *)
Definition safe_number (s : list Z) : option (Z * list Z) :=
  match parse_number s with
  | Some (Some n, rest) => Some (n, rest)
  | _ => None
  end.

Definition any_number (s : list Z) : option (Z * list Z) :=
  match parse_number s with
  | Some (_, rest) => Some (0, rest)
  | None => None
  end.

Definition hex_value (c : Z) : option Z :=
  if is_digit c then Some (c - chr "0")
  else if (chr "a" <=? c) && (c <=? chr "f") then Some (c - chr "a" + 10)
  else if (chr "A" <=? c) && (c <=? chr "F") then Some (c - chr "A" + 10)
  else None.

(** The code unit of a single-character escape. *)
Definition unescape (e : Z) : option Z :=
  if e =? 0x22 then Some 0x22
  else if e =? 0x5C then Some 0x5C
  else if e =? chr "/" then Some (chr "/")
  else if e =? chr "b" then Some 0x08
  else if e =? chr "f" then Some 0x0C
  else if e =? chr "n" then Some 0x0A
  else if e =? chr "r" then Some 0x0D
  else if e =? chr "t" then Some 0x09
  else None.

Definition prepend (c : Z) (r : option (list Z * list Z))
  : option (list Z * list Z) :=
  match r with
  | Some (s, rest) => Some (c :: s, rest)
  | None => None
  end.

(** The characters of a string after its opening quote, up to the closing
    one. *)
Fixpoint parse_string (s : list Z) : option (list Z * list Z) :=
  match s with
  | [] => None
  | c :: s' =>
      if c =? 0x22 then Some ([], s')
      else if c =? 0x5C then
        match s' with
        | e :: s'' =>
            if e =? chr "u" then
              match s'' with
              | h1 :: h2 :: h3 :: h4 :: s3 =>
                  match hex_value h1, hex_value h2, hex_value h3, hex_value h4 with
                  | Some d1, Some d2, Some d3, Some d4 =>
                      prepend (((d1 * 16 + d2) * 16 + d3) * 16 + d4) (parse_string s3)
                  | _, _, _, _ => None
                  end
              | _ => None
              end
            else
              match unescape e with
              | Some c' => prepend c' (parse_string s'')
              | None => None
              end
        | [] => None
        end
      else if c <? 0x20 then None
      else prepend c (parse_string s')
  end.

(** Defining a property: a name that is already there keeps its place and
    takes the new value. *)
Fixpoint set_member (k : list Z) (v : json) (members : list (list Z * json))
  : list (list Z * json) :=
  match members with
  | [] => [(k, v)]
  | (k', v') :: rest =>
      if bool_decide (k' = k) then (k', v) :: rest
      else (k', v') :: set_member k v rest
  end.

Definition build_object (parsed : list (list Z * json)) : list (list Z * json) :=
  foldl (λ members m, set_member (fst m) (snd m) members) [] parsed.

Section parser.
(** How a number is read. *)
Variable number : list Z → option (Z * list Z).

Fixpoint parse_value (fuel : nat) (s : list Z) : option (json * list Z) :=
  match fuel with
  | O => None
  | S fuel =>
      match skip_ws s with
      | [] => None
      | c :: r =>
          if c =? 0x22 then
            match parse_string r with
            | Some (str, rest) => Some (JString str, rest)
            | None => None
            end
          else if c =? chr "[" then
            match skip_ws r with
            | c' :: r' =>
                if c' =? chr "]" then Some (JArray [], r')
                else match parse_elements fuel (c' :: r') with
                     | Some (items, rest) => Some (JArray items, rest)
                     | None => None
                     end
            | [] => None
            end
          else if c =? chr "{" then
            match skip_ws r with
            | c' :: r' =>
                if c' =? chr "}" then Some (JObject [], r')
                else match parse_members fuel (c' :: r') with
                     | Some (members, rest) =>
                         Some (JObject (build_object members), rest)
                     | None => None
                     end
            | [] => None
            end
          else if c =? chr "t" then
            match expect (units "rue") r with
            | Some rest => Some (JBool true, rest)
            | None => None
            end
          else if c =? chr "f" then
            match expect (units "alse") r with
            | Some rest => Some (JBool false, rest)
            | None => None
            end
          else if c =? chr "n" then
            match expect (units "ull") r with
            | Some rest => Some (JNull, rest)
            | None => None
            end
          else
            match number (c :: r) with
            | Some (n, rest) => Some (JNumber n, rest)
            | None => None
            end
      end
  end
with parse_elements (fuel : nat) (s : list Z) : option (list json * list Z) :=
  match fuel with
  | O => None
  | S fuel =>
      match parse_value fuel s with
      | Some (v, rest) =>
          match skip_ws rest with
          | c :: r =>
              if c =? chr "," then
                match parse_elements fuel r with
                | Some (vs, rest') => Some (v :: vs, rest')
                | None => None
                end
              else if c =? chr "]" then Some ([v], r)
              else None
          | [] => None
          end
      | None => None
      end
  end
with parse_members (fuel : nat) (s : list Z)
  : option (list (list Z * json) * list Z) :=
  match fuel with
  | O => None
  | S fuel =>
      match skip_ws s with
      | c :: r =>
          if c =? 0x22 then
            match parse_string r with
            | Some (k, rest) =>
                match skip_ws rest with
                | c' :: r' =>
                    if c' =? chr ":" then
                      match parse_value fuel r' with
                      | Some (v, rest') =>
                          match skip_ws rest' with
                          | c'' :: r'' =>
                              if c'' =? chr "," then
                                match parse_members fuel r'' with
                                | Some (ms, rest'') => Some ((k, v) :: ms, rest'')
                                | None => None
                                end
                              else if c'' =? chr "}" then Some ([(k, v)], r'')
                              else None
                          | [] => None
                          end
                      | None => None
                      end
                    else None
                | [] => None
                end
            | None => None
            end
          else None
      | [] => None
      end
  end.

(** A whole text read as one value. *)
Definition parse_text (text : list Z) : option json :=
  match parse_value (S (length text)) text with
  | Some (v, rest) =>
      match skip_ws rest with
      | [] => Some v
      | _ :: _ => None
      end
  | None => None
  end.
End parser.

(** What [JSON.parse] returns: a value of the model, or a value with a
    number in it that the model leaves open. *)
Inductive Parsed :=
| Exact (v : json)
| Inexact.

(** [JSON.parse( text )]; [None] stands for the SyntaxError it throws. *)
Definition JSON_parse (text : list Z) : option Parsed :=
  match parse_text safe_number text with
  | Some v => Some (Exact v)
  | None =>
      match parse_text any_number text with
      | Some _ => Some Inexact
      | None => None
      end
  end.

(** The values [JSON.stringify] and [JSON.parse] are modelled for: safe
    integers, well-formed strings, objects without repeated names. *)
Fixpoint representable (v : json) : bool :=
  match v with
  | JNull | JBool _ => true
  | JNumber n => safe_integer n
  | JString s => well_formed s
  | JArray items => forallb representable items
  | JObject members =>
      bool_decide (NoDup (fst <$> members)) &&
      forallb (λ m, well_formed (fst m) && representable (snd m)) members
  end.

(** A serializer of the registry. *)
Record Serializer (A B : Type) := mkSerializer {
  serialize : A → list Z;
  deserialize : list Z → option Encoding → option B
}.
Arguments serialize {A B} _ _.
Arguments deserialize {A B} _ _ _.

(** [serializers[ "application/json" ]] *)
Definition application_json : Serializer json Parsed :=
  {| deserialize bytes encoding :=
       JSON_parse (toString bytes (default utf8 encoding));
     serialize object := utf8_write (JSON_stringify object) |}.

(** [serializers[ "application/octet-stream" ]] *)
Definition application_octet_stream : Serializer (list Z) (list Z) :=
  {| deserialize bytes _ := Some bytes;
     serialize bytes := bytes |}.

(** [serializers[ "text/plain" ]] *)
Definition text_plain : Serializer (list Z) (list Z) :=
  {| deserialize bytes encoding := Some (toString bytes (default utf8 encoding));
     serialize string := utf8_write string |}.

(** A bound on the depth [parse_value] needs for the text of [v]. *)
Fixpoint json_size (v : json) : nat :=
  match v with
  | JArray items => S (list_sum (map (λ x, S (json_size x)) items))
  | JObject members => S (list_sum (map (λ m, S (json_size (snd m))) members))
  | _ => 1
  end.

(** What can follow a value inside a text: nothing, or one of [,], []] and
    [}]. *)
Definition delimited (rest : list Z) : bool :=
  match rest with
  | [] => true
  | c :: _ => (c =? chr ",") || (c =? chr "]") || (c =? chr "}")
  end.

(** The first code unit of the text of a value: a quote, a bracket, a
    brace, the first letter of a literal, a minus sign or a digit. *)
Definition opens_value (c : Z) : Prop :=
  c = 34 ∨ c = 91 ∨ c = 123 ∨ c = 116 ∨ c = 102 ∨ c = 110 ∨ c = 45 ∨ 48 ≤ c ≤ 57.


(** ** Invariants

    Predicates on states that the properties below are stated with. *)

(** [m] keeps the invariant [I]: it holds in the state left by [m],
    whether [m] returns or throws. *)
Definition preserves {A} (I : World → Prop) (m : M A) : Prop :=
  ∀ w, I w → I (exec m w).

(** Every topology is registered under its own name, which is not empty. *)
Definition registry_named (w : World) : Prop :=
  ∀ key t, connections (broker w) !! key = Some t →
           topo_name t = key ∧ key ≠ "".

(** The keys of the registry are kept in the order they were created: they
    are the registered names, each once. *)
Definition registry_ordered (w : World) : Prop :=
  NoDup (connections_keys (broker w)) ∧
  (list_to_set (connections_keys (broker w)) : gset string)
    = dom (connections (broker w)).

(** Once [hasHandles] is set, it stays set and no warning is logged. *)
Definition handled (L : list string) (w : World) : Prop :=
  hasHandles (broker w) = true ∧ warnings (log w) = L.

(** What a call that only reads the broker and logs effects leaves alone. *)
Definition framed (S : list Subscription) (P : gmap nat PromiseCell) (N : nat)
    (L : list Effect) (w : World) : Prop :=
  subscriptions w = S ∧ promises w = P ∧ next_id w = N ∧ ∃ l, log w = L ++ l.

(** Every state reached from the initial one is tidy: the identifiers of
    its subscriptions are below the counter, and none of them listens on
    the topic of a request identifier not yet handed out. *)
Definition tidy (w : World) : Prop :=
  Forall (λ s, (sub_id s < next_id w)%nat ∧
               ∀ n, (next_id w ≤ n)%nat → listens s ("uuid-" +:+ pretty n) = false)
    (subscriptions w).

(** What [publish] does from line 248 on, once the options and the name of
    the connection are settled. *)
Definition published (exchangeName : string) (o : PublishOptions) (name : string)
    (w : World) : Res Promise * World :=
  match connections (broker w) !! name with
  | None => (Throw (TypeError "this.connections[connectionName] is undefined"), w)
  | Some t =>
      match channels t !! ("exchange:" +:+ exchangeName) with
      | None => (Throw (TypeError "getExchange(...) is undefined"), w)
      | Some x =>
          let o' := if truthy_number (opt_publishTimeout (topo_options t))
                    then set_publishTimeout (opt_publishTimeout (topo_options t)) o
                    else o in
          (Ok (P_publishing x o'), with_log (λ l, l ++ [E_exchangePublish x o']) w)
      end
  end.

(** Every running interval timer is the one the broker has recorded. *)
Definition timer_recorded (w : World) : Prop :=
  ∀ id ms, timers w !! id = Some ms → ackIntervalId (broker w) = Some id.

(** What identifies a subscription and fixes how it is served: everything
    but whether it is still active. *)
Definition sub_signature (s : Subscription)
  : nat * PostalChannel * string * Callback * bool :=
  (sub_id s, sub_channel s, sub_topic s, sub_callback s, sub_catch s).

(** [s'] is [s] as found later: the same subscription, not re-activated. *)
Definition same_subscription (s s' : Subscription) : Prop :=
  sub_signature s' = sub_signature s ∧ (sub_active s' = true → sub_active s = true).

(** The subscriptions [old] are all still in the table, in their places. *)
Definition kept (old : list Subscription) (w : World) : Prop :=
  ∃ now added, subscriptions w = now ++ added ∧ Forall2 same_subscription old now.

(** The topology [t] is still registered under [name], with its name, its
    connection and its options; its channels may have changed. *)
Definition registration (name : string) (t : Topology) (w : World) : Prop :=
  ∃ t', connections (broker w) !! name = Some t' ∧
        topo_name t' = topo_name t ∧
        topo_connection t' = topo_connection t ∧
        topo_options t' = topo_options t.

(** The state the policy setters write: the registry of serializers, the
    strategy for unhandled messages with the remembered custom handler, and
    [autoNack]. *)
Definition policies (R : gmap string nat) (U : UnhandledStrategy)
    (C : option nat) (A : bool) (w : World) : Prop :=
  serializers w = R ∧ unhandled_onUnhandled w = U ∧ unhandled_custom w = C ∧
  autoNack (broker w) = A.

(** [m] throws a TypeError, having done nothing but log warnings. *)
Definition throws_untouched {A} (m : M A) (w : World) : Prop :=
  ∃ text ws, m w = (Throw (TypeError text), with_log (λ l, l ++ (E_warn <$> ws)) w).

(** The events emitted in a log, with their arguments. *)
Definition emitted (l : list Effect) : list (string * EmitArg) :=
  omap (λ e, match e with E_emit event arg => Some (event, arg) | _ => None end) l.

(** The four listeners [addConnection] registers on a new connection. *)
Definition listeners_of (name : string) (c : Connection)
  : list (Connection * ConnEvent * Listener) :=
  [(c, Connected, OnConnected c); (c, Closed, OnClosed c);
   (c, Failed, OnFailed name c); (c, Unreachable, OnUnreachable name c)].

(** Every listener is on a connection made before now, and the listeners on
    the connection of a registered topology are the four registered with
    it, once. *)
Definition listeners_once (w : World) : Prop :=
  Forall (λ l, (conn_id l.1.1 < next_id w)%nat) (listeners w) ∧
  ∀ name t c,
    connections (broker w) !! name = Some t → topo_connection t = Some c →
    ∃ before after,
      listeners w = before ++ listeners_of name c ++ after ∧
      Forall (λ l, conn_id l.1.1 ≠ conn_id c) (before ++ after).

(** In every reachable state the subscriptions of the dispatch channel are
    those of [handle]: their callbacks are handlers of the caller. *)
Definition dispatch_handlers (w : World) : Prop :=
  Forall (λ s, sub_channel s = Dispatch →
               ∃ handler context, sub_callback s = UserHandler handler context)
    (subscriptions w).

(** The subscriptions a message published under [topic] on the dispatch
    channel is handed to, and the calls of their handlers. *)
Definition heard (w : World) (topic : string) : list Subscription :=
  List.filter (λ s, hears s topic && is_active w (sub_id s)) (subscriptions w).

Definition calls (message : Message) (subs : list Subscription) : list Effect :=
  omap (λ s, match sub_callback s with
             | UserHandler handler context => Some (E_invoke handler context message)
             | ReplyCallback _ _ => None
             end) subs.

(** * Properties *)

(** ** Reasoning about the monad *)

Lemma bind_Ok {A B} (m : M A) (k : A → M B) w a w' :
  m w = (Ok a, w') → bind m k w = k a w'.
Proof. unfold bind. by intros ->. Qed.

Ltac unfold_prims :=
  unfold discard, emit, set_promises, set_unhandled in *;
  unfold effect, update, modify, fresh, this, get, throw, ret in *.

Ltac run := unfold bind; unfold_prims; cbn [fst snd].

(** ** Registration of connections *)

Lemma or_string_nonempty x d : d ≠ "" → or_string x d ≠ "".
Proof.
  intros Hd. unfold or_string. destruct x as [s|]; [|done].
  destruct (String.eqb_spec s ""); done.
Qed.

Lemma connection_name_nonempty options : connection_name options ≠ "".
Proof. destruct options; cbn; [by apply or_string_nonempty|done]. Qed.

Lemma addConnection_new options w :
  connections (broker w) !! connection_name options = None →
  inherited (connection_name options) = false →
  let name := connection_name options in
  let o := connection_options options in
  let c := mkConnection (next_id w) name in
  let t := mkTopology name (Some c) o ∅ in
  addConnection options w =
    (Ok t,
     mkWorld (register name t (broker w)) (serializers w)
       (unhandled_onUnhandled w) (unhandled_custom w)
       (listeners w ++ [(c, Connected, OnConnected c)] ++ [(c, Closed, OnClosed c)]
          ++ [(c, Failed, OnFailed name c)]
          ++ [(c, Unreachable, OnUnreachable name c)])
       (subscriptions w) (promises w) (timers w) (S (next_id w))
       (log w ++ [E_connectionFn c o] ++ [E_topologyFn c o] ++ [E_on c Connected]
          ++ [E_on c Closed] ++ [E_on c Failed] ++ [E_on c Unreachable])).
Proof.
  intros Hnew Hown. unfold addConnection, connectionFn, topologyFn, connection_on.
  run. rewrite Hnew, Hown. cbn. unfold with_log, with_broker; cbn.
  by rewrite <- !(assoc_L (++)).
Qed.

Lemma addConnection_inherited options w :
  connections (broker w) !! connection_name options = None →
  inherited (connection_name options) = true →
  addConnection options w =
    (Throw (TypeError "connection.connection is undefined"), w).
Proof.
  intros Hnew Hinherited. unfold addConnection. run. by rewrite Hnew, Hinherited.
Qed.

Lemma addConnection_existing options w t c :
  connections (broker w) !! connection_name options = Some t →
  topo_connection t = Some c →
  addConnection options w = (Ok t, with_log (λ l, l ++ [E_connect c]) w).
Proof.
  intros Hreg Hc. unfold addConnection. run. rewrite Hreg, Hc. done.
Qed.

Lemma addConnection_registers options w t w1 :
  addConnection options w = (Ok t, w1) →
  connections (broker w1) !! connection_name options = Some t
  ∧ is_Some (topo_connection t).
Proof.
  destruct (connections (broker w) !! connection_name options) as [t0|] eqn:Hreg.
  - unfold addConnection. run. rewrite Hreg.
    destruct (topo_connection t0) as [c|] eqn:Hc; [|done].
    intros [= <- <-]. cbn. by rewrite Hreg, Hc.
  - destruct (inherited (connection_name options)) eqn:Hown.
    + by rewrite addConnection_inherited.
    + rewrite addConnection_new by done. intros [= <- <-]. cbn.
      by rewrite lookup_insert_eq.
Qed.

(** C1: [addConnection] defaults the name to "default", retryLimit to 3
    and failAfter to 60.  For a name that no object inherits, a first
    registration constructs one (Connection, Topology) pair from those
    options and registers it; and whenever a call has returned, a later call
    that resolves to the same name constructs nothing: it calls [connect] on
    the existing Connection, returns the existing Topology and leaves the
    registry and every other part of the state as they were.  For a name
    inherited from [Object.prototype] (such as "constructor") the test of
    line 66 finds the inherited member: the call throws a TypeError, changes
    nothing, and so does every later call, on a new broker as in any state
    where the name is not registered.  The claim holds for every name but
    these. *)
Theorem addConnection_defaults_idempotent
    (options options' : option ConnOptions) (w : World) :
  connection_name options' = connection_name options →
  (options ≫= opt_name = None → connection_name options = "default") ∧
  (options ≫= opt_retryLimit = None →
     opt_retryLimit (connection_options options) = Some 3) ∧
  (options ≫= opt_failAfter = None →
     opt_failAfter (connection_options options) = Some 60) ∧
  (connections (broker w) !! connection_name options = None →
   inherited (connection_name options) = false →
     ∃ c topology w1,
       addConnection options w = (Ok topology, w1) ∧
       topology = mkTopology (connection_name options) (Some c)
                    (connection_options options) ∅ ∧
       logged (addConnection options) w =
         [E_connectionFn c (connection_options options);
          E_topologyFn c (connection_options options);
          E_on c Connected; E_on c Closed; E_on c Failed; E_on c Unreachable] ∧
       connections (broker w1) =
         <[connection_name options := topology]> (connections (broker w))) ∧
  (∀ topology w1,
     addConnection options w = (Ok topology, w1) →
     ∃ c, topo_connection topology = Some c ∧
          connections (broker w1) !! connection_name options = Some topology ∧
          addConnection options' w1 =
            (Ok topology, with_log (λ l, l ++ [E_connect c]) w1)) ∧
  (connections (broker w) !! connection_name options = None →
   inherited (connection_name options) = true →
     addConnection options w =
       (Throw (TypeError "connection.connection is undefined"), w) ∧
     addConnection options' w =
       (Throw (TypeError "connection.connection is undefined"), w)) ∧
  addConnection (Some (mkConnOptions (Some "constructor") None None None))
    initial_world =
    (Throw (TypeError "connection.connection is undefined"), initial_world).
Proof.
  intros Hname. repeat split.
  - destruct options as [o|]; cbn; [|done]. by intros ->.
  - destruct options as [o|]; cbn; [|done]. by intros ->.
  - destruct options as [o|]; cbn; [|done]. by intros ->.
  - intros Hnew Hown. eexists _, _, _. split; [by apply addConnection_new|].
    split; [done|]. split; [|done].
    unfold logged, exec. rewrite addConnection_new by done. cbn.
    by rewrite drop_app_length.
  - intros topology w1 Hfirst.
    destruct (addConnection_registers _ _ _ _ Hfirst) as [Hreg [c Hc]].
    exists c. split; [done|]. split; [done|].
    apply addConnection_existing; [|done]. by rewrite Hname.
  - by apply addConnection_inherited.
  - apply addConnection_inherited; by rewrite Hname.
Qed.

Lemma addConnection_defaults_idempotent_witness :
  let w1 := exec (addConnection None) initial_world in
  let c := mkConnection 3 "default" in
  let t := mkTopology "default" (Some c)
             (mkConnOptions (Some "default") (Some 3) (Some 60) None) ∅ in
  addConnection None initial_world = (Ok t, w1) ∧
  addConnection (Some (mkConnOptions None (Some 5) None None)) w1
    = (Ok t, with_log (λ l, l ++ [E_connect c]) w1).
Proof.
  intros w1 c t.
  destruct (addConnection_defaults_idempotent None
              (Some (mkConnOptions None (Some 5) None None)) initial_world
              eq_refl) as (_ & _ & _ & _ & Hagain & _).
  destruct (Hagain t w1 eq_refl) as (c' & Hc & _ & Hcall).
  injection Hc as <-. split; [reflexivity|exact Hcall].
Defined.

(** ** Lifecycle events *)

Lemma run_listener_unreachable name c err w :
  logged (run_listener (OnUnreachable name c) err) w =
    [E_emit "unreachable" (ArgConnection c);
     E_emit name (ArgString ".connection.unreachable");
     E_clearInterval (ackIntervalId (broker w))].
Proof.
  unfold logged, exec, run_listener, clearAckInterval. run.
  unfold with_log; cbn.
  destruct (ackIntervalId (broker w)); cbn;
    rewrite <- !(assoc_L (++)); by rewrite drop_app_length.
Qed.

(** C6: when the connection registered as "default" signals unreachable,
    the broker emits the generic "unreachable" event and stops the ack
    timer, but its second event is named "default" and carries the string
    ".connection.unreachable" as its argument: no event named
    "default.connection.unreachable" is emitted, in any state and for any
    connection name. *)
Theorem unreachable_emits_bare_name :
  (let w := exec (addConnection (Some (mkConnOptions (Some "default") None None None)))
              initial_world in
   let c := mkConnection 3 "default" in
   logged (signal c Unreachable "") w =
     [E_emit "unreachable" (ArgConnection c);
      E_emit "default" (ArgString ".connection.unreachable");
      E_clearInterval None]) ∧
  (∀ name c err w,
     logged (run_listener (OnUnreachable name c) err) w =
       [E_emit "unreachable" (ArgConnection c);
        E_emit name (ArgString ".connection.unreachable");
        E_clearInterval (ackIntervalId (broker w))]).
Proof. split; [reflexivity | apply run_listener_unreachable]. Qed.

(** ** Closing connections *)

Lemma close_unknown connectionName reset w :
  connections (broker w) !! or_string connectionName "default" = None →
  close connectionName reset w =
    if inherited (or_string connectionName "default")
    then (Ok (P_value (V_bool true)), w)
    else (Throw (TypeError "this.connections[connectionName] is undefined"), w).
Proof.
  intros H. unfold close. run. rewrite H.
  by destruct (inherited (or_string connectionName "default")).
Qed.

Lemma close_without_connection connectionName reset w t :
  connections (broker w) !! or_string connectionName "default" = Some t →
  topo_connection t = None →
  close connectionName reset w = (Ok (P_value (V_bool true)), w).
Proof. intros H Hc. unfold close. run. by rewrite H, Hc. Qed.

Lemma close_registered connectionName reset w t c :
  connections (broker w) !! or_string connectionName "default" = Some t →
  topo_connection t = Some c →
  result (close connectionName reset) w = Ok (P_closing c reset) ∧
  logged (close connectionName reset) w =
    (if reset then [E_topology (or_string connectionName "default") topologyReset]
     else []) ++ [E_close c reset] ∧
  connections (broker (exec (close connectionName reset) w)) =
    (if reset
     then <[or_string connectionName "default" := apply_call topologyReset t]>
            (connections (broker w))
     else connections (broker w)).
Proof.
  intros H Hc. unfold result, logged, exec, close, connection_close, on_topology.
  run. rewrite H, Hc. destruct reset; cbn.
  - rewrite H. cbn. rewrite <- !(assoc_L (++)). by rewrite drop_app_length.
  - by rewrite drop_app_length.
Qed.

(** C4: on a broker with no connection registered, [close( "orders" )]
    does not return a resolved promise: reading [.connection] of the
    missing registry entry raises a TypeError before the guard that
    returns [when( true )] is reached; the same happens, in every state,
    for every name that is not registered and that no object inherits.
    (For a name inherited from [Object.prototype] the read finds the
    inherited member, which has no [connection], and the call returns
    [when( true )].) *)
Theorem close_unknown_connection_throws :
  close (Some "orders") false initial_world =
    (Throw (TypeError "this.connections[connectionName] is undefined"),
     initial_world) ∧
  (∀ reset w connectionName,
     connections (broker w) !! or_string connectionName "default" = None →
     close connectionName reset w =
       if inherited (or_string connectionName "default")
       then (Ok (P_value (V_bool true)), w)
       else (Throw (TypeError "this.connections[connectionName] is undefined"), w)) ∧
  (∀ reset w, connections (broker w) = ∅ →
     ∀ connectionName, inherited (or_string connectionName "default") = false →
       ∃ e, result (close connectionName reset) w = Throw e).
Proof.
  split; [reflexivity|]. split.
  - intros reset w connectionName. apply close_unknown.
  - intros reset w Hempty connectionName Hown.
    eexists. unfold result. rewrite close_unknown, Hown; [done|].
    by rewrite Hempty, lookup_empty.
Qed.

(** ** Starting a subscription *)

Local Arguments or_string : simpl never.

(** C8: [startSubscription] on a queue that is not in the registry of the
    resolved connection (the connection is unknown, or it has no channel
    "queue:<name>") ends in a thrown exception, and apart from the
    missing-handlers warning it calls nothing: no subscription is made.
    When the queue is registered, it subscribes that queue with the
    exclusive flag and returns it. *)
Theorem startSubscription_requires_declared_queue
    (queueName : string) (exclusive : ExclusiveArg)
    (connectionName : option string) (w : World) :
  let cn := or_string match exclusive with
                      | ExclusiveString s => Some s
                      | _ => connectionName
                      end "default" in
  let flag := match exclusive with ExclusiveFlag e => e | _ => false end in
  let warned := if hasHandles (broker w) then []
                else [E_warn (handlers_warning queueName)] in
  let start := startSubscription queueName exclusive connectionName in
  match connections (broker w) !! cn ≫= λ t, channels t !! ("queue:" +:+ queueName) with
  | None =>
      (∃ e, result start w = Throw e) ∧
      logged start w = warned ∧
      exec start w = with_log (λ l, l ++ warned) w
  | Some queue =>
      result start w = Ok queue ∧
      logged start w = warned ++ [E_queueSubscribe queue flag]
  end.
Proof.
  cbn zeta. unfold result, logged, exec, startSubscription, getQueue. run.
  assert (Hor : ∀ s, or_string (Some (or_string s "default")) "default"
                     = or_string s "default").
  { intros s. unfold or_string at 1.
    destruct (String.eqb_spec (or_string s "default") ""); [|done].
    by destruct (or_string_nonempty s "default"). }
  assert (Hw : ∀ w0 : World, w0 = with_log (λ l, l ++ []) w0).
  { intros [b ? ? ? ? ? ? ? ? l]. unfold with_log; cbn. by rewrite app_nil_r. }
  destruct exclusive as [|e|s]; cbn; rewrite Hor;
    destruct (hasHandles (broker w)); cbn;
    (destruct (connections (broker w) !! _) as [t|]; cbn;
     [destruct (channels t !! _) as [q|]; cbn|]);
    rewrite ?app_nil_r, ?drop_app_length, ?drop_all, <- ?(assoc_L (++)),
      ?drop_app_length;
    repeat split; eauto.
Qed.

(** ** Global reset *)

(** C9, as the code has it: [reset] empties the connection registry and the
    stored configurations and touches nothing else; [hasHandles],
    [autoNack], the ack timer and all module-level state keep their
    values. *)
Theorem reset_clears_registries_only (w : World) :
  let w' := exec reset w in
  connections (broker w') = ∅ ∧
  configurations (broker w') = ∅ ∧
  hasHandles (broker w') = hasHandles (broker w) ∧
  autoNack (broker w') = autoNack (broker w) ∧
  ackIntervalId (broker w') = ackIntervalId (broker w) ∧
  serializers w' = serializers w ∧
  unhandled_onUnhandled w' = unhandled_onUnhandled w ∧
  unhandled_custom w' = unhandled_custom w ∧
  listeners w' = listeners w ∧
  subscriptions w' = subscriptions w ∧
  promises w' = promises w ∧
  timers w' = timers w ∧
  log w' = log w.
Proof. by repeat split. Qed.

(** C9, as the claim states it, fails: a broker on which [handle] and
    [nackOnError] were called and a connection came up differs after
    [reset] from a newly constructed one in [hasHandles], [autoNack] and
    [ackIntervalId]. *)
Lemma reset_is_not_cold_start :
  let w := run_ops [Op_addConnection None;
                    Ev_signal (mkConnection 3 "default") Connected "";
                    Op_nackOnError;
                    Op_handle (Some "created") 0%nat NoQueue None;
                    Op_reset] initial_world in
  broker w = mkBroker ∅ [] true true ∅ (Some 4%nat) ∧ broker w ≠ new_Broker.
Proof. split; [reflexivity | discriminate]. Qed.

(** ** Topics of handlers *)

Lemma append_nil_l s : "" +:+ s = s.
Proof. reflexivity. Qed.

Lemma append_cons c s t : String c s +:+ t = String c (s +:+ t).
Proof. reflexivity. Qed.

Lemma append_empty_r s : s +:+ "" = s.
Proof. induction s as [|c s IH]; [done|]. by rewrite append_cons, IH. Qed.

Lemma replace_dots_orders q : replace_dots q = "orders" ↔ q = "orders".
Proof.
  split; [|by intros ->].
  destruct q as [|c1 [|c2 [|c3 [|c4 [|c5 [|c6 [|c7 q]]]]]]]; try discriminate.
  cbn. intros [= H1 H2 H3 H4 H5 H6].
  repeat match goal with
         | H : (if Ascii.eqb ?c "." then _ else _) = _ |- _ =>
             destruct (Ascii.eqb c "."); [discriminate H|subst c]
         end.
  done.
Qed.

(** ** Closing every connection *)

(** The enumeration of the own keys is a rearrangement of the keys. *)
Lemma insert_index_Permutation key sorted :
  insert_index key sorted ≡ₚ key :: sorted.
Proof.
  induction sorted as [|key' rest IH]; cbn; [done|].
  destruct (_ <=? _)%N; [done|]. rewrite IH. apply perm_swap.
Qed.

Lemma own_keys_Permutation keys : own_keys keys ≡ₚ keys.
Proof.
  unfold own_keys.
  etrans; [|apply (filter_app_complement (λ key, is_Some (array_index key)))].
  apply Permutation_app; [|done].
  induction (filter _ keys) as [|key rest IH]; cbn; [done|].
  by rewrite insert_index_Permutation, IH.
Qed.

Lemma omap_lookup_fst {A} (m : gmap string A) (l : list (string * A)) :
  (∀ key x, (key, x) ∈ l → m !! key = Some x) →
  omap (λ key, m !! key) l.*1 = l.*2.
Proof.
  induction l as [|[key x] l IH]; intros Hl; cbn; [done|].
  rewrite (Hl key x) by left. rewrite IH; [done|].
  intros key' x' Hin. apply Hl. by right.
Qed.

Lemma ordered_keys w key :
  registry_ordered w →
  key ∈ connections_keys (broker w) ↔ is_Some (connections (broker w) !! key).
Proof.
  intros [_ Hdom]. rewrite <- elem_of_dom, <- Hdom. by rewrite elem_of_list_to_set.
Qed.

(** What [_.map] visits is the registry, each topology once. *)
Lemma registered_Permutation w :
  registry_ordered w →
  registered (broker w) ≡ₚ (map_to_list (connections (broker w))).*2.
Proof.
  intros Hord. unfold registered. rewrite own_keys_Permutation.
  rewrite <- (omap_lookup_fst (connections (broker w))
               (map_to_list (connections (broker w))))
    by (intros key x; apply elem_of_map_to_list).
  apply omap_Permutation. apply NoDup_Permutation.
  - by destruct Hord.
  - apply NoDup_fst_map_to_list.
  - intros key. rewrite (ordered_keys w key Hord), list_elem_of_fmap. split.
    + intros [x Hx]. exists (key, x). split; [done|].
      by apply elem_of_map_to_list.
    + intros [[key' x] [-> Hx]]. exists x. by apply elem_of_map_to_list.
Qed.

Lemma registered_elem w t :
  registry_ordered w →
  t ∈ registered (broker w) ↔ ∃ key, connections (broker w) !! key = Some t.
Proof.
  intros Hord. rewrite (registered_Permutation w Hord), list_elem_of_fmap. split.
  - intros [[key x] [-> Hx]]. exists key. by apply elem_of_map_to_list.
  - intros [key Hx]. exists (key, t). split; [done|].
    by apply elem_of_map_to_list.
Qed.

Section closeAll.
Variable reset : bool.

(** What [close] returns for a registered topology. *)
Let closer (t : Topology) : Promise :=
  match topo_connection t with
  | Some c => P_closing c reset
  | None => P_value (V_bool true)
  end.

(** Two states whose registries hold the same names and connections. *)
Let same_registry (w w' : World) : Prop :=
  ∀ k, (λ t, (topo_name t, topo_connection t)) <$> connections (broker w') !! k
       = (λ t, (topo_name t, topo_connection t)) <$> connections (broker w) !! k.

Lemma close_step w0 w t :
  same_registry w0 w →
  connections (broker w0) !! topo_name t = Some t →
  topo_name t ≠ "" →
  ∃ w', close (Some (topo_name t)) reset w = (Ok (closer t), w') ∧
        same_registry w0 w' ∧
        ∃ l, log w' = log w ++ l ∧
             ∀ c, topo_connection t = Some c → E_close c reset ∈ l.
Proof.
  intros Hsame Ht Hne.
  assert (Hor : or_string (Some (topo_name t)) "default" = topo_name t).
  { unfold or_string. by destruct (String.eqb_spec (topo_name t) ""). }
  pose proof (Hsame (topo_name t)) as Hk. rewrite Ht in Hk. cbn in Hk.
  destruct (connections (broker w) !! topo_name t) as [t'|] eqn:Ht';
    [|done].
  injection Hk as Hn Hc.
  unfold close, connection_close, on_topology. run. rewrite Hor, Ht'.
  unfold closer. rewrite Hc. destruct (topo_connection t) as [c|] eqn:Hconn.
  - destruct reset; cbn.
    + rewrite Ht'. cbn. eexists. split; [done|]. split.
      * intros k. cbn. destruct (decide (k = topo_name t)) as [->|Hk].
        -- rewrite lookup_insert_eq, Ht. cbn. by rewrite Hn, Hc, Hconn.
        -- by rewrite lookup_insert_ne.
      * cbn. rewrite <- (assoc_L (++)). eexists. split; [done|].
        intros c' [= <-]. set_solver.
    + eexists. split; [done|]. split; [done|]. cbn.
      eexists. split; [done|]. intros c' [= <-]. set_solver.
  - eexists. split; [done|]. split; [done|]. exists []. split; [|done].
    by rewrite app_nil_r.
Qed.

Lemma close_loop w0 ts : ∀ w,
  same_registry w0 w →
  Forall (λ t, connections (broker w0) !! topo_name t = Some t
               ∧ topo_name t ≠ "") ts →
  ∃ w', mapM (λ t, close (Some (topo_name t)) reset) ts w
          = (Ok (closer <$> ts), w') ∧
        same_registry w0 w' ∧
        ∃ l, log w' = log w ++ l ∧
             ∀ t c, t ∈ ts → topo_connection t = Some c → E_close c reset ∈ l.
Proof.
  induction ts as [|t ts IH]; intros w Hsame Hts.
  - exists w. split; [done|]. split; [done|]. exists []. split.
    + by rewrite app_nil_r.
    + intros t c Ht. by apply elem_of_nil in Ht.
  - apply Forall_cons in Hts as [[Ht Hne] Hts].
    destruct (close_step w0 w t Hsame Ht Hne)
      as (w1 & Hclose & Hsame1 & l1 & Hl1 & Hin1).
    destruct (IH w1 Hsame1 Hts) as (w2 & Hloop & Hsame2 & l2 & Hl2 & Hin2).
    exists w2. split.
    { cbn [mapM]. erewrite bind_Ok by exact Hclose.
      erewrite bind_Ok by exact Hloop. done. }
    split; [done|]. exists (l1 ++ l2). split.
    { by rewrite Hl2, Hl1, (assoc_L (++)). }
    intros t' c Hin Hc. apply elem_of_cons in Hin as [->|Hin].
    + apply elem_of_app. left. by apply Hin1.
    + apply elem_of_app. right. by eapply Hin2.
Qed.

Lemma closeAll_registered w :
  registry_named w →
  registry_ordered w →
  ∃ w', closeAll reset w
          = (Ok (P_all (closer <$> registered (broker w))), w') ∧
        ∃ l, log w' = log w ++ l ∧
             ∀ key t c, connections (broker w) !! key = Some t →
                        topo_connection t = Some c → E_close c reset ∈ l.
Proof.
  intros Hwf Hord.
  destruct (close_loop w (registered (broker w)) w)
    as (w' & Hloop & _ & l & Hl & Hin).
  { done. }
  { apply Forall_forall. intros t Ht.
    apply registered_elem in Ht as [key Hkt]; [|done].
    destruct (Hwf key t Hkt) as [-> Hne]. done. }
  exists w'. split.
  { unfold closeAll. run. rewrite Hloop. done. }
  exists l. split; [done|]. intros key t c Hkt Hc.
  apply (Hin t c); [|done].
  apply registered_elem; [done|]. by exists key.
Qed.
End closeAll.

Lemma first_rejection_None ss :
  first_rejection ss = None ↔ ∀ t e, Rejected t e ∉ ss.
Proof.
  induction ss as [|s ss IH]; cbn.
  - split; [|done]. intros _ t e H. by apply elem_of_nil in H.
  - destruct s as [|t v|t e]; cbn.
    + rewrite IH. split; intros H t e.
      * rewrite elem_of_cons. intros [?|?]; [done|]. by eapply H.
      * intros Hin. eapply H. by right.
    + rewrite IH. split; intros H t' e'.
      * rewrite elem_of_cons. intros [?|?]; [done|]. by eapply H.
      * intros Hin. eapply H. by right.
    + split.
      * destruct (first_rejection ss) as [[t' e']|]; [|done].
        by destruct (t <=? t')%nat.
      * intros H. destruct (H t e). by left.
Qed.

Lemma first_rejection_Some ss t e :
  first_rejection ss = Some (t, e) →
  Rejected t e ∈ ss ∧ ∀ t' e', Rejected t' e' ∈ ss → (t ≤ t')%nat.
Proof.
  revert t e. induction ss as [|s ss IH]; intros t e; cbn; [done|].
  assert (Hskip : (∀ t0 e0, s ≠ Rejected t0 e0) →
            first_rejection ss = Some (t, e) →
            Rejected t e ∈ s :: ss
            ∧ ∀ t' e', Rejected t' e' ∈ s :: ss → (t ≤ t')%nat).
  { intros Hs H. destruct (IH _ _ H) as [Hin Hmin]. split; [by right|].
    intros t' e'. rewrite elem_of_cons. intros [Heq|Hin'].
    - by destruct (Hs t' e').
    - by eapply Hmin. }
  destruct s as [|t0 v|t0 e0]; [by apply Hskip..|].
  destruct (first_rejection ss) as [[t1 e1]|] eqn:Hss.
  - destruct (IH _ _ eq_refl) as [Hin Hmin].
    destruct (Nat.leb_spec t0 t1); intros [= <- <-].
    + split; [by left|]. intros t' e'. rewrite elem_of_cons.
      intros [[= <- <-]|Hin']; [done|]. specialize (Hmin _ _ Hin'). lia.
    + split; [by right|]. intros t' e'. rewrite elem_of_cons.
      intros [[= <- <-]|Hin']; [lia|]. by eapply Hmin.
  - intros [= <- <-]. split; [by left|]. intros t' e'. rewrite elem_of_cons.
    intros [[= <- <-]|Hin']; [done|].
    by destruct (proj1 (first_rejection_None ss) Hss t' e').
Qed.

Lemma all_fulfilled_values ss :
  Forall (λ s, ∃ t v, s = Fulfilled t v) ss →
  ∃ t, all_fulfilled ss =
         Some (t, (λ s, match s with Fulfilled _ v => v | _ => V_undefined end) <$> ss).
Proof.
  induction 1 as [|s ss (t & v & ->) _ [t' IH]]; cbn; [by eexists|].
  rewrite IH. by eexists.
Qed.

Lemma when_all_fulfilled ss :
  Forall (λ s, ∃ t v, s = Fulfilled t v) ss →
  ∃ t, when_all ss =
         Fulfilled t (V_array ((λ s, match s with Fulfilled _ v => v
                                     | _ => V_undefined end) <$> ss)).
Proof.
  intros Hall. unfold when_all.
  assert (first_rejection ss = None) as ->.
  { apply first_rejection_None. intros t e Hin.
    eapply Forall_forall in Hall as (? & ? & ?); [|done]. done. }
  destruct (all_fulfilled_values ss Hall) as [t ->]. by eexists.
Qed.

Lemma when_all_rejected ss t e :
  Rejected t e ∈ ss →
  ∃ t' e', when_all ss = Rejected t' e' ∧ (t' ≤ t)%nat ∧ Rejected t' e' ∈ ss.
Proof.
  intros Hin. unfold when_all.
  destruct (first_rejection ss) as [[t' e']|] eqn:Hfirst.
  - destruct (first_rejection_Some _ _ _ Hfirst) as [Hin' Hmin].
    exists t', e'. split; [done|]. split; [by eapply Hmin|done].
  - by destruct (proj1 (first_rejection_None ss) Hfirst t e).
Qed.

(** ** Invariants of histories *)

Section preserves.
Context (I : World → Prop).

Lemma preserves_ret {A} (a : A) : preserves I (ret a).
Proof. by intros w. Qed.

Lemma preserves_throw {A} e : preserves I (@throw A e).
Proof. by intros w. Qed.

Lemma preserves_bind {A B} (m : M A) (k : A → M B) :
  preserves I m → (∀ a, preserves I (k a)) → preserves I (bind m k).
Proof.
  intros Hm Hk w Hw. specialize (Hm w Hw). unfold exec, bind in *.
  destruct (m w) as [[a|e] w']; cbn in *; [by apply Hk|done].
Qed.

Lemma preserves_try_catch {A} (m : M A) (h : JsError → M A) :
  preserves I m → (∀ e, preserves I (h e)) → preserves I (try_catch m h).
Proof.
  intros Hm Hh w Hw. specialize (Hm w Hw). unfold exec, try_catch in *.
  destruct (m w) as [[a|e] w']; cbn in *; [done|by apply Hh].
Qed.

Lemma preserves_discard {A} (m : M A) : preserves I m → preserves I (discard m).
Proof. intros Hm. apply preserves_bind; [done|]. intros _. apply preserves_ret. Qed.

Lemma preserves_mapM {A B} (f : A → M B) l :
  (∀ x, preserves I (f x)) → preserves I (mapM f l).
Proof.
  intros Hf. induction l as [|x l IH]; cbn [mapM]; [apply preserves_ret|].
  apply preserves_bind; [done|]. intros y.
  apply preserves_bind; [done|]. intros ys. apply preserves_ret.
Qed.

Lemma preserves_get : preserves I get.
Proof. by intros w. Qed.

Lemma preserves_this : preserves I this.
Proof. by intros w. Qed.
End preserves.

Section handled.
Context (L : list string).

Lemma handled_this {B} (k : Broker → M B) :
  (∀ b, hasHandles b = true → preserves (handled L) (k b)) →
  preserves (handled L) (bind this k).
Proof. intros Hk w Hw. apply (Hk (broker w)); [by destruct Hw|done]. Qed.

Lemma handled_modify f :
  (∀ w, hasHandles (broker (f w)) = hasHandles (broker w)) →
  (∀ w, log (f w) = log w) →
  preserves (handled L) (modify f).
Proof.
  intros Hb Hl w [Hh Hw]. unfold exec, modify, handled. cbn.
  by rewrite Hb, Hl.
Qed.

Lemma handled_update f :
  (∀ b, hasHandles b = true → hasHandles (f b) = true) →
  preserves (handled L) (update f).
Proof. intros Hf w [Hh Hw]. split; [by apply Hf|done]. Qed.

Lemma handled_effect e :
  (∀ text, e ≠ E_warn text) → preserves (handled L) (effect e).
Proof.
  intros He w [Hh Hw]. split; [done|]. cbn. unfold warnings in *.
  rewrite omap_app, Hw. cbn. destruct e; try by rewrite app_nil_r.
  by destruct (He text).
Qed.

Lemma handled_fresh : preserves (handled L) fresh.
Proof. by intros w. Qed.
End handled.

Ltac unfold_facade :=
  unfold addConnection, connectionFn, topologyFn, connection_on, emit,
    clearAckInterval, setAckInterval, batchAck, on_topology, addExchange,
    addQueue, addSerializer, bindExchange, bindQueue, close, connection_close,
    closeAll, deleteExchange, deleteQueue, getExchange, getQueue, handle,
    postal_subscribe, unsubscribe, ignoreHandlerErrors, nackOnError,
    nackUnhandled, onUnhandled, rejectUnhandled, set_unhandled, publish,
    set_promises, resolve, reject, notify, uuid_v1, request, reset,
    shutdown, startSubscription.

Ltac handled_step :=
  lazymatch goal with
  | |- preserves _ (ret _) => apply preserves_ret
  | |- preserves _ (throw _) => apply preserves_throw
  | |- preserves _ get => apply preserves_get
  | |- preserves _ fresh => apply handled_fresh
  | |- preserves _ (effect (E_warn _)) => fail
  | |- preserves _ (effect _) => apply handled_effect; discriminate
  | |- preserves _ (update _) => apply handled_update; intros []; done
  | |- preserves _ (modify _) => apply handled_modify; done
  | |- preserves _ (discard _) => apply preserves_discard
  | |- preserves _ (try_catch _ _) => apply preserves_try_catch; [|intros ?]
  | |- preserves _ (mapM _ _) => apply preserves_mapM; intros ?
  | |- preserves _ (bind this _) => apply handled_this; intros ? ?
  | |- preserves _ (bind _ _) => apply preserves_bind; [|intros ?]
  | |- preserves _ (match ?x with _ => _ end) => destruct x eqn:?
  | |- preserves _ (let '(_, _) := ?x in _) => destruct x eqn:?
  | |- preserves _ _ => progress unfold_facade
  end.

Ltac handled := repeat handled_step.

Section handled_operations.
Context (L : list string).

(** The warning sits behind a test of [hasHandles]. *)
Ltac no_warning :=
  exfalso;
  match goal with
  | H : hasHandles ?b = true, E : context [hasHandles ?b] |- _ =>
      rewrite H in E; cbn in E; rewrite ?andb_false_r in E; discriminate E
  end.

Lemma handled_facade op :
  match op with
  | Op_retry _ | Op_configure _ | Ev_signal _ _ _ | Ev_reply _ _
  | Ev_dispatch _ _ => True
  | _ => preserves (handled L) (run_op op)
  end.
Proof.
  destruct op; try exact I; cbn [run_op]; unfold_facade;
    handled; no_warning.
Qed.
End handled_operations.

Section handled_history.
Context (L : list string).

Ltac no_warning :=
  exfalso;
  match goal with
  | H : hasHandles ?b = true, E : context [hasHandles ?b] |- _ =>
      rewrite H in E; cbn in E; rewrite ?andb_false_r in E; discriminate E
  end.

Lemma handled_configure config : preserves (handled L) (configure config).
Proof. unfold configure. unfold_facade. handled; no_warning. Qed.

Lemma handled_run_listeners ls c ev err :
  preserves (handled L) (run_listeners ls c ev err).
Proof.
  induction ls as [|[[c' ev'] l] ls IH]; cbn [run_listeners]; [handled|].
  apply preserves_bind; [|done].
  destruct (_ && _); [|handled].
  unfold run_listener. unfold_facade. handled.
Qed.

Lemma handled_deliver subs topic message :
  preserves (handled L) (deliver subs topic message).
Proof.
  induction subs as [|s subs IH]; cbn [deliver]; [handled|].
  apply preserves_bind; [handled|]. intros w.
  apply preserves_bind; [|done].
  destruct (_ && _); [|handled].
  unfold run_callback. unfold_facade. handled.
Qed.

Lemma handled_dispatch_deliver subs topic message :
  preserves (handled L) (dispatch_deliver subs topic message).
Proof.
  induction subs as [|s subs IH]; cbn [dispatch_deliver]; [handled|].
  apply preserves_bind; [handled|]. intros w.
  apply preserves_bind; [|done].
  destruct (_ && _); [|handled].
  unfold run_callback. unfold_facade. handled.
Qed.

Lemma handled_run_op op : preserves (handled L) (run_op op).
Proof.
  pose proof (handled_facade L op) as Hop.
  destruct op; try exact Hop; cbn [run_op].
  - apply preserves_discard. unfold retry. handled. apply handled_configure.
  - apply preserves_discard, handled_configure.
  - unfold signal. handled. apply handled_run_listeners.
  - unfold reply. handled. apply handled_deliver.
  - unfold dispatch. handled. apply handled_dispatch_deliver.
Qed.

Lemma handled_run_ops ops : ∀ w, handled L w → handled L (run_ops ops w).
Proof.
  induction ops as [|op ops IH]; intros w Hw; [done|].
  cbn. apply IH. by apply handled_run_op.
Qed.
End handled_history.

Lemma run_ops_app ops1 ops2 w :
  run_ops (ops1 ++ ops2) w = run_ops ops2 (run_ops ops1 w).
Proof. unfold run_ops. by rewrite foldl_app. Qed.

(** C10: [hasHandles] is false in a new broker and true after [handle];
    whatever calls and events follow a call of [handle] (among them
    [reset], the removal of subscriptions and [shutdown]), it is still true
    and no further missing-handlers warning has been logged.  Before any
    [handle], [startSubscription] does log the warning. *)
Theorem hasHandles_is_monotone
    (before after : list Op) (messageType : option string) (handler : nat)
    (queueName : QueueArg) (context : option nat) (w : World) :
  let w1 := run_ops (before ++ [Op_handle messageType handler queueName context]) w in
  hasHandles new_Broker = false ∧
  hasHandles (broker w1) = true ∧
  hasHandles (broker (run_ops after w1)) = true ∧
  warnings (log (run_ops after w1)) = warnings (log w1) ∧
  warnings (log (run_ops [Op_startSubscription "orders" ExclusiveUndefined None]
                   initial_world)) = [handlers_warning "orders"].
Proof.
  intros w1. split; [done|].
  assert (H1 : hasHandles (broker w1) = true).
  { subst w1. rewrite run_ops_app. cbn.
    unfold exec, handle, postal_subscribe. run.
    by destruct (String.eqb _ ""). }
  split; [done|].
  destruct (handled_run_ops (warnings (log w1)) after w1) as [H2 H3]; [done|].
  split; [done|]. split; [done|]. reflexivity.
Qed.

(** ** Request and replies *)

Lemma framed_effect S P N L e : preserves (framed S P N L) (effect e).
Proof.
  intros w (HS & HP & HN & l & Hl). repeat split; try done.
  exists (l ++ [e]). cbn. by rewrite Hl, (assoc_L (++)).
Qed.

Lemma framed_this {B} S P N L (k : Broker → M B) :
  (∀ b, preserves (framed S P N L) (k b)) → preserves (framed S P N L) (bind this k).
Proof. intros Hk w Hw. by apply (Hk (broker w)). Qed.

Lemma framed_publish S P N L now x t m r c n s :
  preserves (framed S P N L) (publish now x t m r c n s).
Proof.
  unfold publish, getExchange.
  repeat first
    [ apply preserves_ret | apply preserves_throw | apply framed_effect
    | apply framed_this; intros ?
    | apply preserves_bind; [|intros ?]
    | match goal with
      | |- preserves _ (match ?x with _ => _ end) => destruct x
      | |- preserves _ (let '(_, _) := ?x in _) => destruct x
      end ].
Qed.

Lemma publish_options_logs now x o w r w' :
  publish now x (TypeOptions o) MessageUndefined None None None None w = (Ok r, w') →
  ∃ ch o', log w' = log w ++ [E_exchangePublish ch o'] ∧
           po_messageId o' = po_messageId o.
Proof.
  unfold publish, getExchange. run.
  destruct (connections (broker w) !! _) as [t|]; [|done].
  destruct (connections (broker w) !! _) as [t'|]; [|done].
  destruct (channels t' !! _) as [ch|]; [|done].
  intros [= <- <-]. eexists ch, _. split; [done|].
  by destruct (truthy_number _).
Qed.

Lemma uuid_nonempty (n : nat) : String.eqb ("uuid-" +:+ pretty n) "" = false.
Proof. reflexivity. Qed.

Section correlation.
Context (now : Z) (exchangeName : string) (options : PublishOptions)
  (connectionName : option string) (w : World).

Let topic : string := "uuid-" +:+ pretty (next_id w).
Let promise : nat := S (next_id w).
Let sid : nat := S (S (next_id w)).
Let ours (active : bool) : Subscription :=
  mkSubscription sid Responses topic (ReplyCallback promise sid) false active.

Lemma request_runs :
  ∃ w1 l, request now exchangeName (Some options) connectionName w = (Ok promise, w1) ∧
          subscriptions w1 = subscriptions w ++ [ours true] ∧
          next_id w1 = S (S (S (next_id w))) ∧
          log w1 = log w ++ E_subscribe (ours true) :: l ∧
          ((promises w1 !! promise = Some (mkPromiseCell Pending []) ∧
            ∃ x o, l = [E_exchangePublish x o] ∧ po_messageId o = Some topic)
           ∨ ∃ e, promises w1 !! promise = Some (mkPromiseCell (RejectedWith e) [])).
Proof.
  unfold request, uuid_v1, postal_subscribe, try_catch, discard.
  run. rewrite uuid_nonempty. cbn -[publish pretty String.append].
  match goal with
  | |- context [publish ?a ?b ?c ?d ?e ?f ?g ?h ?W] =>
      pose proof (framed_publish (subscriptions W) (promises W) (next_id W)
                    (log W) a b c d e f g h W) as Hframe;
      destruct (publish a b c d e f g h W) as [[r|e0] W'] eqn:Hpub
  end.
  - destruct Hframe as (HS & HP & HN & l & Hl).
    { repeat split; try done. exists []. by rewrite app_nil_r. }
    destruct (publish_options_logs _ _ _ _ _ _ Hpub) as (x & o & Hlog & Hid).
    unfold exec in *. rewrite Hpub in *. cbn in *.
    eexists _, [E_exchangePublish x o]. split; [done|]. split; [done|].
    split; [done|]. split.
    { by rewrite Hlog, <- (assoc_L (++)). }
    left. split; [|by eauto]. cbn. by rewrite HP, lookup_insert_eq.
  - destruct Hframe as (HS & HP & HN & l & Hl).
    { repeat split; try done. exists []. by rewrite app_nil_r. }
    unfold exec in *. rewrite Hpub in *. cbn in *.
    eexists _, (l ++ [E_reject promise e0]). split; [done|]. split; [done|].
    split; [done|]. split.
    { unfold with_log; cbn. rewrite Hl, <- !(assoc_L (++)). done. }
    right. exists e0. cbn. by rewrite HP, lookup_alter_eq, lookup_insert_eq.
Qed.

(** The subscriptions that were there before the request neither listen
    on its topic nor carry the identifier of its subscription. *)
Let strangers (old : list Subscription) : Prop :=
  Forall (λ s, listens s topic = false ∧ sub_id s ≠ sid) old.

Lemma deliver_strangers old rest message w' :
  strangers old →
  deliver (old ++ rest) topic message w' = deliver rest topic message w'.
Proof.
  induction 1 as [|s old [Hs _] _ IH]; [done|].
  cbn [app deliver]. run. by rewrite Hs.
Qed.

Lemma is_active_ours old active w' :
  strangers old →
  subscriptions w' = old ++ [ours active] →
  is_active w' sid = active.
Proof.
  intros Hold Hsubs. unfold is_active. rewrite Hsubs, existsb_app.
  assert (existsb (λ s, bool_decide (sub_id s = sid) && sub_active s) old
          = false) as ->.
  { clear Hsubs. induction Hold as [|s old [_ Hs] _ IH]; [done|]. cbn.
    by rewrite bool_decide_eq_false_2, IH. }
  cbn. rewrite bool_decide_eq_true_2 by done. by destruct active.
Qed.

Lemma unsubscribe_strangers old :
  strangers old →
  (λ s, if bool_decide (sub_id s = sid)
        then mkSubscription (sub_id s) (sub_channel s) (sub_topic s)
               (sub_callback s) (sub_catch s) false
        else s) <$> old = old.
Proof.
  induction 1 as [|s old [_ Hs] _ IH]; [done|]. cbn.
  by rewrite bool_decide_eq_false_2, IH.
Qed.

Lemma listens_ours active : listens (ours active) topic = true.
Proof. unfold listens. cbn. apply String.eqb_refl. Qed.

Lemma reply_progress old progress message w' :
  strangers old →
  subscriptions w' = old ++ [ours true] →
  promises w' !! promise = Some (mkPromiseCell Pending progress) →
  sequence_end message = false →
  let w'' := exec (reply topic message) w' in
  subscriptions w'' = old ++ [ours true] ∧
  promises w'' !! promise = Some (mkPromiseCell Pending (progress ++ [message])) ∧
  log w'' = log w' ++ [E_notify promise message].
Proof.
  intros Hold Hsubs Hp Hend. unfold exec, reply. run. rewrite Hsubs.
  rewrite deliver_strangers by done. cbn [deliver]. run.
  rewrite listens_ours, (is_active_ours old true) by done. cbn.
  rewrite Hend. unfold notify. run. cbn.
  split; [done|]. split; [|done].
  rewrite lookup_alter_eq, Hp. done.
Qed.

Lemma reply_terminal old progress message w' :
  strangers old →
  subscriptions w' = old ++ [ours true] →
  promises w' !! promise = Some (mkPromiseCell Pending progress) →
  sequence_end message = true →
  let w'' := exec (reply topic message) w' in
  subscriptions w'' = old ++ [ours false] ∧
  promises w'' !! promise = Some (mkPromiseCell (Resolved message) progress) ∧
  log w'' = log w' ++ [E_resolve promise message; E_unsubscribe sid].
Proof.
  intros Hold Hsubs Hp Hend. unfold exec, reply. run. rewrite Hsubs.
  rewrite deliver_strangers by done. cbn [deliver]. run.
  rewrite listens_ours, (is_active_ours old true) by done. cbn.
  rewrite Hend. unfold resolve, unsubscribe. run. cbn.
  split; [|split].
  - rewrite Hsubs, fmap_app, unsubscribe_strangers by done. cbn.
    by rewrite bool_decide_eq_true_2.
  - rewrite lookup_alter_eq, Hp. done.
  - by rewrite <- (assoc_L (++)).
Qed.

Lemma reply_ignored old message w' :
  strangers old →
  subscriptions w' = old ++ [ours false] →
  exec (reply topic message) w' = w'.
Proof.
  intros Hold Hsubs. unfold exec, reply. run. rewrite Hsubs.
  rewrite deliver_strangers by done. cbn [deliver]. run.
  rewrite listens_ours, (is_active_ours old false) by done. done.
Qed.

Lemma replies_progress old messages : ∀ progress w',
  strangers old →
  subscriptions w' = old ++ [ours true] →
  promises w' !! promise = Some (mkPromiseCell Pending progress) →
  Forall (λ m, sequence_end m = false) messages →
  let w'' := run_ops (Ev_reply topic <$> messages) w' in
  subscriptions w'' = old ++ [ours true] ∧
  promises w'' !! promise = Some (mkPromiseCell Pending (progress ++ messages)) ∧
  log w'' = log w' ++ (E_notify promise <$> messages).
Proof.
  induction messages as [|m messages IH]; intros progress w' Hold Hsubs Hp Hms.
  - cbn. by rewrite !app_nil_r.
  - apply Forall_cons in Hms as [Hm Hms].
    destruct (reply_progress old progress m w' Hold Hsubs Hp Hm)
      as (Hsubs' & Hp' & Hlog').
    destruct (IH _ _ Hold Hsubs' Hp' Hms) as (Hsubs'' & Hp'' & Hlog'').
    change (run_ops (Ev_reply topic <$> m :: messages) w')
      with (run_ops (Ev_reply topic <$> messages) (exec (reply topic m) w')).
    cbn zeta. split; [done|]. split.
    + by rewrite Hp'', <- (assoc_L (++)).
    + rewrite Hlog'', Hlog', <- (assoc_L (++)). done.
Qed.

Lemma replies_ignored old messages : ∀ w',
  strangers old →
  subscriptions w' = old ++ [ours false] →
  run_ops (Ev_reply topic <$> messages) w' = w'.
Proof.
  induction messages as [|m messages IH]; intros w' Hold Hsubs; [done|].
  change (run_ops (Ev_reply topic <$> m :: messages) w')
    with (run_ops (Ev_reply topic <$> messages) (exec (reply topic m) w')).
  rewrite (reply_ignored old) by done. by apply IH.
Qed.

Lemma tidy_strangers : tidy w → strangers (subscriptions w).
Proof.
  intros Hw. eapply Forall_impl; [exact Hw|]. intros s [Hid Hl].
  split; [by apply Hl|]. unfold sid. lia.
Qed.
End correlation.

Lemma tidy_mono (subs : list Subscription) (n m : nat) :
  (n ≤ m)%nat →
  Forall (λ s, (sub_id s < n)%nat ∧
               ∀ k, (n ≤ k)%nat → listens s ("uuid-" +:+ pretty k) = false) subs →
  Forall (λ s, (sub_id s < m)%nat ∧
               ∀ k, (m ≤ k)%nat → listens s ("uuid-" +:+ pretty k) = false) subs.
Proof.
  intros Hnm Hsubs. eapply Forall_impl; [exact Hsubs|].
  intros s [Hid Hl]. split; [lia|]. intros k Hk. apply Hl. lia.
Qed.

Lemma tidy_modify f :
  (∀ w, subscriptions (f w) = subscriptions w) →
  (∀ w, next_id (f w) = next_id w) →
  preserves tidy (modify f).
Proof. intros Hs Hn w Hw. unfold tidy, exec, modify. cbn. by rewrite Hs, Hn. Qed.

Lemma tidy_fresh : preserves tidy fresh.
Proof. intros w Hw. unfold tidy, exec, fresh. cbn. eapply tidy_mono; [|done]. lia. Qed.

Lemma tidy_unsubscribe id : preserves tidy (unsubscribe id).
Proof.
  unfold unsubscribe. apply preserves_bind; [|intros _; by apply tidy_modify].
  intros w Hw. unfold tidy, exec, modify. cbn. apply Forall_fmap.
  eapply Forall_impl; [exact Hw|]. intros s Hs. cbn.
  by destruct (bool_decide (sub_id s = id)).
Qed.

Lemma tidy_handle messageType handler queueName context :
  preserves tidy (handle messageType handler queueName context).
Proof.
  intros w Hw. unfold tidy, exec, handle, postal_subscribe. run.
  destruct (String.eqb (handle_target messageType queueName) ""); cbn.
  { eapply tidy_mono; [|exact Hw]. lia. }
  apply Forall_app. split.
  - eapply tidy_mono; [|exact Hw]. lia.
  - apply Forall_singleton. cbn. split; [lia|done].
Qed.

Lemma uuid_topic_inj (n m : nat) :
  String.eqb ("uuid-" +:+ pretty n) ("uuid-" +:+ pretty m) = true → n = m.
Proof.
  intros H. apply String.eqb_eq in H.
  by apply (inj (String.append "uuid-")), (inj pretty) in H.
Qed.

Lemma tidy_request now exchangeName options connectionName :
  preserves tidy (request now exchangeName options connectionName).
Proof.
  intros w Hw. destruct options as [options|].
  2:{ unfold tidy, exec, request, uuid_v1. run.
      destruct (String.eqb _ ""); cbn; [done|].
      eapply tidy_mono; [|exact Hw]. lia. }
  destruct (request_runs now exchangeName options connectionName w)
    as (w1 & l & Hrun & Hsubs & Hnext & _).
  unfold tidy, exec. rewrite Hrun. cbn. rewrite Hsubs, Hnext.
  apply Forall_app. split.
  - eapply tidy_mono; [|exact Hw]. lia.
  - apply Forall_singleton. cbn. split; [lia|]. intros n Hn.
    unfold listens. cbn.
    destruct (String.eqb _ _) eqn:Heq; [|done].
    apply uuid_topic_inj in Heq. lia.
Qed.

Ltac unfold_tidy :=
  unfold retry, configure, addConnection, connectionFn, topologyFn, connection_on, emit,
    clearAckInterval, setAckInterval, batchAck, on_topology, addExchange,
    addQueue, addSerializer, bindExchange, bindQueue, close, connection_close,
    closeAll, deleteExchange, deleteQueue, getExchange, getQueue,
    ignoreHandlerErrors, nackOnError, nackUnhandled, onUnhandled,
    rejectUnhandled, set_unhandled, publish, set_promises, resolve, reject,
    notify, reset, shutdown, startSubscription;
  unfold effect, update.

Ltac tidy_step :=
  lazymatch goal with
  | |- preserves _ (ret _) => apply preserves_ret
  | |- preserves _ (throw _) => apply preserves_throw
  | |- preserves _ get => apply preserves_get
  | |- preserves _ this => apply preserves_this
  | |- preserves _ fresh => apply tidy_fresh
  | |- preserves _ (unsubscribe _) => apply tidy_unsubscribe
  | |- preserves _ (handle _ _ _ _) => apply tidy_handle
  | |- preserves _ (request _ _ _ _) => apply tidy_request
  | |- preserves _ (modify _) => apply tidy_modify; done
  | |- preserves _ (discard _) => apply preserves_discard
  | |- preserves _ (try_catch _ _) => apply preserves_try_catch; [|intros ?]
  | |- preserves _ (mapM _ _) => apply preserves_mapM; intros ?
  | |- preserves _ (bind _ _) => apply preserves_bind; [|intros ?]
  | |- preserves _ (match ?x with _ => _ end) => destruct x
  | |- preserves _ (let '(_, _) := ?x in _) => destruct x
  | |- preserves _ _ => progress unfold_tidy
  end.

Lemma tidy_run_listeners ls c ev err : preserves tidy (run_listeners ls c ev err).
Proof.
  induction ls as [|[[c' ev'] l] ls IH]; cbn [run_listeners]; [apply preserves_ret|].
  apply preserves_bind; [|done].
  destruct (_ && _); [|apply preserves_ret].
  unfold run_listener. unfold_tidy. repeat tidy_step.
Qed.

Lemma tidy_deliver subs topic message : preserves tidy (deliver subs topic message).
Proof.
  induction subs as [|s subs IH]; cbn [deliver]; [apply preserves_ret|].
  apply preserves_bind; [apply preserves_get|]. intros w.
  apply preserves_bind; [|done].
  destruct (_ && _); [|apply preserves_ret].
  unfold run_callback. unfold_tidy. repeat tidy_step.
Qed.

Lemma tidy_dispatch_deliver subs topic message :
  preserves tidy (dispatch_deliver subs topic message).
Proof.
  induction subs as [|s subs IH]; cbn [dispatch_deliver]; [apply preserves_ret|].
  apply preserves_bind; [apply preserves_get|]. intros w.
  apply preserves_bind; [|done].
  destruct (_ && _); [|apply preserves_ret].
  unfold run_callback. unfold_tidy. repeat tidy_step.
Qed.

Lemma tidy_run_op op : preserves tidy (run_op op).
Proof.
  destruct op; cbn [run_op]; unfold signal, reply, dispatch; unfold_tidy;
    repeat first [apply tidy_run_listeners | apply tidy_deliver
                 | apply tidy_dispatch_deliver
                 | tidy_step].
Qed.

Lemma tidy_run_ops ops : tidy (run_ops ops initial_world).
Proof.
  assert (H : ∀ w, tidy w → tidy (run_ops ops w)).
  { induction ops as [|op ops IH]; intros w Hw; [done|].
    cbn. apply IH. by apply tidy_run_op. }
  apply H. by apply Forall_nil.
Qed.

(** ** Handlers and the messages they get *)

Lemma dispatch_deliver_logs topic message subs : ∀ w,
  Forall (λ s, sub_channel s = Dispatch →
               ∃ handler context, sub_callback s = UserHandler handler context) subs →
  dispatch_deliver subs topic message w =
    (Ok tt, with_log (λ l, l ++ calls message
                               (List.filter (λ s, hears s topic && is_active w (sub_id s))
                                  subs)) w).
Proof.
  induction subs as [|s subs IH]; intros w Hsubs.
  - cbn. unfold ret, with_log. destruct w; cbn. by rewrite app_nil_r.
  - apply Forall_cons in Hsubs as [Hs Hsubs]. cbn [dispatch_deliver List.filter]. run.
    destruct (hears s topic && is_active w (sub_id s)) eqn:Hcond.
    + apply andb_true_iff in Hcond as [Hhears _].
      unfold hears in Hhears.
      destruct (sub_channel s) eqn:Hch; try discriminate Hhears.
      destruct (Hs eq_refl) as (handler & context & Hcb).
      unfold run_callback. rewrite Hcb. run. cbn.
      rewrite (IH _ Hsubs). unfold calls. cbn [omap list_omap]. rewrite Hcb.
      unfold with_log; cbn. by rewrite <- (assoc_L (++)).
    + cbn. by rewrite (IH _ Hsubs).
Qed.

Lemma dispatch_logs topic message w :
  dispatch_handlers w →
  logged (dispatch topic message) w = calls message (heard w topic).
Proof.
  intros Hw. unfold logged, exec, dispatch. run.
  rewrite (dispatch_deliver_logs topic message _ w Hw). cbn.
  by rewrite drop_app_length.
Qed.

Section dispatch_handlers.

Lemma handlers_modify f :
  (∀ w, subscriptions (f w) = subscriptions w) →
  preserves dispatch_handlers (modify f).
Proof. intros Hf w Hw. unfold dispatch_handlers, exec, modify. cbn. by rewrite Hf. Qed.

Lemma handlers_fresh : preserves dispatch_handlers fresh.
Proof. by intros w. Qed.

Lemma handlers_postal_subscribe id channel topic callback catch :
  (channel = Dispatch → ∃ handler context, callback = UserHandler handler context) →
  preserves dispatch_handlers (postal_subscribe id channel topic callback catch).
Proof.
  intros Hcb w Hw. unfold exec, postal_subscribe.
  destruct (String.eqb topic ""); [done|]. run. cbn.
  unfold dispatch_handlers. cbn. apply Forall_app. split; [done|].
  apply Forall_cons. split; [done|]. by apply Forall_nil.
Qed.

Lemma handlers_unsubscribe id : preserves dispatch_handlers (unsubscribe id).
Proof.
  intros w Hw. unfold exec, unsubscribe. run. cbn.
  unfold dispatch_handlers. cbn. apply Forall_fmap.
  eapply Forall_impl; [exact Hw|]. intros s Hs. cbn.
  by destruct (bool_decide (sub_id s = id)).
Qed.

Ltac unfold_handlers :=
  unfold retry, configure, addConnection, connectionFn, topologyFn, connection_on,
    emit, clearAckInterval, setAckInterval, batchAck, on_topology, addExchange,
    addQueue, addSerializer, bindExchange, bindQueue, close, connection_close,
    closeAll, deleteExchange, deleteQueue, getExchange, getQueue, handle,
    ignoreHandlerErrors, nackOnError, nackUnhandled, onUnhandled,
    rejectUnhandled, set_unhandled, publish, set_promises, resolve, reject,
    notify, uuid_v1, request, reset, shutdown, startSubscription;
  unfold effect, update.

Ltac handlers_step :=
  lazymatch goal with
  | |- preserves _ (ret _) => apply preserves_ret
  | |- preserves _ (throw _) => apply preserves_throw
  | |- preserves _ get => apply preserves_get
  | |- preserves _ this => apply preserves_this
  | |- preserves _ fresh => apply handlers_fresh
  | |- preserves _ (postal_subscribe _ _ _ _ _) =>
      apply handlers_postal_subscribe; first [discriminate | intros _; by eexists _, _]
  | |- preserves _ (unsubscribe _) => apply handlers_unsubscribe
  | |- preserves _ (modify _) => apply handlers_modify; done
  | |- preserves _ (discard _) => apply preserves_discard
  | |- preserves _ (try_catch _ _) => apply preserves_try_catch; [|intros ?]
  | |- preserves _ (mapM _ _) => apply preserves_mapM; intros ?
  | |- preserves _ (bind _ _) => apply preserves_bind; [|intros ?]
  | |- preserves _ (match ?x with _ => _ end) => destruct x
  | |- preserves _ (let '(_, _) := ?x in _) => destruct x
  | |- preserves _ _ => progress unfold_handlers
  end.

Lemma handlers_run_listeners ls c ev err :
  preserves dispatch_handlers (run_listeners ls c ev err).
Proof.
  induction ls as [|[[c' ev'] l] ls IH]; cbn [run_listeners]; [apply preserves_ret|].
  apply preserves_bind; [|done].
  destruct (_ && _); [|apply preserves_ret].
  unfold run_listener. repeat handlers_step.
Qed.

Lemma handlers_deliver subs topic message :
  preserves dispatch_handlers (deliver subs topic message).
Proof.
  induction subs as [|s subs IH]; cbn [deliver]; [apply preserves_ret|].
  apply preserves_bind; [apply preserves_get|]. intros w.
  apply preserves_bind; [|done].
  destruct (_ && _); [|apply preserves_ret].
  unfold run_callback. repeat handlers_step.
Qed.

Lemma handlers_dispatch_deliver subs topic message :
  preserves dispatch_handlers (dispatch_deliver subs topic message).
Proof.
  induction subs as [|s subs IH]; cbn [dispatch_deliver]; [apply preserves_ret|].
  apply preserves_bind; [apply preserves_get|]. intros w.
  apply preserves_bind; [|done].
  destruct (_ && _); [|apply preserves_ret].
  unfold run_callback. repeat handlers_step.
Qed.

Lemma handlers_run_op op : preserves dispatch_handlers (run_op op).
Proof.
  destruct op; cbn [run_op]; unfold signal, reply, dispatch;
    repeat first [apply handlers_run_listeners | apply handlers_deliver
                 | apply handlers_dispatch_deliver | handlers_step].
Qed.

Lemma dispatch_handlers_run_ops ops : dispatch_handlers (run_ops ops initial_world).
Proof.
  assert (H : ∀ w, dispatch_handlers w → dispatch_handlers (run_ops ops w)).
  { induction ops as [|op ops IH]; intros w Hw; [done|].
    cbn. apply IH. by apply handlers_run_op. }
  apply H. by apply Forall_nil.
Qed.
End dispatch_handlers.

Lemma handle_runs messageType handler queueName context w :
  String.eqb (handle_target messageType queueName) "" = false →
  let s := mkSubscription (next_id w) Dispatch (handle_target messageType queueName)
             (UserHandler handler (handle_context queueName context))
             (autoNack (broker w)) true in
  ∃ w1, handle messageType handler queueName context w = (Ok s, w1) ∧
        subscriptions w1 = subscriptions w ++ [s] ∧
        log w1 = log w ++ [E_subscribe s].
Proof.
  intros Htarget s. unfold handle, postal_subscribe. run. rewrite Htarget. cbn.
  by eexists.
Qed.

Lemma handle_refused messageType handler queueName context w :
  String.eqb (handle_target messageType queueName) "" = true →
  ∃ w1, handle messageType handler queueName context w
          = (Throw (Error "Topics cannot be empty"), w1) ∧
        subscriptions w1 = subscriptions w ∧ log w1 = log w.
Proof.
  intros Htarget. unfold handle, postal_subscribe. run. rewrite Htarget. cbn.
  by eexists.
Qed.

(** A new subscription is heard after the old ones, which are heard as
    before. *)
Lemma heard_subscribed w w1 s topic :
  tidy w →
  subscriptions w1 = subscriptions w ++ [s] →
  sub_id s = next_id w → sub_channel s = Dispatch → sub_active s = true →
  heard w1 topic =
    heard w topic ++ if postal_compare (sub_topic s) topic then [s] else [].
Proof.
  intros Hw Hsubs Hid Hch Hact. unfold heard. rewrite Hsubs, List.filter_app.
  f_equal.
  - apply List.filter_ext_in. intros s' Hin. f_equal.
    unfold is_active. rewrite Hsubs, existsb_app. cbn. rewrite orb_false_r.
    rewrite (bool_decide_eq_false_2 (sub_id s = sub_id s')); [by rewrite orb_false_r|].
    apply list_elem_of_In in Hin.
    unfold tidy in Hw. rewrite Forall_forall in Hw.
    destruct (Hw s' Hin) as [Hlt _]. lia.
  - cbn. unfold hears. rewrite Hch.
    assert (is_active w1 (sub_id s) = true) as ->.
    { unfold is_active. rewrite Hsubs, existsb_app. cbn.
      rewrite bool_decide_eq_true_2 by done. rewrite Hact. cbn.
      by rewrite orb_true_r. }
    by rewrite andb_true_r.
Qed.

(** ** Topics of handlers and of messages *)

Lemma occurs_append c a b : occurs c (a +:+ b) = occurs c a || occurs c b.
Proof.
  induction a as [|x a IH]; [reflexivity|].
  rewrite append_cons. cbn [occurs]. rewrite IH. by destruct (Ascii.eqb x c).
Qed.

Lemma occurs_replace_dots q : occurs "." (replace_dots q) = false.
Proof.
  induction q as [|c q IH]; [done|]. cbn [replace_dots occurs].
  rewrite IH, orb_false_r. by destruct (Ascii.eqb c ".") eqn:E.
Qed.

Lemma split_first_dot a : ∀ a' b b',
  occurs "." a = false → occurs "." a' = false →
  a +:+ "." +:+ b = a' +:+ "." +:+ b' → a = a' ∧ b = b'.
Proof.
  induction a as [|x a IH]; intros [|x' a'] b b' Ha Ha';
    rewrite ?append_cons, ?append_nil_l.
  - by intros [= ->].
  - intros [= <- _]. discriminate Ha'.
  - intros [= -> _]. discriminate Ha.
  - intros [= <- H]. cbn [occurs] in Ha, Ha'.
    apply orb_false_iff in Ha as [_ Ha]. apply orb_false_iff in Ha' as [_ Ha'].
    by destruct (IH a' b b' Ha Ha' H) as [-> ->].
Qed.

Lemma inbound_topic_eq queue type :
  inbound_topic queue type =
    if String.eqb type "" then replace_dots queue
    else replace_dots queue +:+ "." +:+ type.
Proof. unfold inbound_topic. by destruct (String.eqb type ""). Qed.

Lemma regex_match_any r prev s :
  regex_match (Any :: r) prev s =
    regex_match r prev s ||
    match s with
    | String c s' => regex_match (Any :: r) (Some c) s'
    | EmptyString => false
    end.
Proof. by destruct s. Qed.

(** [[\s\S]*] can take any prefix of the topic. *)
Lemma regex_match_any_skip r a : ∀ prev s,
  regex_match (Any :: r) (Some "."%char) s = true →
  regex_match (Any :: r) prev (a +:+ "." +:+ s) = true.
Proof.
  induction a as [|x a IH]; intros prev s Hs.
  - rewrite append_nil_l, regex_match_any.
    change ("." +:+ s) with (String "." s). cbv beta iota. rewrite Hs.
    apply orb_true_r.
  - rewrite append_cons, regex_match_any, IH by done. apply orb_true_r.
Qed.

Lemma eqb_orders_created queue type :
  String.eqb (inbound_topic queue type) "orders.created" = true
  ↔ queue = "orders" ∧ type = "created".
Proof.
  rewrite String.eqb_eq, inbound_topic_eq.
  destruct (String.eqb_spec type "") as [->|Hty].
  - split; [|by intros [_ [=]]]. intros H.
    pose proof (occurs_replace_dots queue) as Hq. by rewrite H in Hq.
  - split.
    + intros H. apply (split_first_dot _ "orders") in H as [Hq ->];
        [|apply occurs_replace_dots|done].
      split; [by apply replace_dots_orders|done].
    + by intros [-> ->].
Qed.

Lemma eqb_orders queue type :
  String.eqb (inbound_topic queue type) "orders" = true
  ↔ queue = "orders" ∧ type = "".
Proof.
  rewrite String.eqb_eq, inbound_topic_eq.
  destruct (String.eqb_spec type "") as [->|Hty].
  - rewrite replace_dots_orders. split; [by intros ->|by intros [-> _]].
  - split; [|by intros [_ ?]]. intros H.
    assert (Hdot : occurs "." (replace_dots queue +:+ "." +:+ type) = true).
    { rewrite !occurs_append. cbn. by rewrite orb_true_r. }
    by rewrite H in Hdot.
Qed.

(** C3: the topic [handle] subscribes to is the prefix, "#" when the third
    argument is not a string and the queue name with every "." replaced by
    "-" when it is, followed by "." and the message type exactly when the
    type is not empty.  When that topic is empty (the empty string as queue
    name, no type) the subscription is refused and [handle] throws;
    otherwise [handle] subscribes, and a message published to the
    dispatcher afterwards is handed to the old subscriptions as before and
    then to the new handler exactly when the resolver of the dispatcher
    accepts its topic (for the topics of handlers the resolver is modelled
    for: those without wildcard, and those whose type has no character
    that is an operator of regular expressions).  So the handler of
    [handle( "created", h, "orders" )] gets exactly the messages of type
    "created" on queue "orders"; the handler of [handle( "created", h )]
    gets the messages of type "created" on every queue (and those of type
    "order.created", and the untyped ones of a queue named "created"); and
    the handler of [handle( undefined, h, "orders" )] gets the messages on
    "orders" that have no type, and no other. *)
Theorem handle_topic_derivation
    (messageType : option string) (handler : nat) (queueName : QueueArg)
    (context : option nat) (w : World) :
  tidy w →
  dispatch_handlers w →
  let prefix := match queueName with
                | QueueName q => replace_dots q
                | _ => "#"
                end in
  let target := if isEmpty messageType then prefix
                else prefix +:+ "." +:+ default "" messageType in
  let call := handle messageType handler queueName context in
  handle_target messageType queueName = target ∧
  (if String.eqb target ""
   then result call w = Throw (Error "Topics cannot be empty") ∧
        subscriptions (exec call w) = subscriptions w ∧
        logged call w = []
   else ∃ s, result call w = Ok s ∧
             sub_topic s = target ∧ sub_channel s = Dispatch ∧
             sub_callback s = UserHandler handler (handle_context queueName context) ∧
             subscriptions (exec call w) = subscriptions w ++ [s] ∧
             logged call w = [E_subscribe s] ∧
             (modelled_binding target = true →
              ∀ topic message,
                logged (dispatch topic message) (exec call w) =
                  logged (dispatch topic message) w ++
                  if postal_compare target topic
                  then [E_invoke handler (handle_context queueName context) message]
                  else [])) ∧
  modelled_binding "orders.created" = true ∧
  modelled_binding "#.created" = true ∧
  modelled_binding "orders" = true ∧
  handle_target (Some "created") (QueueName "orders") = "orders.created" ∧
  handle_target (Some "created") NoQueue = "#.created" ∧
  handle_target None (QueueName "orders") = "orders" ∧
  (∀ queue type, postal_compare "orders.created" (inbound_topic queue type) = true
                 ↔ queue = "orders" ∧ type = "created") ∧
  (∀ queue, postal_compare "#.created" (inbound_topic queue "created") = true) ∧
  postal_compare "#.created" (inbound_topic "orders" "order.created") = true ∧
  postal_compare "#.created" (inbound_topic "created" "") = true ∧
  postal_compare "#.created" (inbound_topic "orders" "updated") = false ∧
  (∀ queue type, postal_compare "orders" (inbound_topic queue type) = true
                 ↔ queue = "orders" ∧ type = "").
Proof.
  intros Htidy Hhandlers. cbn zeta.
  set (prefix := match queueName with QueueName q => replace_dots q | _ => "#" end).
  assert (Htarget : handle_target messageType queueName =
            if isEmpty messageType then prefix
            else prefix +:+ "." +:+ default "" messageType).
  { unfold handle_target. fold prefix. by destruct (isEmpty messageType). }
  split; [done|]. rewrite <- Htarget. split.
  { destruct (String.eqb (handle_target messageType queueName) "") eqn:Hempty.
    - destruct (handle_refused messageType handler queueName context w Hempty)
        as (w1 & Hrun & Hsubs & Hlog).
      unfold result, logged, exec. rewrite Hrun. cbn [fst snd].
      split; [done|]. split; [done|]. by rewrite Hlog, drop_all.
    - destruct (handle_runs messageType handler queueName context w Hempty)
        as (w1 & Hrun & Hsubs & Hlog).
      eexists. unfold result, logged at 1, exec. rewrite Hrun. cbn [fst snd].
      do 5 (split; [done|]). split; [by rewrite Hlog, drop_app_length|].
      intros _ topic message.
      assert (Hhandlers1 : dispatch_handlers w1).
      { unfold dispatch_handlers. rewrite Hsubs. apply Forall_app. split; [done|].
        apply Forall_cons. split; [by eexists _, _|]. by apply Forall_nil. }
      rewrite !dispatch_logs by done.
      rewrite (heard_subscribed w w1 _ topic Htidy Hsubs) by done.
      unfold calls. rewrite omap_app. f_equal. cbn [sub_topic].
      by destruct (postal_compare _ topic). }
  do 6 (split; [reflexivity|]).
  split; [exact eqb_orders_created|].
  split.
  { intros queue. rewrite inbound_topic_eq. cbn [String.eqb].
    by apply (regex_match_any_skip [Boundary; Lit "created"]). }
  do 3 (split; [reflexivity|]). exact eqb_orders.
Qed.

Lemma handle_topic_derivation_witness :
  let message := mkMessage ∅ "created" (V_str "order 1") in
  let w := run_ops [Op_handle (Some "updated") 1%nat NoQueue None;
                    Op_handle None 2%nat NoQueue None] initial_world in
  let w1 := exec (handle (Some "created") 7%nat (QueueName "orders") (Some 5%nat)) w in
  logged (dispatch (inbound_topic "orders" "created") message) w1 =
    [E_invoke 2 None message; E_invoke 7 (Some 5%nat) message].
Proof.
  intros message w w1.
  destruct (handle_topic_derivation (Some "created") 7%nat (QueueName "orders")
              (Some 5%nat) w) as (_ & (s & _ & _ & _ & _ & _ & _ & Hdispatch) & _).
  - repeat constructor; cbn; lia.
  - repeat constructor; intros _; by eexists _, _.
  - exact (Hdispatch eq_refl (inbound_topic "orders" "created") message).
Defined.

(** C3, as the claim states it, fails: after
    [handle( undefined, h, "orders" )] a message of type "created" on the
    queue "orders" does not reach the handler, which a handler registered
    for that type does get; only the untyped message reaches it.  And
    [handle( undefined, h, "" )] does not derive a topic to subscribe to: it
    throws. *)
Lemma handle_without_type_misses_typed_messages :
  let message := mkMessage ∅ "created" (V_str "order 1") in
  let untyped := exec (handle None 7%nat (QueueName "orders") None) initial_world in
  let typed := exec (handle (Some "created") 7%nat (QueueName "orders") None)
                 initial_world in
  handle_target None (QueueName "orders") = "orders" ∧
  inbound_topic "orders" "created" = "orders.created" ∧
  logged (dispatch (inbound_topic "orders" "created") message) untyped = [] ∧
  logged (dispatch (inbound_topic "orders" "created") message) typed
    = [E_invoke 7 None message] ∧
  logged (dispatch (inbound_topic "orders" "") message) untyped
    = [E_invoke 7 None message] ∧
  result (handle None 7%nat (QueueName "") None) initial_world
    = Throw (Error "Topics cannot be empty").
Proof. by vm_compute. Qed.

(** The registry of every reachable state is named and ordered: [closeAll]
    meets it in no other. *)
Lemma named_modify f :
  (∀ w, connections (broker (f w)) = connections (broker w)) →
  preserves registry_named (modify f).
Proof. intros Hf w Hw key t. unfold exec, modify. cbn. rewrite Hf. apply Hw. Qed.

Lemma named_fresh : preserves registry_named fresh.
Proof. by intros w. Qed.

Lemma named_reset : preserves registry_named reset.
Proof. intros w _ key t. unfold exec, reset. run. cbn. by rewrite lookup_empty. Qed.

Lemma on_topology_broker name call w :
  broker (exec (on_topology name call) w) =
    match connections (broker w) !! name with
    | Some t => set_connections (<[name := apply_call call t]>) (broker w)
    | None => broker w
    end.
Proof.
  unfold exec, on_topology. run.
  by destruct (connections (broker w) !! name).
Qed.

Lemma on_topology_registry name call w :
  connections (broker (exec (on_topology name call) w)) =
    match connections (broker w) !! name with
    | Some t => <[name := apply_call call t]> (connections (broker w))
    | None => connections (broker w)
    end.
Proof.
  rewrite on_topology_broker.
  by destruct (connections (broker w) !! name).
Qed.

Lemma named_on_topology name call : preserves registry_named (on_topology name call).
Proof.
  intros w Hw key t'. rewrite on_topology_registry.
  destruct (connections (broker w) !! name) as [t|] eqn:Ht; [|apply Hw].
  destruct (decide (key = name)) as [->|Hne].
  - rewrite lookup_insert_eq. intros [= <-]. exact (Hw name t Ht).
  - rewrite lookup_insert_ne by done. apply Hw.
Qed.

Lemma addConnection_broker options w :
  broker (exec (addConnection options) w) =
    match connections (broker w) !! connection_name options with
    | Some _ => broker w
    | None =>
        if inherited (connection_name options) then broker w
        else register (connection_name options)
               (mkTopology (connection_name options)
                  (Some (mkConnection (next_id w) (connection_name options)))
                  (connection_options options) ∅) (broker w)
    end.
Proof.
  destruct (connections (broker w) !! connection_name options) as [t|] eqn:Ht.
  - unfold exec, addConnection. run. rewrite Ht.
    by destruct (topo_connection t).
  - destruct (inherited (connection_name options)) eqn:Hown.
    + unfold exec. by rewrite addConnection_inherited.
    + unfold exec. by rewrite addConnection_new.
Qed.

Lemma addConnection_registry options w :
  connections (broker (exec (addConnection options) w)) =
    match connections (broker w) !! connection_name options with
    | Some _ => connections (broker w)
    | None =>
        if inherited (connection_name options) then connections (broker w)
        else <[connection_name options :=
                 mkTopology (connection_name options)
                   (Some (mkConnection (next_id w) (connection_name options)))
                   (connection_options options) ∅]> (connections (broker w))
    end.
Proof.
  rewrite addConnection_broker.
  destruct (connections (broker w) !! connection_name options); [done|].
  by destruct (inherited (connection_name options)).
Qed.

Lemma named_addConnection options : preserves registry_named (addConnection options).
Proof.
  intros w Hw key t'. rewrite addConnection_registry.
  destruct (connections (broker w) !! connection_name options) as [t|] eqn:Ht;
    [apply Hw|].
  destruct (inherited (connection_name options)); [apply Hw|].
  destruct (decide (key = connection_name options)) as [->|Hne].
  - rewrite lookup_insert_eq. intros [= <-]. cbn.
    split; [done|apply connection_name_nonempty].
  - rewrite lookup_insert_ne by done. apply Hw.
Qed.

Lemma ordered_modify f :
  (∀ w, connections (broker (f w)) = connections (broker w)
        ∧ connections_keys (broker (f w)) = connections_keys (broker w)) →
  preserves registry_ordered (modify f).
Proof.
  intros Hf w Hw. unfold exec, modify, registry_ordered. cbn.
  destruct (Hf w) as [-> ->]. apply Hw.
Qed.

Lemma ordered_fresh : preserves registry_ordered fresh.
Proof. by intros w. Qed.

Lemma ordered_reset : preserves registry_ordered reset.
Proof.
  intros w _. unfold exec, reset, registry_ordered. run. cbn.
  split; [apply NoDup_nil_2|]. by rewrite dom_empty_L.
Qed.

Lemma ordered_on_topology name call :
  preserves registry_ordered (on_topology name call).
Proof.
  intros w [Hnd Hdom]. unfold registry_ordered. rewrite on_topology_broker.
  destruct (connections (broker w) !! name) as [t|] eqn:Ht; [|done]. cbn.
  split; [done|]. rewrite dom_insert_L, Hdom.
  apply elem_of_dom_2 in Ht. symmetry. apply subseteq_union_1_L.
  by apply singleton_subseteq_l.
Qed.

Lemma ordered_addConnection options :
  preserves registry_ordered (addConnection options).
Proof.
  intros w [Hnd Hdom]. unfold registry_ordered. rewrite addConnection_broker.
  destruct (connections (broker w) !! connection_name options) as [t|] eqn:Ht;
    [done|].
  destruct (inherited (connection_name options)); [done|]. cbn.
  apply not_elem_of_dom in Ht. split.
  - apply NoDup_app. split; [done|]. split; [|apply NoDup_singleton].
    intros key Hkey ->%list_elem_of_singleton. apply Ht. rewrite <- Hdom.
    by apply elem_of_list_to_set.
  - rewrite list_to_set_app_L, dom_insert_L, Hdom. cbn [list_to_set foldr].
    rewrite (right_id_L ∅ (∪)). apply (comm_L (∪)).
Qed.

Ltac unfold_named :=
  unfold retry, configure, connection_on, emit, clearAckInterval,
    setAckInterval, batchAck, addExchange, addQueue, addSerializer,
    bindExchange, bindQueue, close, connection_close, closeAll, deleteExchange,
    deleteQueue, getExchange, getQueue, handle, postal_subscribe, unsubscribe,
    ignoreHandlerErrors, nackOnError, nackUnhandled, onUnhandled,
    rejectUnhandled, set_unhandled, publish, set_promises, resolve, reject,
    notify, uuid_v1, request, shutdown, startSubscription;
  unfold effect, update.

Ltac registry_step :=
  lazymatch goal with
  | |- preserves _ (ret _) => apply preserves_ret
  | |- preserves _ (throw _) => apply preserves_throw
  | |- preserves _ get => apply preserves_get
  | |- preserves _ this => apply preserves_this
  | |- preserves registry_named fresh => apply named_fresh
  | |- preserves registry_named reset => apply named_reset
  | |- preserves registry_named (on_topology _ _) => apply named_on_topology
  | |- preserves registry_named (addConnection _) => apply named_addConnection
  | |- preserves registry_named (modify _) => apply named_modify; done
  | |- preserves registry_ordered fresh => apply ordered_fresh
  | |- preserves registry_ordered reset => apply ordered_reset
  | |- preserves registry_ordered (on_topology _ _) => apply ordered_on_topology
  | |- preserves registry_ordered (addConnection _) => apply ordered_addConnection
  | |- preserves registry_ordered (modify _) => apply ordered_modify; done
  | |- preserves _ (discard _) => apply preserves_discard
  | |- preserves _ (try_catch _ _) => apply preserves_try_catch; [|intros ?]
  | |- preserves _ (mapM _ _) => apply preserves_mapM; intros ?
  | |- preserves _ (bind _ _) => apply preserves_bind; [|intros ?]
  | |- preserves _ (match ?x with _ => _ end) => destruct x
  | |- preserves _ (let '(_, _) := ?x in _) => destruct x
  | |- preserves _ _ => progress unfold_named
  end.

Section registry.
Context (I : World → Prop) (HI : I = registry_named ∨ I = registry_ordered).

Lemma registry_run_listeners ls c ev err : preserves I (run_listeners ls c ev err).
Proof.
  induction ls as [|[[c' ev'] l] ls IH]; cbn [run_listeners]; [apply preserves_ret|].
  apply preserves_bind; [|done].
  destruct (_ && _); [|apply preserves_ret].
  unfold run_listener. destruct HI as [-> | ->]; repeat registry_step.
Qed.

Lemma registry_deliver subs topic message :
  preserves I (deliver subs topic message).
Proof.
  induction subs as [|s subs IH]; cbn [deliver]; [apply preserves_ret|].
  apply preserves_bind; [apply preserves_get|]. intros w.
  apply preserves_bind; [|done].
  destruct (_ && _); [|apply preserves_ret].
  unfold run_callback. destruct HI as [-> | ->]; repeat registry_step.
Qed.

Lemma registry_dispatch_deliver subs topic message :
  preserves I (dispatch_deliver subs topic message).
Proof.
  induction subs as [|s subs IH]; cbn [dispatch_deliver]; [apply preserves_ret|].
  apply preserves_bind; [apply preserves_get|]. intros w.
  apply preserves_bind; [|done].
  destruct (_ && _); [|apply preserves_ret].
  unfold run_callback. destruct HI as [-> | ->]; repeat registry_step.
Qed.
End registry.

Lemma named_run_op op : preserves registry_named (run_op op).
Proof.
  destruct op; cbn [run_op]; unfold signal, reply, dispatch;
    repeat first [ apply registry_run_listeners; by left
                 | apply registry_deliver; by left
                 | apply registry_dispatch_deliver; by left
                 | registry_step].
Qed.

Lemma ordered_run_op op : preserves registry_ordered (run_op op).
Proof.
  destruct op; cbn [run_op]; unfold signal, reply, dispatch;
    repeat first [ apply registry_run_listeners; by right
                 | apply registry_deliver; by right
                 | apply registry_dispatch_deliver; by right
                 | registry_step].
Qed.

Lemma registry_named_run_ops ops : registry_named (run_ops ops initial_world).
Proof.
  assert (H : ∀ w, registry_named w → registry_named (run_ops ops w)).
  { induction ops as [|op ops IH]; intros w Hw; [done|].
    cbn. apply IH. by apply named_run_op. }
  apply H. intros key t. cbn. by rewrite lookup_empty.
Qed.

Lemma registry_ordered_run_ops ops : registry_ordered (run_ops ops initial_world).
Proof.
  assert (H : ∀ w, registry_ordered w → registry_ordered (run_ops ops w)).
  { induction ops as [|op ops IH]; intros w Hw; [done|].
    cbn. apply IH. by apply ordered_run_op. }
  apply H. split; [apply NoDup_nil_2|]. cbn. by rewrite dom_empty_L.
Qed.




(** C2: in any state the broker can reach, a request that was published
    returns a pending promise and leaves one subscription on the responses
    channel, on the request identifier stamped on the published message.
    Replies on that identifier without a truthy "sequence_end" header are
    passed to [notify], one each, and leave the promise pending and the
    subscription active.  The first reply with the header calls [resolve]
    with that reply and unsubscribes in the same delivery.  No reply that
    comes later changes anything, so [resolve] is called exactly once. *)
Theorem request_resolves_once_on_terminal_reply
    (history : list Op) (now : Z) (exchangeName : string)
    (options : PublishOptions) (connectionName : option string)
    (promise : nat) (w1 : World)
    (partials later : list Message) (terminal : Message) :
  let w := run_ops history initial_world in
  request now exchangeName (Some options) connectionName w = (Ok promise, w1) →
  promises w1 !! promise = Some (mkPromiseCell Pending []) →
  Forall (λ m, sequence_end m = false) partials →
  sequence_end terminal = true →
  ∃ s x o,
    log w1 = log w ++ [E_subscribe s; E_exchangePublish x o] ∧
    sub_channel s = Responses ∧
    sub_callback s = ReplyCallback promise (sub_id s) ∧
    po_messageId o = Some (sub_topic s) ∧
    let replies messages := run_ops (Ev_reply (sub_topic s) <$> messages) in
    let w2 := replies partials w1 in
    let w3 := replies [terminal] w2 in
    let w4 := replies later w3 in
    promises w2 !! promise = Some (mkPromiseCell Pending partials) ∧
    is_active w2 (sub_id s) = true ∧
    log w2 = log w1 ++ (E_notify promise <$> partials) ∧
    promises w3 !! promise = Some (mkPromiseCell (Resolved terminal) partials) ∧
    is_active w3 (sub_id s) = false ∧
    log w3 = log w2 ++ [E_resolve promise terminal; E_unsubscribe (sub_id s)] ∧
    w4 = w3.
Proof.
  intros w Hrun Hpending Hpartials Hterminal.
  destruct (request_runs now exchangeName options connectionName w)
    as (w1' & l & Hrun' & Hsubs & _ & Hlog & Hcases).
  rewrite Hrun in Hrun'. injection Hrun' as -> ->.
  destruct Hcases as [[_ (x & o & -> & Hid)]|[e He]]; [|congruence].
  pose proof (tidy_strangers w (tidy_run_ops history)) as Hold.
  eexists _, x, o. split; [exact Hlog|]. do 3 (split; [done|]).
  cbn zeta. cbn [sub_topic sub_id].
  destruct (replies_progress w _ partials [] _ Hold Hsubs Hpending Hpartials)
    as (Hsubs2 & Hp2 & Hlog2).
  destruct (reply_terminal w _ _ terminal _ Hold Hsubs2 Hp2 Hterminal)
    as (Hsubs3 & Hp3 & Hlog3).
  split; [done|]. split; [by eapply is_active_ours|]. split; [done|].
  split; [done|]. split; [by eapply is_active_ours|]. split; [done|].
  by eapply replies_ignored.
Qed.

Lemma request_resolves_once_on_terminal_reply_witness :
  let history := [Op_addConnection None;
                  Op_addExchange (ExchangeNamed "rpc") (Some "direct")
                    (Some (mkExchangeDef "" None)) None] in
  let options := mkPublishOptions None (Some "ask") (V_str "ping") None None
                   None None None None None None in
  let part := mkMessage ∅ "part" (V_str "1") in
  let last := mkMessage {["sequence_end" := V_bool true]} "last" (V_str "2") in
  let w1 := exec (request 0 "rpc" (Some options) None)
              (run_ops history initial_world) in
  ∃ s, sub_channel s = Responses ∧
       promises (run_ops (Ev_reply (sub_topic s) <$> [part; part; last; part; last]) w1)
         !! 5%nat = Some (mkPromiseCell (Resolved last) [part; part]).
Proof.
  intros history options part last w1.
  destruct (request_resolves_once_on_terminal_reply history 0 "rpc" options None
              5%nat w1 [part; part] [part; last] last)
    as (s & x & o & _ & Hs & _ & _ & _ & _ & _ & H3 & _ & _ & H4).
  - vm_compute. reflexivity.
  - vm_compute. reflexivity.
  - repeat constructor.
  - reflexivity.
  - exists s. split; [exact Hs|].
    change [part; part; last; part; last] with ([part; part] ++ [last] ++ [part; last]).
    rewrite !fmap_app, !run_ops_app. rewrite H4. exact H3.
Defined.

(** ** UTF-8 *)

(** Decides the comparisons of a goal from the bounds in the context. *)
Ltac decide_tests :=
  repeat match goal with
         | |- context [?a <? ?b] => destruct (Z.ltb_spec a b); try lia
         | |- context [?a <=? ?b] => destruct (Z.leb_spec a b); try lia
         end.

Ltac euclid := Z.div_mod_to_equations; lia.

(** One step of the decoder, on the first byte only. *)
Ltac slice_step :=
  match goal with
  | |- context [utf8_slice (?b :: ?r)] =>
      let rest := fresh "rest" in
      remember r as rest; cbn [utf8_slice]; subst rest; cbv beta iota zeta
  end.

Lemma utf8_slice_1 c bytes :
  0 ≤ c < 0x80 → utf8_slice (utf8_bytes c ++ bytes) = c :: utf8_slice bytes.
Proof.
  intros Hc. unfold utf8_bytes. decide_tests. cbn [app]. slice_step.
  by decide_tests.
Qed.

Lemma utf8_slice_2 c bytes :
  0x80 ≤ c < 0x800 → utf8_slice (utf8_bytes c ++ bytes) = c :: utf8_slice bytes.
Proof.
  intros Hc. unfold utf8_bytes. decide_tests.
  set (b0 := 0xC0 + c / 64). set (b1 := 0x80 + c mod 64).
  assert (0xC2 ≤ b0 < 0xE0) by (subst b0; euclid).
  assert (0x80 ≤ b1 < 0xC0) by (subst b1; euclid).
  assert ((b0 - 0xC0) * 64 + (b1 - 0x80) = c) as Hcp by (subst b0 b1; euclid).
  clearbody b0 b1. cbn [app]. slice_step. unfold is_continuation.
  decide_tests. cbn [andb]. by rewrite Hcp.
Qed.

Lemma utf8_slice_3 c bytes :
  0x800 ≤ c < 0x10000 → ¬ (0xD800 ≤ c ≤ 0xDFFF) →
  utf8_slice (utf8_bytes c ++ bytes) = c :: utf8_slice bytes.
Proof.
  intros Hc Hs. unfold utf8_bytes. decide_tests.
  set (b0 := 0xE0 + c / 4096). set (b1 := 0x80 + (c / 64) mod 64).
  set (b2 := 0x80 + c mod 64).
  assert (0xE0 ≤ b0 < 0xF0) by (subst b0; euclid).
  assert (0x80 ≤ b1 < 0xC0) by (subst b1; euclid).
  assert (0x80 ≤ b2 < 0xC0) by (subst b2; euclid).
  assert ((b0 - 0xE0) * 4096 + (b1 - 0x80) * 64 + (b2 - 0x80) = c) as Hcp
    by (subst b0 b1 b2; euclid).
  clearbody b0 b1 b2. cbn [app]. slice_step. unfold is_continuation.
  rewrite Hcp. decide_tests; cbn [andb negb]; done.
Qed.

Lemma utf8_slice_4 c d bytes :
  0xD800 ≤ c ≤ 0xDBFF → 0xDC00 ≤ d ≤ 0xDFFF →
  utf8_slice (utf8_bytes (0x10000 + (c - 0xD800) * 1024 + (d - 0xDC00)) ++ bytes)
  = c :: d :: utf8_slice bytes.
Proof.
  intros Hc Hd.
  set (cp := 0x10000 + (c - 0xD800) * 1024 + (d - 0xDC00)).
  assert (0x10000 ≤ cp ≤ 0x10FFFF) by lia.
  assert (0xD800 + (cp - 0x10000) / 1024 = c) as Hhigh by (subst cp; euclid).
  assert (0xDC00 + (cp - 0x10000) mod 1024 = d) as Hlow by (subst cp; euclid).
  clearbody cp.
  unfold utf8_bytes. decide_tests.
  set (b0 := 0xF0 + cp / 262144). set (b1 := 0x80 + (cp / 4096) mod 64).
  set (b2 := 0x80 + (cp / 64) mod 64). set (b3 := 0x80 + cp mod 64).
  assert (0xF0 ≤ b0 < 0xF5) by (subst b0; euclid).
  assert (0x80 ≤ b1 < 0xC0) by (subst b1; euclid).
  assert (0x80 ≤ b2 < 0xC0) by (subst b2; euclid).
  assert (0x80 ≤ b3 < 0xC0) by (subst b3; euclid).
  assert ((b0 - 0xF0) * 262144 + (b1 - 0x80) * 4096 + (b2 - 0x80) * 64
          + (b3 - 0x80) = cp) as Hcp by (subst b0 b1 b2 b3; euclid).
  clearbody b0 b1 b2 b3. cbn [app]. slice_step. unfold is_continuation.
  rewrite Hcp. decide_tests. cbn [andb negb].
  unfold code_units. decide_tests. cbn [app]. by rewrite Hhigh, Hlow.
Qed.

Lemma well_formed_cases (P : list Z → Prop) :
  P [] →
  (∀ c s, 0 ≤ c < 0x10000 → ¬ (0xD800 ≤ c ≤ 0xDFFF) →
          well_formed s = true → P s → P (c :: s)) →
  (∀ c d s, 0xD800 ≤ c ≤ 0xDBFF → 0xDC00 ≤ d ≤ 0xDFFF →
            well_formed s = true → P s → P (c :: d :: s)) →
  ∀ s, well_formed s = true → P s.
Proof.
  intros Hnil Hunit Hpair. fix IH 1. intros [|c s] Hwf; [exact Hnil|].
  cbn [well_formed] in Hwf. destruct (is_high_surrogate c) eqn:Hhigh.
  - destruct s as [|d s]; [done|]. apply andb_true_iff in Hwf as [Hlow Hwf].
    unfold is_high_surrogate, is_low_surrogate in *.
    apply Hpair; [lia|lia|done|]. by apply IH.
  - apply andb_true_iff in Hwf as [Hwf Hrest].
    apply andb_true_iff in Hwf as [Hrange Hlow].
    unfold is_high_surrogate, is_low_surrogate in *.
    apply Hunit; [lia|lia|done|]. by apply IH.
Qed.

Lemma utf8_roundtrip s : well_formed s = true → utf8_slice (utf8_write s) = s.
Proof.
  revert s. apply well_formed_cases; [done|..].
  - intros c s Hc Hs _ IH. cbn [utf8_write].
    unfold is_high_surrogate, is_low_surrogate. decide_tests; cbn [andb].
    all: destruct (Z.lt_ge_cases c 0x80);
      [rewrite utf8_slice_1 by lia; congruence|].
    all: destruct (Z.lt_ge_cases c 0x800);
      [rewrite utf8_slice_2 by lia; congruence|].
    all: rewrite utf8_slice_3 by lia; congruence.
  - intros c d s Hc Hd _ IH. cbn [utf8_write].
    unfold is_high_surrogate, is_low_surrogate. decide_tests; cbn [andb].
    rewrite utf8_slice_4 by lia. congruence.
Qed.

(** ** JSON *)

Lemma json_nested_ind (P : json → Prop) :
  P JNull → (∀ b, P (JBool b)) → (∀ n, P (JNumber n)) → (∀ s, P (JString s)) →
  (∀ items, Forall P items → P (JArray items)) →
  (∀ members, Forall (λ m, P (snd m)) members → P (JObject members)) →
  ∀ v, P v.
Proof.
  intros Hnull Hbool Hnum Hstr Harr Hobj.
  fix IH 1. intros [|b|n|s|items|members].
  - exact Hnull.
  - apply Hbool.
  - apply Hnum.
  - apply Hstr.
  - apply Harr. induction items as [|x items IHitems]; constructor.
    + apply IH.
    + exact IHitems.
  - apply Hobj. induction members as [|[k x] members IHmembers]; constructor.
    + apply IH.
    + exact IHmembers.
Qed.

Lemma digits_app fuel : ∀ n acc rest,
  digits fuel n acc ++ rest = digits fuel n (acc ++ rest).
Proof.
  induction fuel as [|fuel IH]; intros n acc rest; [done|].
  cbn [digits]. destruct (n <? 10); [done|]. by rewrite IH.
Qed.

Lemma is_digit_spec c : is_digit c = true ↔ 48 ≤ c ≤ 57.
Proof.
  unfold is_digit. change (chr "0") with 48. change (chr "9") with 57.
  rewrite andb_true_iff, Z.leb_le, Z.leb_le. done.
Qed.

Lemma parse_digits_digits fuel : ∀ n acc,
  0 ≤ n < 2 ^ Z.of_nat fuel →
  parse_digits 0 (digits fuel n acc) = parse_digits n acc.
Proof.
  induction fuel as [|fuel IH]; intros n acc Hn.
  { change (2 ^ Z.of_nat 0) with 1 in Hn. by replace n with 0 by lia. }
  cbn [digits]. assert (Hd : is_digit (chr "0" + n mod 10) = true).
  { apply is_digit_spec. change (chr "0") with 48. euclid. }
  destruct (Z.ltb_spec n 10).
  - cbn [parse_digits]. rewrite Hd. f_equal. change (chr "0") with 48. euclid.
  - rewrite IH.
    + cbn [parse_digits]. rewrite Hd. f_equal. change (chr "0") with 48. euclid.
    + rewrite Nat2Z.inj_succ, Z.pow_succ_r in Hn by lia.
      assert (0 < 2 ^ Z.of_nat fuel) by (apply Z.pow_pos_nonneg; lia).
      euclid.
Qed.

Lemma digits_head fuel : ∀ n acc,
  0 < n < 2 ^ Z.of_nat fuel →
  ∃ d tl, digits fuel n acc = d :: tl ∧ 49 ≤ d ≤ 57.
Proof.
  induction fuel as [|fuel IH]; intros n acc Hn.
  { change (2 ^ Z.of_nat 0) with 1 in Hn. lia. }
  cbn [digits]. destruct (Z.ltb_spec n 10).
  - eexists _, _. split; [done|]. change (chr "0") with 48. euclid.
  - apply IH. rewrite Nat2Z.inj_succ, Z.pow_succ_r in Hn by lia.
    assert (0 < 2 ^ Z.of_nat fuel) by (apply Z.pow_pos_nonneg; lia).
    euclid.
Qed.

Lemma log2_fuel n : 0 < n → 0 < n < 2 ^ Z.of_nat (S (Z.to_nat (Z.log2 n))).
Proof.
  intros Hn. pose proof (Z.log2_spec n Hn) as [_ H].
  pose proof (Z.log2_nonneg n).
  rewrite Nat2Z.inj_succ, Z2Nat.id by done. lia.
Qed.

Lemma delimited_spec rest :
  delimited rest = true →
  match rest with
  | [] => True
  | c :: _ => c = 44 ∨ c = 93 ∨ c = 125
  end.
Proof.
  destruct rest as [|c rest]; [done|]. unfold delimited.
  change (chr ",") with 44. change (chr "]") with 93. change (chr "}") with 125.
  rewrite !orb_true_iff, !Z.eqb_eq. tauto.
Qed.

Lemma parse_digits_delimited n rest :
  delimited rest = true → parse_digits n rest = (n, rest).
Proof.
  intros Hrest. apply delimited_spec in Hrest.
  destruct rest as [|c rest]; [done|]. cbn [parse_digits].
  destruct (is_digit c) eqn:Hc; [|done]. apply is_digit_spec in Hc. lia.
Qed.

(** The part of [parse_number] after the sign. *)
Lemma parse_natural n rest :
  0 ≤ n → delimited rest = true →
  let s := digits (S (Z.to_nat (Z.log2 n))) n [] ++ rest in
  ∃ d s', s = d :: s' ∧ is_digit d = true ∧
          (if d =? chr "0" then (0, s') else parse_digits 0 s) = (n, rest).
Proof.
  intros Hn Hrest s. subst s. rewrite digits_app. cbn [app].
  destruct (decide (n = 0)) as [->|Hpos].
  - eexists _, _. split; [reflexivity|]. by split.
  - destruct (digits_head _ n rest (log2_fuel n ltac:(lia))) as (d & tl & Hd & Hrange).
    exists d, tl. split; [done|]. split; [by apply is_digit_spec; lia|].
    change (chr "0") with 48. destruct (Z.eqb_spec d 48); [lia|].
    rewrite parse_digits_digits by (pose proof (log2_fuel n); lia).
    by apply parse_digits_delimited.
Qed.

Lemma parse_number_to_string n rest :
  safe_integer n = true →
  delimited rest = true →
  safe_number (number_to_string n ++ rest) = Some (n, rest).
Proof.
  intros Hsafe Hrest. pose proof (delimited_spec rest Hrest) as Hrest'.
  assert (Hfraction : ∀ m : Z, parse_fraction m rest = Some (m, 0, rest)).
  { intros m. destruct rest as [|c rest]; [done|]. unfold parse_fraction.
    change (chr ".") with 46. by destruct (Z.eqb_spec c 46); [lia|]. }
  assert (Hexponent : parse_exponent rest = Some (0, rest)).
  { destruct rest as [|c rest]; [done|]. unfold parse_exponent.
    change (chr "e") with 101. change (chr "E") with 69.
    destruct (Z.eqb_spec c 101); [lia|]. by destruct (Z.eqb_spec c 69); [lia|]. }
  assert (Hvalue : integer_value n (0 - 0) = Some n).
  { unfold integer_value. cbn. f_equal. lia. }
  unfold safe_number, number_to_string, parse_number. destruct (Z.ltb_spec n 0).
  - destruct (parse_natural (- n) rest ltac:(lia) Hrest)
      as (d & s' & Hs & Hd & Hparse).
    cbn [app] in *. rewrite Hs in Hparse |- *. cbv beta iota.
    rewrite Z.eqb_refl, Hd, Hparse, Hfraction, Hexponent.
    replace (- - n) with n by lia. by rewrite Hvalue, Hsafe.
  - destruct (parse_natural n rest ltac:(lia) Hrest)
      as (d & s' & Hs & Hd & Hparse).
    cbn [app] in *. rewrite Hs in Hparse |- *. cbv beta iota.
    apply is_digit_spec in Hd as Hd'. change (chr "-") with 45.
    destruct (Z.eqb_spec d 45); [lia|].
    by rewrite Hd, Hparse, Hfraction, Hexponent, Hvalue, Hsafe.
Qed.

(** Replaces the code units of character literals by their numbers. *)
Ltac chars :=
  repeat match goal with
         | |- context [chr ?a] =>
             let v := eval vm_compute in (chr a) in change (chr a) with v
         end.

Lemma hex_value_hex_digit k : 0 ≤ k < 16 → hex_value (hex_digit k) = Some k.
Proof.
  intros Hk. unfold hex_digit, hex_value, is_digit. chars.
  destruct (Z.ltb_spec k 10).
  - decide_tests. cbn [andb]. f_equal. lia.
  - decide_tests; cbn [andb]; try lia. f_equal. lia.
Qed.

Lemma parse_string_escaped h3 h4 d3 d4 text :
  hex_value h3 = Some d3 → hex_value h4 = Some d4 →
  parse_string (units "\u00" ++ [h3; h4] ++ text)
  = prepend (d3 * 16 + d4) (parse_string text).
Proof. intros H3 H4. cbn. by rewrite H3, H4. Qed.

Lemma parse_string_unit c text :
  0 ≤ c →
  parse_string (quote_unit c ++ text) = prepend c (parse_string text).
Proof.
  intros Hc. unfold quote_unit.
  repeat match goal with
         | |- context [c =? ?k] =>
             destruct (Z.eqb_spec c k) as [->|?]; [reflexivity|]
         end.
  destruct (Z.ltb_spec c 0x20) as [Hlow|Hhigh].
  - rewrite <- (assoc_L (++)).
    rewrite (parse_string_escaped _ _ (c / 16) (c mod 16))
      by (apply hex_value_hex_digit; euclid).
    f_equal. euclid.
  - cbn [app parse_string].
    destruct (Z.eqb_spec c 0x22); [done|]. destruct (Z.eqb_spec c 0x5C); [done|].
    destruct (Z.ltb_spec c 0x20); [lia|done].
Qed.

Lemma parse_string_quote s rest :
  Forall (λ c, 0 ≤ c) s →
  parse_string (concat (quote_unit <$> s) ++ 0x22 :: rest) = Some (s, rest).
Proof.
  induction 1 as [|c s Hc _ IH]; [done|].
  cbn [fmap list_fmap concat]. rewrite <- (assoc_L (++)).
  rewrite parse_string_unit by done. by rewrite IH.
Qed.

(** Settles the tests [c =? k] that the bounds on [c] exclude. *)
Ltac differs c :=
  repeat match goal with
         | |- context [c =? ?k] => destruct (Z.eqb_spec c k); [lia|]
         end.

Lemma number_to_string_head n :
  ∃ c tl, number_to_string n = c :: tl ∧ (c = 45 ∨ 48 ≤ c ≤ 57).
Proof.
  unfold number_to_string. destruct (Z.ltb_spec n 0).
  - eexists _, _. split; [done|]. by left.
  - destruct (parse_natural n [] ltac:(lia) eq_refl) as (d & s' & Hs & Hd & _).
    rewrite app_nil_r in Hs. exists d, s'. split; [done|]. right.
    by apply is_digit_spec.
Qed.

Lemma stringify_head v :
  ∃ c tl, JSON_stringify v = c :: tl ∧ opens_value c.
Proof.
  unfold opens_value.
  destruct v as [|[]|n|s|items|members]; cbn [JSON_stringify];
    try (eexists _, _; split; [reflexivity|]; chars; lia).
  destruct (number_to_string_head n) as (c & tl & -> & Hc).
  eexists _, _. split; [done|]. lia.
Qed.

Lemma skip_ws_value c s : opens_value c → skip_ws (c :: s) = c :: s.
Proof.
  intros Hc. cbn [skip_ws]. unfold is_ws, opens_value in *.
  by differs c.
Qed.

Lemma skip_ws_delimited rest :
  delimited rest = true → skip_ws rest = rest.
Proof.
  intros Hrest. apply delimited_spec in Hrest.
  destruct rest as [|c rest]; [done|]. cbn [skip_ws]. unfold is_ws.
  by differs c.
Qed.

Lemma parse_value_number fuel c s :
  c = 45 ∨ 48 ≤ c ≤ 57 →
  parse_value safe_number (S fuel) (c :: s) =
    match safe_number (c :: s) with
    | Some (n, rest) => Some (JNumber n, rest)
    | None => None
    end.
Proof.
  intros Hc. cbn [parse_value]. rewrite skip_ws_value by (unfold opens_value; lia).
  chars. by differs c.
Qed.

Lemma parse_value_array fuel c s :
  opens_value c →
  parse_value safe_number (S fuel) (91 :: c :: s) =
    match parse_elements safe_number fuel (c :: s) with
    | Some (items, rest) => Some (JArray items, rest)
    | None => None
    end.
Proof.
  intros Hc. cbn [parse_value]. rewrite (skip_ws_value 91) by (unfold opens_value; lia).
  chars. cbn [Z.eqb Pos.eqb]. rewrite skip_ws_value by done.
  unfold opens_value in Hc. by differs c.
Qed.

Lemma parse_value_object fuel s :
  parse_value safe_number (S fuel) (123 :: 34 :: s) =
    match parse_members safe_number fuel (34 :: s) with
    | Some (members, rest) => Some (JObject (build_object members), rest)
    | None => None
    end.
Proof. reflexivity. Qed.

Lemma parse_elements_step fuel s :
  parse_elements safe_number (S fuel) s =
    match parse_value safe_number fuel s with
    | Some (v, rest) =>
        match skip_ws rest with
        | c :: r =>
            if c =? 44 then
              match parse_elements safe_number fuel r with
              | Some (vs, rest') => Some (v :: vs, rest')
              | None => None
              end
            else if c =? 93 then Some ([v], r)
            else None
        | [] => None
        end
    | None => None
    end.
Proof. reflexivity. Qed.

Lemma parse_members_step fuel s :
  parse_members safe_number (S fuel) (34 :: s) =
    match parse_string s with
    | Some (k, rest) =>
        match skip_ws rest with
        | c' :: r' =>
            if c' =? 58 then
              match parse_value safe_number fuel r' with
              | Some (v, rest') =>
                  match skip_ws rest' with
                  | c'' :: r'' =>
                      if c'' =? 44 then
                        match parse_members safe_number fuel r'' with
                        | Some (ms, rest'') => Some ((k, v) :: ms, rest'')
                        | None => None
                        end
                      else if c'' =? 125 then Some ([(k, v)], r'')
                      else None
                  | [] => None
                  end
              | None => None
              end
            else None
        | [] => None
        end
    | None => None
    end.
Proof. reflexivity. Qed.

Lemma join_units_cons sep p q parts :
  join_units sep (p :: q :: parts) = p ++ sep ++ join_units sep (q :: parts).
Proof. reflexivity. Qed.

Lemma set_member_fresh k v members :
  k ∉ members.*1 → set_member k v members = members ++ [(k, v)].
Proof.
  induction members as [|[k' v'] members IH]; cbn; [done|].
  rewrite not_elem_of_cons. intros [Hne Hnotin].
  rewrite bool_decide_eq_false_2 by done. by rewrite IH.
Qed.

Lemma build_object_distinct members :
  NoDup members.*1 → build_object members = members.
Proof.
  unfold build_object.
  assert (H : ∀ acc, NoDup (acc ++ members).*1 →
            foldl (λ ms m, set_member m.1 m.2 ms) acc members = acc ++ members).
  { induction members as [|[k v] members IH]; intros acc Hnd; cbn.
    - by rewrite app_nil_r.
    - rewrite set_member_fresh.
      + rewrite IH; rewrite <- (assoc_L (++)); done.
      + rewrite fmap_app in Hnd. apply NoDup_app in Hnd as (_ & Hdisj & _).
        intros Hin. apply (Hdisj _ Hin). cbn. by left. }
  intros Hnd. by apply (H []).
Qed.

Lemma well_formed_nonneg s : well_formed s = true → Forall (λ c, 0 ≤ c) s.
Proof.
  revert s. apply well_formed_cases; [constructor|..]; intros;
    repeat constructor; (lia || done).
Qed.

Section round_trip.
Let round_trips (v : json) : Prop :=
  ∀ fuel rest, (json_size v ≤ fuel)%nat → representable v = true →
               delimited rest = true →
               parse_value safe_number fuel (JSON_stringify v ++ rest) = Some (v, rest).

Lemma parse_elements_join xs : ∀ x fuel rest,
  round_trips x → Forall round_trips xs →
  (list_sum (map (λ y, S (json_size y)) (x :: xs)) ≤ fuel)%nat →
  forallb representable (x :: xs) = true →
  delimited rest = true →
  parse_elements safe_number fuel
    (join_units [44] (map JSON_stringify (x :: xs)) ++ 93 :: rest)
  = Some (x :: xs, rest).
Proof.
  induction xs as [|y ys IH]; intros x fuel rest Hx Hxs Hfuel Hrep Hrest;
    (destruct fuel as [|fuel]; [cbn in Hfuel; lia|]);
    cbn [forallb] in Hrep; apply andb_true_iff in Hrep as [Hrepx Hrep];
    unfold list_sum in *; cbn [map fold_right] in Hfuel; rewrite parse_elements_step.
  - cbn [map join_units]. rewrite Hx; [|lia|done|done].
    by rewrite skip_ws_delimited.
  - change (map JSON_stringify (x :: y :: ys))
      with (JSON_stringify x :: JSON_stringify y :: map JSON_stringify ys).
    rewrite join_units_cons, <- !(assoc_L (++)).
    change (JSON_stringify y :: map JSON_stringify ys)
      with (map JSON_stringify (y :: ys)).
    rewrite Hx; [|lia|done|done]. cbn [app].
    rewrite skip_ws_delimited by reflexivity.
    apply Forall_cons in Hxs as [Hy Hys].
    change (44 =? 44) with true. cbv iota.
    rewrite (IH y fuel rest); [done|done|done| |done|done].
    cbn [map fold_right]. lia.
Qed.

Lemma parse_members_join ms : ∀ m fuel rest,
  round_trips m.2 → Forall (λ m, round_trips m.2) ms →
  (list_sum (map (λ m, S (json_size m.2)) (m :: ms)) ≤ fuel)%nat →
  forallb (λ m, well_formed m.1 && representable m.2) (m :: ms) = true →
  delimited rest = true →
  parse_members safe_number fuel
    (join_units [44]
       (map (λ m, quote m.1 ++ [58] ++ JSON_stringify m.2) (m :: ms))
     ++ 125 :: rest)
  = Some (m :: ms, rest).
Proof.
  induction ms as [|m' ms IH]; intros [k v] fuel rest Hv Hms Hfuel Hrep Hrest;
    (destruct fuel as [|fuel]; [cbn in Hfuel; lia|]);
    cbn [forallb fst snd] in Hrep; apply andb_true_iff in Hrep as [Hrepm Hrep];
    apply andb_true_iff in Hrepm as [Hk Hrepv];
    unfold list_sum in *; cbn [map fold_right fst snd] in Hfuel; cbn [fst snd] in Hv.
  - cbn [map join_units fst snd]. unfold quote.
    cbn [app]. rewrite <- !(assoc_L (++)). cbn [app].
    rewrite parse_members_step.
    rewrite parse_string_quote by by apply well_formed_nonneg.
    change (skip_ws (58 :: ?s)) with (58 :: s).
    change (58 =? 58) with true. cbv iota.
    rewrite Hv; [|lia|done|done]. by rewrite skip_ws_delimited.
  - set (text := λ m : list Z * json, quote m.1 ++ [58] ++ JSON_stringify m.2).
    change (map text ((k, v) :: m' :: ms))
      with ((quote k ++ [58] ++ JSON_stringify v) :: text m' :: map text ms).
    rewrite join_units_cons.
    change (text m' :: map text ms) with (map text (m' :: ms)).
    unfold quote at 1. cbn [app]. rewrite <- !(assoc_L (++)). cbn [app].
    rewrite parse_members_step.
    rewrite parse_string_quote by by apply well_formed_nonneg.
    change (skip_ws (58 :: ?s)) with (58 :: s).
    change (58 =? 58) with true. cbv iota.
    rewrite Hv; [|lia|done|done]. rewrite skip_ws_delimited by reflexivity.
    change (44 =? 44) with true. cbv iota.
    apply Forall_cons in Hms as [Hm' Hms]. subst text.
    rewrite (IH m' fuel rest); [done|done|done| |done|done].
    cbn [map fold_right]. lia.
Qed.
End round_trip.

Lemma bracket_app (a b : Z) (inner rest : list Z) :
  ([a] ++ inner ++ [b]) ++ rest = a :: (inner ++ b :: rest).
Proof. cbn [app]. by rewrite <- (assoc_L (++)). Qed.

Lemma parse_value_stringify v : ∀ fuel rest,
  (json_size v ≤ fuel)%nat → representable v = true → delimited rest = true →
  parse_value safe_number fuel (JSON_stringify v ++ rest) = Some (v, rest).
Proof.
  induction v as [|b|n|s|items IH|members IH] using json_nested_ind;
    intros fuel rest Hfuel Hrep Hrest;
    (destruct fuel as [|fuel]; [cbn in Hfuel; lia|]).
  - reflexivity.
  - by destruct b.
  - cbn [JSON_stringify].
    destruct (number_to_string_head n) as (c & tl & Hn & Hc).
    pose proof (parse_number_to_string n rest Hrep Hrest) as Hparse.
    rewrite Hn in Hparse |- *. cbn [app] in *.
    by rewrite parse_value_number, Hparse.
  - cbn [JSON_stringify representable] in *. unfold quote.
    cbn [app]. rewrite <- (assoc_L (++)). cbn [app].
    change (parse_value safe_number (S fuel) (34 :: ?text))
      with (match parse_string text with
            | Some (str, rest) => Some (JString str, rest)
            | None => None
            end).
    by rewrite parse_string_quote by by apply well_formed_nonneg.
  - cbn [JSON_stringify representable json_size] in *.
    change (units "[") with [91]. change (units "]") with [93].
    change (units ",") with [44]. rewrite bracket_app.
    destruct items as [|x xs]; [reflexivity|].
    apply Forall_cons in IH as [Hx Hxs].
    destruct (stringify_head x) as (c & tl & Hhead & Hc).
    assert (Hjoin : ∃ tl', join_units [44] (map JSON_stringify (x :: xs))
                           ++ 93 :: rest = c :: tl').
    { destruct xs; cbn [map join_units]; rewrite Hhead; by eexists. }
    destruct Hjoin as [tl' Hjoin].
    pose proof (parse_elements_join xs x fuel rest Hx Hxs) as Hparse.
    rewrite Hjoin in Hparse |- *.
    rewrite parse_value_array, Hparse; [done|lia|done|done|done].
  - cbn [JSON_stringify representable json_size] in *.
    apply andb_true_iff in Hrep as [Hnodup Hrep].
    apply bool_decide_eq_true in Hnodup.
    change (units "{") with [123]. change (units "}") with [125].
    change (units ",") with [44]. change (units ":") with [58].
    rewrite bracket_app.
    destruct members as [|m ms]; [reflexivity|].
    apply Forall_cons in IH as [Hm Hms].
    assert (Hjoin : ∃ tl', join_units [44]
                             (map (λ m, quote m.1 ++ [58] ++ JSON_stringify m.2)
                                (m :: ms))
                           ++ 125 :: rest = 34 :: tl').
    { destruct ms; cbn [map join_units]; unfold quote at 1; by eexists. }
    destruct Hjoin as [tl' Hjoin].
    pose proof (parse_members_join ms m fuel rest Hm Hms) as Hparse.
    rewrite Hjoin in Hparse |- *.
    rewrite parse_value_object, Hparse; [|lia|done|done].
    by rewrite build_object_distinct.
Qed.

Lemma length_join_units (parts : list (list Z)) :
  (list_sum (map (λ p, S (length p)) parts)
   ≤ S (length (join_units [44%Z] parts)))%nat.
Proof.
  unfold list_sum.
  induction parts as [|p [|q parts] IH]; cbn [map fold_right join_units] in *.
  - lia.
  - lia.
  - rewrite !length_app. cbn [length]. lia.
Qed.

Lemma size_le_length v : (json_size v ≤ length (JSON_stringify v))%nat.
Proof.
  induction v as [|b|n|s|items IH|members IH] using json_nested_ind.
  - cbn. lia.
  - destruct b; cbn; lia.
  - destruct (number_to_string_head n) as (c & tl & Hn & _).
    cbn [json_size JSON_stringify]. rewrite Hn. cbn. lia.
  - cbn. lia.
  - cbn [json_size JSON_stringify]. change (units ",") with [44].
    rewrite !length_app. cbn [length units].
    pose proof (length_join_units (map JSON_stringify items)) as Hlen.
    rewrite map_map in Hlen.
    assert (list_sum (map (λ x, S (json_size x)) items)
            ≤ list_sum (map (λ x, S (length (JSON_stringify x))) items))%nat.
    { unfold list_sum.
      clear Hlen. induction IH as [|x xs Hx _ IHxs]; cbn [map fold_right]; lia. }
    lia.
  - cbn [json_size JSON_stringify]. change (units ",") with [44].
    change (units "{") with [123]. change (units "}") with [125].
    rewrite !length_app. cbn [length].
    pose proof (length_join_units
                  (map (λ m, quote m.1 ++ units ":" ++ JSON_stringify m.2) members))
      as Hlen.
    rewrite map_map in Hlen.
    assert (list_sum (map (λ m, S (json_size m.2)) members)
            ≤ list_sum (map (λ m, S (length (quote m.1 ++ units ":"
                                             ++ JSON_stringify m.2))) members))%nat.
    { unfold list_sum. clear Hlen.
      induction IH as [|x xs Hx _ IHxs]; cbn [map fold_right].
      - lia.
      - rewrite !length_app. lia. }
    lia.
Qed.

Lemma JSON_parse_stringify v :
  representable v = true → JSON_parse (JSON_stringify v) = Some (Exact v).
Proof.
  intros Hrep. unfold JSON_parse, parse_text.
  pose proof (parse_value_stringify v (S (length (JSON_stringify v))) [])
    as Hparse.
  rewrite app_nil_r in Hparse. rewrite Hparse; [done| |done|done].
  pose proof (size_le_length v). lia.
Qed.

(** ** Well-formed texts *)

Lemma well_formed_unit c s :
  0 ≤ c < 0x10000 → ¬ (0xD800 ≤ c ≤ 0xDFFF) →
  well_formed (c :: s) = well_formed s.
Proof.
  intros Hc Hs. cbn [well_formed]. unfold is_high_surrogate, is_low_surrogate.
  decide_tests; cbn [andb negb]; done.
Qed.

Lemma well_formed_pair c d s :
  0xD800 ≤ c ≤ 0xDBFF → 0xDC00 ≤ d ≤ 0xDFFF →
  well_formed (c :: d :: s) = well_formed s.
Proof.
  intros Hc Hd. cbn [well_formed]. unfold is_high_surrogate, is_low_surrogate.
  decide_tests; cbn [andb negb]; done.
Qed.

Lemma well_formed_plain_app a s :
  Forall (λ c, 0 ≤ c < 0xD800) a → well_formed (a ++ s) = well_formed s.
Proof.
  induction 1 as [|c a Hc _ IH]; [done|].
  cbn [app]. by rewrite well_formed_unit by lia.
Qed.

Lemma well_formed_app a s :
  well_formed a = true → well_formed s = true → well_formed (a ++ s) = true.
Proof.
  intros Ha Hs. revert a Ha.
  apply well_formed_cases; [done|..]; intros; cbn [app].
  - by rewrite well_formed_unit.
  - by rewrite well_formed_pair.
Qed.

Lemma hex_digit_plain k : 0 ≤ k < 16 → 0 ≤ hex_digit k < 0xD800.
Proof. intros Hk. unfold hex_digit. chars. destruct (k <? 10); lia. Qed.

Lemma well_formed_quote_unit c s :
  0 ≤ c < 0x10000 → ¬ (0xD800 ≤ c ≤ 0xDFFF) →
  well_formed (quote_unit c ++ s) = well_formed s.
Proof.
  intros Hc Hs. unfold quote_unit.
  repeat match goal with
         | |- context [c =? ?k] =>
             destruct (Z.eqb_spec c k) as [->|?]; [reflexivity|]
         end.
  destruct (Z.ltb_spec c 0x20).
  - apply well_formed_plain_app.
    apply Forall_app. split; [by repeat constructor|].
    repeat constructor; apply hex_digit_plain; euclid.
  - by apply well_formed_unit.
Qed.

Lemma well_formed_quoted s t :
  well_formed s = true → well_formed t = true →
  well_formed (concat (quote_unit <$> s) ++ t) = true.
Proof.
  intros Hs Ht. revert s Hs.
  apply well_formed_cases; [done|..]; intros; cbn [fmap list_fmap concat].
  - rewrite <- (assoc_L (++)). by rewrite well_formed_quote_unit.
  - assert (Hraw : ∀ u, 0xD800 ≤ u → quote_unit u = [u]).
    { intros u Hu. unfold quote_unit.
      repeat match goal with
             | |- context [u =? ?k] => destruct (Z.eqb_spec u k); [lia|]
             end.
      by destruct (Z.ltb_spec u 0x20); [lia|]. }
    rewrite !Hraw by lia. cbn [app]. by rewrite well_formed_pair.
Qed.

Lemma well_formed_quote s :
  well_formed s = true → well_formed (quote s) = true.
Proof.
  intros Hs. unfold quote. rewrite well_formed_unit by lia.
  by apply well_formed_quoted.
Qed.

Lemma digits_plain fuel : ∀ n acc,
  Forall (λ c, 0 ≤ c < 0xD800) acc →
  Forall (λ c, 0 ≤ c < 0xD800) (digits fuel n acc).
Proof.
  induction fuel as [|fuel IH]; intros n acc Hacc; [done|].
  cbn [digits].
  assert (Forall (λ c, 0 ≤ c < 0xD800) ((chr "0" + n mod 10) :: acc)).
  { constructor; [|done]. chars. euclid. }
  destruct (n <? 10); [done|]. by apply IH.
Qed.

Lemma well_formed_number n : well_formed (number_to_string n) = true.
Proof.
  unfold number_to_string.
  destruct (n <? 0); [rewrite well_formed_unit by (chars; lia)|];
    rewrite <- (app_nil_r (digits _ _ _)), well_formed_plain_app;
    try done; by apply digits_plain.
Qed.

Lemma well_formed_join parts :
  Forall (λ p, well_formed p = true) parts →
  well_formed (join_units [44] parts) = true.
Proof.
  induction 1 as [|p [|q parts] Hp _ IH]; cbn [join_units]; [done..|].
  apply well_formed_app; [done|]. cbn [app]. by rewrite well_formed_unit by lia.
Qed.

Lemma forallb_Forall {A} (f : A → bool) (l : list A) :
  forallb f l = true → Forall (λ x, f x = true) l.
Proof.
  induction l as [|x l IH]; cbn; [constructor|].
  intros [Hx Hl]%andb_true_iff. constructor; auto.
Qed.

Lemma Forall_modus_ponens {A} (P Q : A → Prop) (l : list A) :
  Forall (λ x, P x → Q x) l → Forall P l → Forall Q l.
Proof.
  induction 1 as [|x l Hx _ IH]; intros Hl; [constructor|].
  apply Forall_cons in Hl as [HP Hl]. constructor; auto.
Qed.

Lemma well_formed_stringify v :
  representable v = true → well_formed (JSON_stringify v) = true.
Proof.
  induction v as [|b|n|s|items IH|members IH] using json_nested_ind;
    intros Hrep; cbn [JSON_stringify representable] in *.
  - reflexivity.
  - by destruct b.
  - apply well_formed_number.
  - by apply well_formed_quote.
  - change (units "[") with [91]. change (units "]") with [93].
    change (units ",") with [44]. cbn [app]. rewrite well_formed_unit by lia.
    apply well_formed_app; [|done]. apply well_formed_join.
    apply Forall_fmap. apply forallb_Forall in Hrep.
    by apply (Forall_modus_ponens _ _ _ IH).
  - apply andb_true_iff in Hrep as [_ Hrep].
    change (units "{") with [123]. change (units "}") with [125].
    change (units ",") with [44]. change (units ":") with [58].
    cbn [app]. rewrite well_formed_unit by lia.
    apply well_formed_app; [|done]. apply well_formed_join.
    apply Forall_fmap. apply forallb_Forall in Hrep.
    eapply Forall_modus_ponens; [|exact Hrep].
    eapply Forall_impl; [exact IH|]. cbn. intros [k x] Hx Hr. cbn [fst snd] in *.
    apply andb_true_iff in Hr as [Hk Hr].
    apply well_formed_app; [by apply well_formed_quote|].
    rewrite well_formed_unit by lia. by apply Hx.
Qed.

(** ** The built-in serializers *)




(** What [JSON.parse] makes of numbers: a text that denotes a safe integer
    is read as that integer, however it is written; any other number is
    read, with its value left open; and a text that is not JSON is
    refused. *)
Lemma JSON_parse_numbers :
  JSON_parse (units "[1, -20, 1.0, 1e2, 250e-1]")
    = Some (Exact (JArray [JNumber 1; JNumber (-20); JNumber 1; JNumber 100;
                           JNumber 25])) ∧
  JSON_parse (units "[true, 1.5]") = Some Inexact ∧
  JSON_parse (units "9007199254740993") = Some Inexact ∧
  JSON_parse (units "01") = None ∧
  JSON_parse (units "1.") = None ∧
  JSON_parse (units "[1.5") = None.
Proof. by vm_compute. Qed.

(** * Further properties of the facade *)

(** ** Publishing *)

Lemma or_string_Some s d : s ≠ "" → or_string (Some s) d = s.
Proof.
  intros Hs. unfold or_string. by destruct (String.eqb_spec s "").
Qed.

Lemma or_string_falsy d :
  or_string None d = d ∧ or_string (Some "") d = d.
Proof. done. Qed.

Lemma or_string_idem s d : or_string (Some (or_string s d)) d = or_string s d.
Proof.
  unfold or_string. destruct s as [s|].
  - destruct (String.eqb s "") eqn:E; [by destruct (String.eqb d "")|by rewrite E].
  - by destruct (String.eqb d "").
Qed.

Lemma publish_tail x o name w :
  or_string (Some name) "default" = name →
  (let '(options, connectionName) := (o, name) in
   b <- this ;;
   match connections b !! connectionName with
   | None => throw (TypeError "this.connections[connectionName] is undefined")
   | Some t =>
       let connection := topo_options t in
       let options :=
         if truthy_number (opt_publishTimeout connection)
         then set_publishTimeout (opt_publishTimeout connection) options
         else options in
       exchange <- getExchange x (Some connectionName) ;;
       match exchange with
       | None => throw (TypeError "getExchange(...) is undefined")
       | Some x =>
           effect (E_exchangePublish x options) >> ret (P_publishing x options)
       end
   end) w = published x o name w.
Proof.
  intros Hname. unfold published, getExchange. run. rewrite Hname.
  destruct (connections (broker w) !! name) as [t|] eqn:Ht; rewrite ?Ht; [|done].
  by destruct (channels t !! _).
Qed.

(** The positional form with a message object. *)
Lemma publish_positional now x type mc body r k c s w :
  let name := or_string c (or_string mc "default") in
  publish now x (TypeName type) (MessageObject mc body) r k c s w =
  published x (mkPublishOptions None type body r k s (Some now) (Some ∅)
                 (Some name) None None) name w.
Proof.
  intros name.
  assert (Hname : or_string (Some name) "default" = name).
  { subst name. destruct c as [c|]; [destruct (String.eqb_spec c "") as [->|Hc]|].
    - rewrite (proj2 (or_string_falsy _)). apply or_string_idem.
    - rewrite (or_string_Some c) by done. by apply or_string_Some.
    - rewrite (proj1 (or_string_falsy _)). apply or_string_idem. }
  rewrite <- publish_tail by done. unfold publish. subst name.
  destruct c as [c|]; [destruct (String.eqb_spec c "") as [->|Hc]|].
  - by run.
  - rewrite (or_string_Some c) by done. run.
    by destruct (String.eqb_spec c "").
  - by run.
Qed.

(** The other forms: either the message has no [connectionName] to read
    and the call throws, or it goes on with some options and a name. *)
Lemma publish_cases now x type message r k c s w :
  publish now x type message r k c s w = (Throw (TypeError "message is undefined"), w) ∨
  ∃ o name, publish now x type message r k c s w = published x o name w.
Proof.
  destruct type as [type|options].
  - destruct message as [|body|mc body].
    + destruct c as [c|]; [destruct (String.eqb_spec c "") as [->|Hc]|].
      * by left.
      * right. eexists _, c. rewrite <- publish_tail by (by apply or_string_Some).
        unfold publish. run. by destruct (String.eqb_spec c "").
      * by left.
    + right.
      exists (mkPublishOptions None type (V_str body) r k s (Some now) (Some ∅)
                (Some (or_string c "default")) None None), (or_string c "default").
      rewrite <- publish_tail by apply or_string_idem. unfold publish.
      destruct c as [c|]; [destruct (String.eqb_spec c "") as [->|Hc]|].
      * by run.
      * rewrite (or_string_Some c) by done. run.
        by destruct (String.eqb_spec c "").
      * by run.
    + right. eexists _, _. apply publish_positional.
  - right.
    set (name := match message with
                 | MessageUndefined => or_string (po_connectionName options) "default"
                 | MessageString s =>
                     if String.eqb s ""
                     then or_string (po_connectionName options) "default" else s
                 | MessageObject _ _ => "[object Object]"
                 end).
    assert (Hname : or_string (Some name) "default" = name).
    { subst name. destruct message as [|body|mc body]; [apply or_string_idem| |done].
      destruct (String.eqb_spec body ""); [apply or_string_idem|by apply or_string_Some]. }
    exists options, name. rewrite <- publish_tail by done. by run.
Qed.

(** X1: [publish] is all or nothing.  Whatever its arguments and the state,
    either it throws a TypeError and leaves the state as it was (nothing
    reached an exchange), or it made exactly one call, [publish] of the
    exchange registered as "exchange:<name>" on one registered connection,
    and returned the promise of that call; the published options carry the
    [publishTimeout] of that connection whenever it is truthy. *)
Theorem publish_all_or_nothing
    (now : Z) (exchangeName : string) (type : TypeArg) (message : MessageArg)
    (routingKey correlationId connectionName : option string)
    (sequenceNo : option Z) (w : World) :
  match publish now exchangeName type message routingKey correlationId
          connectionName sequenceNo w with
  | (Throw e, w') => w' = w ∧ ∃ text, e = TypeError text
  | (Ok p, w') =>
      ∃ name t x o,
        connections (broker w) !! name = Some t ∧
        channels t !! ("exchange:" +:+ exchangeName) = Some x ∧
        p = P_publishing x o ∧
        w' = with_log (λ l, l ++ [E_exchangePublish x o]) w ∧
        (truthy_number (opt_publishTimeout (topo_options t)) = true →
         po_connectionPublishTimeout o = opt_publishTimeout (topo_options t))
  end.
Proof.
  destruct (publish_cases now exchangeName type message routingKey correlationId
              connectionName sequenceNo w) as [->|(o & name & ->)]; [by eauto|].
  unfold published.
  destruct (connections (broker w) !! name) as [t|] eqn:Ht; [|by eauto].
  destruct (channels t !! _) as [x|] eqn:Hx; [|by eauto].
  eexists name, t, x, _. repeat split; try done.
  by intros ->.
Qed.

(** X2: the positional form [publish( exchange, type, message, routingKey,
    correlationId, connectionName, sequenceNo )] with a message object.  The
    connection is the explicit argument if truthy, else the message's own
    [connectionName] if truthy, else "default".  When that connection has
    the exchange, the call publishes the record of lines 236-246, field by
    field: [this.appId], which is never assigned, as [appId]; the arguments
    [type], [routingKey], [correlationId] and [sequenceNo]; the whole
    message as body; [Date.now()] as timestamp; an empty object as
    [headers]; the resolved connection name; no [messageId]; and, added by
    line 250, the connection's [publishTimeout] if truthy. *)
Theorem publish_positional_record
    (now : Z) (exchangeName : string) (type : option string)
    (message_connectionName : option string) (body : JsVal)
    (routingKey correlationId connectionName : option string)
    (sequenceNo : option Z) (w : World) (t : Topology) (x : Channel) :
  let name := or_string connectionName (or_string message_connectionName "default") in
  connections (broker w) !! name = Some t →
  channels t !! ("exchange:" +:+ exchangeName) = Some x →
  let o := mkPublishOptions None type body routingKey correlationId sequenceNo
             (Some now) (Some ∅) (Some name) None
             (if truthy_number (opt_publishTimeout (topo_options t))
              then opt_publishTimeout (topo_options t) else None) in
  publish now exchangeName (TypeName type)
    (MessageObject message_connectionName body) routingKey correlationId
    connectionName sequenceNo w =
  (Ok (P_publishing x o), with_log (λ l, l ++ [E_exchangePublish x o]) w).
Proof.
  intros name Ht Hx o. rewrite publish_positional. fold name.
  unfold published. rewrite Ht, Hx. subst o. cbn zeta.
  by destruct (truthy_number _).
Qed.

Lemma publish_positional_record_witness :
  let w := run_ops [Op_addConnection (Some (mkConnOptions (Some "rpc") None None (Some 250)));
                    Op_addExchange (ExchangeNamed "orders") (Some "topic")
                      (Some (mkExchangeDef "" None)) (Some "rpc")] initial_world in
  result (publish 1700 "orders" (TypeName (Some "placed"))
            (MessageObject (Some "rpc") (V_str "a")) (Some "k") None None None) w =
  Ok (P_publishing (mkChannel ExchangeChannel "orders")
        (mkPublishOptions None (Some "placed") (V_str "a") (Some "k") None None
           (Some 1700) (Some ∅) (Some "rpc") None (Some 250))).
Proof.
  intros w. unfold result.
  rewrite (publish_positional_record 1700 "orders" (Some "placed") (Some "rpc")
             (V_str "a") (Some "k") None None None w
             (mkTopology "rpc" (Some (mkConnection 3 "rpc"))
                (mkConnOptions (Some "rpc") (Some 3) (Some 60) (Some 250))
                {["exchange:orders" := mkChannel ExchangeChannel "orders"]})
             (mkChannel ExchangeChannel "orders")).
  - reflexivity.
  - vm_compute. reflexivity.
  - vm_compute. reflexivity.
Defined.

(** X3: a positional [publish] without a message.  The fallback
    [connectionName || message.connectionName] reads a property of the
    message, so with no connection name (undefined or empty) the call throws
    a TypeError in every state, also when the default connection and the
    exchange exist; with a connection name the same call publishes, with an
    undefined body. *)
Theorem publish_without_message
    (now : Z) (exchangeName : string) (type : option string)
    (routingKey correlationId : option string) (sequenceNo : option Z)
    (w : World) :
  let call := publish now exchangeName (TypeName type) MessageUndefined
                routingKey correlationId in
  call None sequenceNo w = (Throw (TypeError "message is undefined"), w) ∧
  call (Some "") sequenceNo w = (Throw (TypeError "message is undefined"), w) ∧
  ∀ name t x,
    name ≠ "" →
    connections (broker w) !! name = Some t →
    channels t !! ("exchange:" +:+ exchangeName) = Some x →
    ∃ o, result (call (Some name) sequenceNo) w = Ok (P_publishing x o) ∧
         po_body o = V_undefined ∧ po_connectionName o = Some name.
Proof.
  intros call. split; [done|]. split; [done|].
  intros name t x Hname Ht Hx. subst call. unfold result.
  pose proof (publish_tail exchangeName
    (mkPublishOptions None type V_undefined routingKey correlationId sequenceNo
       (Some now) (Some ∅) (Some name) None None) name w
    (or_string_Some name _ Hname)) as H.
  unfold published in H. rewrite Ht, Hx in H.
  unfold publish. run. destruct (String.eqb_spec name ""); [done|].
  cbn [message_body]. unfold bind, this, throw, effect, modify, ret in H.
  rewrite H. eexists. split; [done|]. by destruct (truthy_number _).
Qed.

(** X17: the options form [publish( exchange, options, connectionName )].
    The third argument, if truthy, names the connection, else the options'
    own [connectionName], else "default".  When that connection has the
    exchange, the caller's options are what is published: no timestamp is
    stamped, the routing key, correlation id, connection name and sequence
    number passed as further arguments are not used, and [connectionName]
    in the options stays as the caller set it, also when the third argument
    chose another connection.  Only the connection's truthy
    [publishTimeout] is added. *)
Theorem publish_options_form
    (now : Z) (exchangeName : string) (options : PublishOptions)
    (connection : option string)
    (routingKey correlationId connectionName : option string)
    (sequenceNo : option Z) (w : World) (t : Topology) (x : Channel) :
  let message := match connection with
                 | Some name => MessageString name
                 | None => MessageUndefined
                 end in
  let name := or_string connection (or_string (po_connectionName options) "default") in
  connections (broker w) !! name = Some t →
  channels t !! ("exchange:" +:+ exchangeName) = Some x →
  let o := if truthy_number (opt_publishTimeout (topo_options t))
           then set_publishTimeout (opt_publishTimeout (topo_options t)) options
           else options in
  publish now exchangeName (TypeOptions options) message routingKey correlationId
    connectionName sequenceNo w =
  (Ok (P_publishing x o), with_log (λ l, l ++ [E_exchangePublish x o]) w) ∧
  po_connectionName o = po_connectionName options ∧
  po_timestamp o = po_timestamp options ∧
  po_routingKey o = po_routingKey options.
Proof.
  intros message name Ht Hx o.
  assert (Hname : or_string (Some name) "default" = name).
  { subst name. destruct connection as [c|];
      [destruct (String.eqb_spec c "") as [->|Hc]|].
    - rewrite (proj2 (or_string_falsy _)). apply or_string_idem.
    - rewrite (or_string_Some c) by done. by apply or_string_Some.
    - rewrite (proj1 (or_string_falsy _)). apply or_string_idem. }
  split; [|by subst o; destruct (truthy_number _)].
  transitivity (published exchangeName options name w).
  - rewrite <- publish_tail by done. unfold publish. subst message name.
    destruct connection as [c|]; [|by run].
    destruct (String.eqb_spec c "") as [->|Hc]; [by run|].
    rewrite (or_string_Some c) by done. run.
    by destruct (String.eqb_spec c "").
  - unfold published. by rewrite Ht, Hx.
Qed.

Lemma publish_options_form_witness :
  let w := run_ops [Op_addConnection (Some (mkConnOptions (Some "rpc") None None None));
                    Op_addExchange (ExchangeNamed "orders") (Some "topic")
                      (Some (mkExchangeDef "" None)) (Some "rpc")] initial_world in
  let options := mkPublishOptions None (Some "placed") (V_str "a") (Some "k") None
                   None None None (Some "other") None None in
  result (publish 1700 "orders" (TypeOptions options) (MessageString "rpc")
            (Some "unused") None (Some "unused") None) w =
  Ok (P_publishing (mkChannel ExchangeChannel "orders") options).
Proof.
  intros w options.
  pose (t := mkTopology "rpc" (Some (mkConnection 3 "rpc"))
               (mkConnOptions (Some "rpc") (Some 3) (Some 60) None)
               {["exchange:orders" := mkChannel ExchangeChannel "orders"]}).
  assert (Ht : connections (broker w) !! "rpc" = Some t)
    by (vm_compute; reflexivity).
  assert (Hx : channels t !! "exchange:orders"
               = Some (mkChannel ExchangeChannel "orders"))
    by (vm_compute; reflexivity).
  unfold result.
  rewrite (proj1 (publish_options_form 1700 "orders" options (Some "rpc")
                    (Some "unused") None (Some "unused") None w t _ Ht Hx)).
  reflexivity.
Defined.

(** ** The acknowledgement timer *)

Lemma timers_modify f :
  (∀ w, timers (f w) = timers w) →
  (∀ w, ackIntervalId (broker (f w)) = ackIntervalId (broker w)) →
  preserves timer_recorded (modify f).
Proof.
  intros Ht Hb w Hw id ms. unfold exec, modify. cbn. rewrite Ht, Hb. apply Hw.
Qed.

Lemma timers_fresh : preserves timer_recorded fresh.
Proof. by intros w. Qed.

Lemma clearAckInterval_runs w :
  timer_recorded w →
  timers (exec clearAckInterval w) = ∅ ∧
  broker (exec clearAckInterval w) = broker w.
Proof.
  intros Hw. unfold exec, clearAckInterval. run.
  destruct (ackIntervalId (broker w)) as [id|] eqn:Hid; cbn; rewrite ?Hid; cbn;
    (split; [|done]).
  - apply map_empty. intros i. apply lookup_delete_None.
    destruct (decide (id = i)) as [|Hne]; [by left|right].
    destruct (timers w !! i) as [ms|] eqn:Hi; [|done].
    specialize (Hw i ms Hi). congruence.
  - apply map_empty. intros i.
    destruct (timers w !! i) as [ms|] eqn:Hi; [|done].
    specialize (Hw i ms Hi). congruence.
Qed.

Lemma timers_clearAckInterval : preserves timer_recorded clearAckInterval.
Proof.
  intros w Hw id ms. destruct (clearAckInterval_runs w Hw) as [-> _].
  by rewrite lookup_empty.
Qed.

Lemma setAckInterval_runs interval w :
  timer_recorded w →
  ∃ id, ackIntervalId (broker (exec (setAckInterval interval) w)) = Some id ∧
        timers (exec (setAckInterval interval) w) = {[id := interval]}.
Proof.
  intros Hw. pose proof (clearAckInterval_runs w Hw) as [Hclear _].
  revert Hclear. unfold exec, setAckInterval, clearAckInterval. run.
  destruct (ackIntervalId (broker w)) as [id|] eqn:Hid; cbn; rewrite ?Hid; cbn;
    intros Hclear; eexists; (split; [done|]); by rewrite Hclear.
Qed.

Lemma timers_setAckInterval interval :
  preserves timer_recorded (setAckInterval interval).
Proof.
  intros w Hw id ms. destruct (setAckInterval_runs interval w Hw) as (id' & -> & ->).
  intros [-> _]%lookup_singleton_Some. done.
Qed.

Ltac unfold_timers :=
  unfold retry, configure, addConnection, connectionFn, topologyFn, connection_on,
    emit, batchAck, on_topology, addExchange, addQueue, addSerializer,
    bindExchange, bindQueue, close, connection_close, closeAll, deleteExchange,
    deleteQueue, getExchange, getQueue, handle, postal_subscribe, unsubscribe,
    ignoreHandlerErrors, nackOnError, nackUnhandled, onUnhandled,
    rejectUnhandled, set_unhandled, publish, set_promises, resolve, reject,
    notify, uuid_v1, request, reset, shutdown, startSubscription;
  unfold effect, update.

Ltac timers_step :=
  lazymatch goal with
  | |- preserves _ (ret _) => apply preserves_ret
  | |- preserves _ (throw _) => apply preserves_throw
  | |- preserves _ get => apply preserves_get
  | |- preserves _ this => apply preserves_this
  | |- preserves _ fresh => apply timers_fresh
  | |- preserves _ clearAckInterval => apply timers_clearAckInterval
  | |- preserves _ (setAckInterval _) => apply timers_setAckInterval
  | |- preserves _ (modify _) => apply timers_modify; done
  | |- preserves _ (discard _) => apply preserves_discard
  | |- preserves _ (try_catch _ _) => apply preserves_try_catch; [|intros ?]
  | |- preserves _ (mapM _ _) => apply preserves_mapM; intros ?
  | |- preserves _ (bind _ _) => apply preserves_bind; [|intros ?]
  | |- preserves _ (match ?x with _ => _ end) => destruct x
  | |- preserves _ (let '(_, _) := ?x in _) => destruct x
  | |- preserves _ _ => progress unfold_timers
  end.

Lemma timers_run_listeners ls c ev err :
  preserves timer_recorded (run_listeners ls c ev err).
Proof.
  induction ls as [|[[c' ev'] l] ls IH]; cbn [run_listeners]; [apply preserves_ret|].
  apply preserves_bind; [|done].
  destruct (_ && _); [|apply preserves_ret].
  unfold run_listener. repeat timers_step.
Qed.

Lemma timers_deliver subs topic message :
  preserves timer_recorded (deliver subs topic message).
Proof.
  induction subs as [|s subs IH]; cbn [deliver]; [apply preserves_ret|].
  apply preserves_bind; [apply preserves_get|]. intros w.
  apply preserves_bind; [|done].
  destruct (_ && _); [|apply preserves_ret].
  unfold run_callback. repeat timers_step.
Qed.

Lemma timers_dispatch_deliver subs topic message :
  preserves timer_recorded (dispatch_deliver subs topic message).
Proof.
  induction subs as [|s subs IH]; cbn [dispatch_deliver]; [apply preserves_ret|].
  apply preserves_bind; [apply preserves_get|]. intros w.
  apply preserves_bind; [|done].
  destruct (_ && _); [|apply preserves_ret].
  unfold run_callback. repeat timers_step.
Qed.

Lemma timers_run_op op : preserves timer_recorded (run_op op).
Proof.
  destruct op; cbn [run_op]; unfold signal, reply, dispatch;
    repeat first [apply timers_run_listeners | apply timers_deliver
                 | apply timers_dispatch_deliver
                 | timers_step].
Qed.

Lemma timer_recorded_run_ops ops : timer_recorded (run_ops ops initial_world).
Proof.
  assert (H : ∀ w, timer_recorded w → timer_recorded (run_ops ops w)).
  { induction ops as [|op ops IH]; intros w Hw; [done|].
    cbn. apply IH. by apply timers_run_op. }
  apply H. intros id ms. cbn. by rewrite lookup_empty.
Qed.

(** X4: the broker never runs two acknowledgement timers.  In every state
    reached from a new broker by calls of the facade and events of its
    collaborators, either no interval timer is running, or exactly one is
    and it is the one recorded in [ackIntervalId]: [setAckInterval] clears
    the recorded timer before it arms a new one, and nothing else arms
    one. *)
Theorem at_most_one_ack_timer (history : list Op) :
  let w := run_ops history initial_world in
  timers w = ∅ ∨
  ∃ id ms, ackIntervalId (broker w) = Some id ∧ timers w = {[id := ms]}.
Proof.
  intros w. pose proof (timer_recorded_run_ops history) as Hw. fold w in Hw.
  destruct (ackIntervalId (broker w)) as [id|] eqn:Hid.
  - destruct (timers w !! id) as [ms|] eqn:Hms.
    + right. exists id, ms. split; [done|]. apply map_eq. intros i.
      destruct (decide (i = id)) as [->|Hne].
      * by rewrite lookup_singleton_eq.
      * rewrite lookup_singleton_ne by done.
        destruct (timers w !! i) as [ms'|] eqn:Hi; [|done].
        specialize (Hw i ms' Hi). congruence.
    + left. apply map_empty. intros i.
      destruct (timers w !! i) as [ms'|] eqn:Hi; [|done].
      specialize (Hw i ms' Hi). congruence.
  - left. apply map_empty. intros i.
    destruct (timers w !! i) as [ms'|] eqn:Hi; [|done].
    specialize (Hw i ms' Hi). congruence.
Qed.

(** X5: batching stops for the whole broker when any connection becomes
    unreachable.  In every reachable state, after the "unreachable" listener
    of any connection has run no interval timer is left, however many other
    connections are still connected; the same holds after
    [clearAckInterval] itself, which [shutdown] calls once every close is
    fulfilled.  The broker object is not changed: [ackIntervalId] still
    holds the cleared timer. *)
Theorem unreachable_stops_batching
    (history : list Op) (name : string) (connection : Connection) (err : string) :
  let w := run_ops history initial_world in
  let w1 := exec (run_listener (OnUnreachable name connection) err) w in
  let w2 := exec (run_op Ev_shutdown_closed) w in
  timers w1 = ∅ ∧ broker w1 = broker w ∧
  timers w2 = ∅ ∧ broker w2 = broker w.
Proof.
  intros w w1 w2.
  pose proof (clearAckInterval_runs w (timer_recorded_run_ops history)) as [H1 H2].
  split; [|split]; [| |done].
  - subst w1. unfold run_listener, emit, effect.
    pose proof (clearAckInterval_runs
      (with_log (λ l, l ++ [E_emit name (ArgString ".connection.unreachable")])
         (with_log (λ l, l ++ [E_emit "unreachable" (ArgConnection connection)]) w)))
      as [H _]; [|exact H].
    intros id ms. cbn. apply (timer_recorded_run_ops history).
  - subst w1. unfold run_listener, emit, effect.
    pose proof (clearAckInterval_runs
      (with_log (λ l, l ++ [E_emit name (ArgString ".connection.unreachable")])
         (with_log (λ l, l ++ [E_emit "unreachable" (ArgConnection connection)]) w)))
      as [_ H]; [|exact H].
    intros id ms. cbn. apply (timer_recorded_run_ops history).
Qed.

(** X6: arming the timer.  In every reachable state [setAckInterval] leaves
    exactly one interval timer running, with the interval given and recorded
    in [ackIntervalId], whatever was running before; the "connected"
    listener of any connection does so with 500 ms, so a second connection
    that connects re-arms the one timer instead of adding another. *)
Theorem connected_arms_one_timer
    (history : list Op) (interval : Z) (connection : Connection) (err : string) :
  let w := run_ops history initial_world in
  let w1 := exec (setAckInterval interval) w in
  let w2 := exec (run_listener (OnConnected connection) err) w in
  (∃ id, ackIntervalId (broker w1) = Some id ∧ timers w1 = {[id := interval]}) ∧
  (∃ id, ackIntervalId (broker w2) = Some id ∧ timers w2 = {[id := 500]}).
Proof.
  intros w w1 w2. split.
  - apply setAckInterval_runs, timer_recorded_run_ops.
  - subst w2. unfold run_listener, emit, effect.
    apply (setAckInterval_runs 500
      (with_log (λ l, l ++ [E_emit (conn_name connection +:+ ".connection.opened")
                              (ArgConnection connection)])
         (with_log (λ l, l ++ [E_emit "connected" (ArgConnection connection)]) w))).
    intros id ms. cbn. apply (timer_recorded_run_ops history).
Qed.

(** ** Declaring an exchange *)

(** X7: the two forms of [addExchange].  In the object form
    [addExchange( options, connectionName )] the connection is the second
    argument alone: line 97 defaults the fourth argument, and line 100
    overwrites the result.  So without a second argument the lookup is
    [this.connections[ undefined ]], and the call throws a TypeError and
    changes nothing on every broker that has no connection named
    "undefined", also when "default" is registered.  With a second argument
    that names a registered connection it declares the exchange of the
    options there, whatever the third and fourth arguments are.  The
    positional form throws when its options argument is missing. *)
Theorem addExchange_object_form_has_no_default
    (options : ExchangeDef) (ignored : option ExchangeDef)
    (connectionName : option string) (w : World) :
  connections (broker w) !! "undefined" = None →
  addExchange (ExchangeObject options) None ignored connectionName w =
    (Throw (TypeError "this.connections[connectionName] is undefined"), w) ∧
  (∀ name t, connections (broker w) !! name = Some t →
     result (addExchange (ExchangeObject options) (Some name) ignored connectionName) w
       = Ok (P_topology name (createExchange (ex_name options) (ex_type options))) ∧
     logged (addExchange (ExchangeObject options) (Some name) ignored connectionName) w
       = [E_topology name (createExchange (ex_name options) (ex_type options))]) ∧
  (∀ name type,
     addExchange (ExchangeNamed name) type None connectionName w =
       (Throw (TypeError "options is undefined"), w)).
Proof.
  intros Hundefined. split; [|split].
  - unfold addExchange. change (key_of None) with "undefined".
    unfold on_topology. run. by rewrite Hundefined.
  - intros name t Ht.
    unfold result, logged, exec, addExchange. change (key_of (Some name)) with name.
    unfold on_topology. run. rewrite Ht. cbn. split; [done|].
    by rewrite drop_app_length.
  - done.
Qed.

Lemma addExchange_object_form_has_no_default_witness :
  let w := run_ops [Op_addConnection None] initial_world in
  is_Some (connections (broker w) !! "default") ∧
  addExchange (ExchangeObject (mkExchangeDef "orders" (Some "topic"))) None None
    (Some "default") w =
    (Throw (TypeError "this.connections[connectionName] is undefined"), w).
Proof.
  intros w. split; [by eexists|].
  apply (addExchange_object_form_has_no_default
           (mkExchangeDef "orders" (Some "topic")) None (Some "default") w).
  vm_compute. reflexivity.
Defined.

(** ** Subscriptions once made *)

Section kept.
Context (old : list Subscription).

Lemma kept_modify f :
  (∀ w, subscriptions (f w) = subscriptions w) → preserves (kept old) (modify f).
Proof.
  intros Hf w (now & added & Hw & Hold). exists now, added.
  unfold exec, modify. cbn. by rewrite Hf.
Qed.

Lemma kept_fresh : preserves (kept old) fresh.
Proof. by intros w. Qed.

Lemma kept_postal_subscribe id channel topic callback catch :
  preserves (kept old) (postal_subscribe id channel topic callback catch).
Proof.
  intros w (now & added & Hw & Hold). unfold exec, postal_subscribe.
  destruct (String.eqb topic ""); [by exists now, added|].
  eexists now, (added ++ [_]).
  split; [|done]. run. cbn.
  by rewrite Hw, (assoc_L (++)).
Qed.

Lemma kept_unsubscribe id : preserves (kept old) (unsubscribe id).
Proof.
  intros w (now & added & Hw & Hold).
  eexists (_ <$> now), (_ <$> added). split.
  - unfold exec, unsubscribe. run. cbn. rewrite Hw. apply fmap_app.
  - apply Forall2_fmap_r. eapply Forall2_impl; [exact Hold|].
    intros s s' [Hsig Hact]. unfold compose.
    destruct (bool_decide (sub_id s' = id)); [|by split].
    split; [exact Hsig|done].
Qed.

Ltac unfold_kept :=
  unfold retry, configure, addConnection, connectionFn, topologyFn, connection_on,
    emit, clearAckInterval, setAckInterval, batchAck, on_topology, addExchange,
    addQueue, addSerializer, bindExchange, bindQueue, close, connection_close,
    closeAll, deleteExchange, deleteQueue, getExchange, getQueue, handle,
    ignoreHandlerErrors, nackOnError, nackUnhandled, onUnhandled,
    rejectUnhandled, set_unhandled, publish, set_promises, resolve, reject,
    notify, uuid_v1, request, reset, shutdown, startSubscription;
  unfold effect, update.

Ltac kept_step :=
  lazymatch goal with
  | |- preserves _ (ret _) => apply preserves_ret
  | |- preserves _ (throw _) => apply preserves_throw
  | |- preserves _ get => apply preserves_get
  | |- preserves _ this => apply preserves_this
  | |- preserves _ fresh => apply kept_fresh
  | |- preserves _ (postal_subscribe _ _ _ _ _) => apply kept_postal_subscribe
  | |- preserves _ (unsubscribe _) => apply kept_unsubscribe
  | |- preserves _ (modify _) => apply kept_modify; done
  | |- preserves _ (discard _) => apply preserves_discard
  | |- preserves _ (try_catch _ _) => apply preserves_try_catch; [|intros ?]
  | |- preserves _ (mapM _ _) => apply preserves_mapM; intros ?
  | |- preserves _ (bind _ _) => apply preserves_bind; [|intros ?]
  | |- preserves _ (match ?x with _ => _ end) => destruct x
  | |- preserves _ (let '(_, _) := ?x in _) => destruct x
  | |- preserves _ _ => progress unfold_kept
  end.

Lemma kept_run_listeners ls c ev err :
  preserves (kept old) (run_listeners ls c ev err).
Proof.
  induction ls as [|[[c' ev'] l] ls IH]; cbn [run_listeners]; [apply preserves_ret|].
  apply preserves_bind; [|done].
  destruct (_ && _); [|apply preserves_ret].
  unfold run_listener. repeat kept_step.
Qed.

Lemma kept_deliver subs topic message :
  preserves (kept old) (deliver subs topic message).
Proof.
  induction subs as [|s subs IH]; cbn [deliver]; [apply preserves_ret|].
  apply preserves_bind; [apply preserves_get|]. intros w.
  apply preserves_bind; [|done].
  destruct (_ && _); [|apply preserves_ret].
  unfold run_callback. repeat kept_step.
Qed.

Lemma kept_dispatch_deliver subs topic message :
  preserves (kept old) (dispatch_deliver subs topic message).
Proof.
  induction subs as [|s subs IH]; cbn [dispatch_deliver]; [apply preserves_ret|].
  apply preserves_bind; [apply preserves_get|]. intros w.
  apply preserves_bind; [|done].
  destruct (_ && _); [|apply preserves_ret].
  unfold run_callback. repeat kept_step.
Qed.

Lemma kept_run_op op : preserves (kept old) (run_op op).
Proof.
  destruct op; cbn [run_op]; unfold signal, reply, dispatch;
    repeat first [apply kept_run_listeners | apply kept_deliver
                 | apply kept_dispatch_deliver
                 | kept_step].
Qed.

Lemma kept_run_ops ops : ∀ w, kept old w → kept old (run_ops ops w).
Proof.
  induction ops as [|op ops IH]; intros w Hw; [done|].
  cbn. apply IH. by apply kept_run_op.
Qed.
End kept.

Lemma handle_target_empty messageType queueName :
  String.eqb (handle_target messageType queueName) "" =
    isEmpty messageType &&
    match queueName with
    | QueueName queueName => String.eqb queueName ""
    | _ => false
    end.
Proof.
  unfold handle_target.
  destruct (isEmpty messageType); cbn.
  - destruct queueName as [|[|c q]|]; reflexivity.
  - destruct queueName as [|[|c q]|]; reflexivity.
Qed.


(** ** Registrations once made *)

Section registration.
Context (name : string) (t : Topology).

Lemma registration_modify f :
  (∀ w, connections (broker (f w)) = connections (broker w)) →
  preserves (registration name t) (modify f).
Proof.
  intros Hf w Hw. unfold registration, exec, modify. cbn. by rewrite Hf.
Qed.

Lemma registration_fresh : preserves (registration name t) fresh.
Proof. by intros w. Qed.

Lemma registration_on_topology key call :
  preserves (registration name t) (on_topology key call).
Proof.
  intros w (t' & Ht' & Hname & Hconn & Hopts). unfold registration.
  rewrite on_topology_registry.
  destruct (connections (broker w) !! key) as [t0|] eqn:Ht0; [|by exists t'].
  destruct (decide (name = key)) as [<-|Hne].
  - rewrite lookup_insert_eq. eexists. split; [done|].
    rewrite Ht' in Ht0. injection Ht0 as <-. done.
  - rewrite lookup_insert_ne by done. by exists t'.
Qed.

Lemma registration_addConnection options :
  preserves (registration name t) (addConnection options).
Proof.
  intros w (t' & Ht' & Hname & Hconn & Hopts). unfold registration.
  rewrite addConnection_registry.
  destruct (connections (broker w) !! connection_name options) as [t0|] eqn:Ht0;
    [by exists t'|].
  destruct (inherited (connection_name options)); [by exists t'|].
  rewrite lookup_insert_ne by congruence. by exists t'.
Qed.

Ltac unfold_registration :=
  unfold retry, configure, connection_on, emit, clearAckInterval,
    setAckInterval, batchAck, addExchange, addQueue, addSerializer,
    bindExchange, bindQueue, close, connection_close, closeAll, deleteExchange,
    deleteQueue, getExchange, getQueue, handle, postal_subscribe, unsubscribe,
    ignoreHandlerErrors, nackOnError, nackUnhandled, onUnhandled,
    rejectUnhandled, set_unhandled, publish, set_promises, resolve, reject,
    notify, uuid_v1, request, shutdown, startSubscription;
  unfold effect, update.

Ltac registration_step :=
  lazymatch goal with
  | |- preserves _ (ret _) => apply preserves_ret
  | |- preserves _ (throw _) => apply preserves_throw
  | |- preserves _ get => apply preserves_get
  | |- preserves _ this => apply preserves_this
  | |- preserves _ fresh => apply registration_fresh
  | |- preserves _ reset => fail
  | |- preserves _ (on_topology _ _) => apply registration_on_topology
  | |- preserves _ (addConnection _) => apply registration_addConnection
  | |- preserves _ (modify _) => apply registration_modify; done
  | |- preserves _ (discard _) => apply preserves_discard
  | |- preserves _ (try_catch _ _) => apply preserves_try_catch; [|intros ?]
  | |- preserves _ (mapM _ _) => apply preserves_mapM; intros ?
  | |- preserves _ (bind _ _) => apply preserves_bind; [|intros ?]
  | |- preserves _ (match ?x with _ => _ end) => destruct x
  | |- preserves _ (let '(_, _) := ?x in _) => destruct x
  | |- preserves _ _ => progress unfold_registration
  end.

Lemma registration_run_listeners ls c ev err :
  preserves (registration name t) (run_listeners ls c ev err).
Proof.
  induction ls as [|[[c' ev'] l] ls IH]; cbn [run_listeners]; [apply preserves_ret|].
  apply preserves_bind; [|done].
  destruct (_ && _); [|apply preserves_ret].
  unfold run_listener. repeat registration_step.
Qed.

Lemma registration_deliver subs topic message :
  preserves (registration name t) (deliver subs topic message).
Proof.
  induction subs as [|s subs IH]; cbn [deliver]; [apply preserves_ret|].
  apply preserves_bind; [apply preserves_get|]. intros w.
  apply preserves_bind; [|done].
  destruct (_ && _); [|apply preserves_ret].
  unfold run_callback. repeat registration_step.
Qed.

Lemma registration_dispatch_deliver subs topic message :
  preserves (registration name t) (dispatch_deliver subs topic message).
Proof.
  induction subs as [|s subs IH]; cbn [dispatch_deliver]; [apply preserves_ret|].
  apply preserves_bind; [apply preserves_get|]. intros w.
  apply preserves_bind; [|done].
  destruct (_ && _); [|apply preserves_ret].
  unfold run_callback. repeat registration_step.
Qed.

Lemma registration_run_op op :
  op ≠ Op_reset → preserves (registration name t) (run_op op).
Proof.
  intros Hop. destruct op; try done; cbn [run_op]; unfold signal, reply, dispatch;
    repeat first [apply registration_run_listeners | apply registration_deliver
                 | apply registration_dispatch_deliver
                 | registration_step].
Qed.

Lemma registration_run_ops ops :
  Forall (λ op, op ≠ Op_reset) ops →
  ∀ w, registration name t w → registration name t (run_ops ops w).
Proof.
  induction 1 as [|op ops Hop _ IH]; intros w Hw; [done|].
  cbn. apply IH. by apply registration_run_op.
Qed.
End registration.

(** X9: only [reset] unregisters a connection.  Through any calls and events
    other than [reset], among them [close], [closeAll] and [shutdown], with
    or without the reset flag, a registered name stays registered with the
    same Connection object and the same options.  So [addConnection] for
    that name constructs nothing afterwards: it calls [connect] on that very
    Connection, which is how a closed connection is reopened. *)
Theorem only_reset_unregisters
    (ops : list Op) (w : World) (name : string) (t : Topology) (c : Connection) :
  Forall (λ op, op ≠ Op_reset) ops →
  connections (broker w) !! name = Some t →
  topo_connection t = Some c →
  let w' := run_ops ops w in
  ∃ t', connections (broker w') !! name = Some t' ∧
        topo_name t' = topo_name t ∧
        topo_connection t' = Some c ∧
        topo_options t' = topo_options t ∧
        ∀ options, connection_name options = name →
          addConnection options w' = (Ok t', with_log (λ l, l ++ [E_connect c]) w').
Proof.
  intros Hops Ht Hc w'.
  destruct (registration_run_ops name t ops Hops w) as (t' & Ht' & Hname & Hconn & Hopts).
  { by exists t. }
  exists t'. split; [done|]. split; [done|]. split; [congruence|]. split; [done|].
  intros options <-. apply addConnection_existing; [done|congruence].
Qed.

Lemma only_reset_unregisters_witness :
  let w := run_ops [Op_addConnection None;
                    Op_addQueue "q" (Some (mkQueueDef "" false)) None] initial_world in
  let w' := run_ops [Op_close None true; Op_shutdown; Op_deleteQueue "q" None;
                     Ev_signal (mkConnection 3 "default") Closed ""] w in
  ∃ t', addConnection None w' =
          (Ok t', with_log (λ l, l ++ [E_connect (mkConnection 3 "default")]) w').
Proof.
  intros w w'.
  destruct (only_reset_unregisters
              [Op_close None true; Op_shutdown; Op_deleteQueue "q" None;
               Ev_signal (mkConnection 3 "default") Closed ""] w "default"
              (mkTopology "default" (Some (mkConnection 3 "default"))
                 (mkConnOptions (Some "default") (Some 3) (Some 60) None)
                 {["queue:q" := mkChannel QueueChannel "q"]})
              (mkConnection 3 "default"))
    as (t' & _ & _ & _ & _ & Hadd).
  - repeat constructor; discriminate.
  - vm_compute. reflexivity.
  - reflexivity.
  - exists t'. apply Hadd. reflexivity.
Defined.

(** ** Requests that cannot be published *)

Lemma publish_options now x o w :
  publish now x (TypeOptions o) MessageUndefined None None None None w =
  published x o (or_string (po_connectionName o) "default") w.
Proof.
  rewrite <- publish_tail by apply or_string_idem. unfold publish. by run.
Qed.

Lemma request_outcome now x options c w :
  let name := or_string c (or_string (po_connectionName options) "default") in
  let topic := "uuid-" +:+ pretty (next_id w) in
  let p := S (next_id w) in
  let sid := S (S (next_id w)) in
  let s := mkSubscription sid Responses topic (ReplyCallback p sid) false true in
  let o := mkPublishOptions (po_appId options) (po_type options) (po_body options)
             (po_routingKey options) (po_correlationId options)
             (po_sequenceNo options) (po_timestamp options) (po_headers options)
             (Some name) (Some topic) (po_connectionPublishTimeout options) in
  ∃ w1, request now x (Some options) c w = (Ok p, w1) ∧
        subscriptions w1 = subscriptions w ++ [s] ∧
        match connections (broker w) !! name with
        | Some t =>
            match channels t !! ("exchange:" +:+ x) with
            | Some ch =>
                log w1 = log w ++
                  [E_subscribe s;
                   E_exchangePublish ch
                     (if truthy_number (opt_publishTimeout (topo_options t))
                      then set_publishTimeout (opt_publishTimeout (topo_options t)) o
                      else o)] ∧
                promises w1 = <[p := mkPromiseCell Pending []]> (promises w)
            | None =>
                log w1 = log w ++
                  [E_subscribe s; E_reject p (TypeError "getExchange(...) is undefined")] ∧
                promises w1 =
                  <[p := mkPromiseCell
                           (RejectedWith (TypeError "getExchange(...) is undefined")) []]>
                    (promises w)
            end
        | None =>
            log w1 = log w ++
              [E_subscribe s;
               E_reject p (TypeError "this.connections[connectionName] is undefined")] ∧
            promises w1 =
              <[p := mkPromiseCell
                       (RejectedWith
                          (TypeError "this.connections[connectionName] is undefined")) []]>
                (promises w)
        end.
Proof.
  intros name topic p sid s o.
  assert (Hres : match c with
                 | Some c => if String.eqb c ""
                             then or_string (po_connectionName options) "default" else c
                 | None => or_string (po_connectionName options) "default"
                 end = name).
  { subst name. destruct c as [c|]; [|done].
    destruct (String.eqb_spec c "") as [->|Hc]; [done|].
    by rewrite (or_string_Some c). }
  assert (Hname : or_string (Some name) "default" = name).
  { rewrite <- Hres. destruct c as [c|]; [|apply or_string_idem].
    destruct (String.eqb_spec c ""); [apply or_string_idem|by apply or_string_Some]. }
  unfold request. rewrite Hres. unfold uuid_v1, postal_subscribe, try_catch, discard.
  run. rewrite uuid_nonempty. cbn -[publish pretty String.append].
  rewrite publish_options. cbn [po_connectionName]. rewrite Hname.
  unfold published. cbn -[pretty String.append].
  destruct (connections (broker w) !! name) as [t|] eqn:Ht; rewrite ?Ht.
  - destruct (channels t !! _) as [ch|] eqn:Hch.
    + eexists. split; [reflexivity|]. split; [done|]. cbn -[pretty String.append].
      split; [|done]. by rewrite <- !(assoc_L (++)).
    + eexists. split; [reflexivity|]. split; [done|]. cbn -[pretty String.append].
      split.
      * by rewrite <- !(assoc_L (++)).
      * apply map_eq. intros i. destruct (decide (i = p)) as [->|Hne].
        -- by rewrite lookup_alter_eq, !lookup_insert_eq.
        -- by rewrite lookup_alter_ne, !lookup_insert_ne.
  - eexists. split; [reflexivity|]. split; [done|]. cbn -[pretty String.append].
    split.
    + by rewrite <- !(assoc_L (++)).
    + apply map_eq. intros i. destruct (decide (i = p)) as [->|Hne].
      * by rewrite lookup_alter_eq, !lookup_insert_eq.
      * by rewrite lookup_alter_ne, !lookup_insert_ne.
Qed.

(** X10: [request] throws only when it is called without options, and then
    before it has subscribed or made a promise: lines 257 to 259 read and
    write properties of [options], so the call throws a TypeError, with the
    state as it was but for the request identifier taken when
    [connectionName] is truthy.  Called with options it does not throw: in
    every reachable state it returns a promise and leaves one active
    subscription on the responses channel whose callback settles that
    promise.  When the resolved connection (the argument, else the options'
    [connectionName], else "default") has the exchange, the options are
    published with [messageId] set to the subscription's topic and
    [connectionName] to the resolved name, the caller's other fields
    unchanged, and the promise is pending.  When the connection or the
    exchange is missing, the TypeError of [publish] is caught by the
    promise: it is rejected with it, nothing is published, and the
    subscription made before stays active. *)
Theorem request_throws_only_without_options
    (history : list Op) (now : Z) (exchangeName : string)
    (options : option PublishOptions) (connectionName : option string) :
  let w := run_ops history initial_world in
  let call := request now exchangeName options connectionName in
  match options with
  | None =>
      ∃ text, result call w = Throw (TypeError text) ∧
              logged call w = [] ∧
              subscriptions (exec call w) = subscriptions w ∧
              promises (exec call w) = promises w ∧
              broker (exec call w) = broker w ∧
              next_id (exec call w) =
                if String.eqb (or_string connectionName "") ""
                then next_id w else S (next_id w)
  | Some options =>
      let name := or_string connectionName
                    (or_string (po_connectionName options) "default") in
      ∃ p s,
        result call w = Ok p ∧
        sub_channel s = Responses ∧
        sub_callback s = ReplyCallback p (sub_id s) ∧
        is_active (exec call w) (sub_id s) = true ∧
        match connections (broker w) !! name
                ≫= (λ t, channels t !! ("exchange:" +:+ exchangeName)) with
        | Some x =>
            ∃ o, logged call w = [E_subscribe s; E_exchangePublish x o] ∧
                 promises (exec call w) !! p = Some (mkPromiseCell Pending []) ∧
                 po_messageId o = Some (sub_topic s) ∧
                 po_connectionName o = Some name ∧
                 (po_appId o, po_type o, po_body o, po_routingKey o,
                  po_correlationId o, po_sequenceNo o, po_timestamp o,
                  po_headers o) =
                 (po_appId options, po_type options, po_body options,
                  po_routingKey options, po_correlationId options,
                  po_sequenceNo options, po_timestamp options,
                  po_headers options)
        | None =>
            ∃ text, logged call w = [E_subscribe s; E_reject p (TypeError text)] ∧
                    promises (exec call w) !! p =
                      Some (mkPromiseCell (RejectedWith (TypeError text)) [])
        end
  end.
Proof.
  intros w call. destruct options as [options|].
  2:{ subst call. unfold result, logged, exec, request, uuid_v1. run.
      destruct (String.eqb (or_string connectionName "") ""); cbn;
        eexists; by rewrite drop_all. }
  intros name.
  destruct (request_outcome now exchangeName options connectionName w)
    as (w1 & Hrun & Hsubs & Hcases).
  pose proof (tidy_strangers w (tidy_run_ops history)) as Hold.
  exists (S (next_id w)),
    (mkSubscription (S (S (next_id w))) Responses ("uuid-" +:+ pretty (next_id w))
       (ReplyCallback (S (next_id w)) (S (S (next_id w)))) false true).
  unfold result, logged, exec. subst call. rewrite Hrun.
  cbn [fst snd sub_channel sub_callback sub_id sub_topic].
  do 3 (split; [reflexivity|]). split; [by eapply is_active_ours|].
  fold name in Hcases.
  destruct (connections (broker w) !! name) as [t|]; cbn [mbind option_bind].
  - destruct (channels t !! _) as [x|].
    + destruct Hcases as [-> ->]. eexists.
      split; [by rewrite drop_app_length|].
      split; [by rewrite lookup_insert_eq|].
      by destruct (truthy_number _).
    + destruct Hcases as [-> ->]. eexists.
      split; [by rewrite drop_app_length|]. by rewrite lookup_insert_eq.
  - destruct Hcases as [-> ->]. eexists.
    split; [by rewrite drop_app_length|]. by rewrite lookup_insert_eq.
Qed.

(** ** Replies and the requests they belong to *)

Lemma is_active_unsubscribe w i id :
  i ≠ id →
  existsb (λ s, bool_decide (sub_id s = id) && sub_active s)
    ((λ s, if bool_decide (sub_id s = i)
           then mkSubscription (sub_id s) (sub_channel s) (sub_topic s)
                  (sub_callback s) (sub_catch s) false
           else s) <$> subscriptions w) = is_active w id.
Proof.
  intros Hne. unfold is_active.
  induction (subscriptions w) as [|s l IH]; [done|].
  cbn [fmap list_fmap existsb]. rewrite <- IH. f_equal.
  destruct (bool_decide (sub_id s = i)) eqn:Hi; [|done].
  apply bool_decide_eq_true in Hi. cbn.
  rewrite !bool_decide_eq_false_2 by congruence. done.
Qed.

(** A callback of another request leaves the promise [p] and the
    subscription [id] alone. *)
Lemma run_callback_frame cb m p id w :
  (∀ q i, cb = ReplyCallback q i → q ≠ p ∧ i ≠ id) →
  ∃ w', run_callback cb m w = (Ok tt, w') ∧
        promises w' !! p = promises w !! p ∧
        is_active w' id = is_active w id.
Proof.
  intros Hcb. destruct cb as [h ctx|q i]; [by eexists|].
  destruct (Hcb q i eq_refl) as [Hq Hi].
  unfold run_callback, resolve, notify, unsubscribe. run.
  destruct (sequence_end m); cbn.
  - eexists. split; [done|]. cbn. split; [by rewrite lookup_alter_ne|].
    unfold is_active at 1. cbn. by apply is_active_unsubscribe.
  - eexists. split; [done|]. cbn. split; [by rewrite lookup_alter_ne|done].
Qed.

Lemma deliver_frame topic m p id subs : ∀ w,
  Forall (λ s, listens s topic = true →
               ∀ q i, sub_callback s = ReplyCallback q i → q ≠ p ∧ i ≠ id) subs →
  promises (exec (deliver subs topic m) w) !! p = promises w !! p ∧
  is_active (exec (deliver subs topic m) w) id = is_active w id.
Proof.
  induction subs as [|s subs IH]; intros w Hsubs; [done|].
  apply Forall_cons in Hsubs as [Hs Hsubs].
  unfold exec. cbn [deliver]. run.
  destruct (listens s topic && is_active w (sub_id s)) eqn:Hcond.
  - apply andb_true_iff in Hcond as [Hl _].
    destruct (run_callback_frame (sub_callback s) m p id w (Hs Hl))
      as (w' & -> & Hp & Hid).
    rewrite <- Hp, <- Hid. by apply IH.
  - by apply IH.
Qed.

Lemma reply_frame topic m p id w :
  Forall (λ s, listens s topic = true →
               ∀ q i, sub_callback s = ReplyCallback q i → q ≠ p ∧ i ≠ id)
    (subscriptions w) →
  promises (exec (reply topic m) w) !! p = promises w !! p ∧
  is_active (exec (reply topic m) w) id = is_active w id.
Proof.
  intros H. pose proof (deliver_frame topic m p id (subscriptions w) w H) as Hd.
  unfold exec in *. unfold reply, bind, get. exact Hd.
Qed.

(** X11: replies reach their own request only.  Of two requests made one
    after the other in any reachable state, each gets its own promise, its
    own subscription and its own topic; a message delivered on the topic of
    one, with or without the end marker, leaves the promise of the other as
    it was and the subscription of the other active. *)
Theorem replies_reach_their_own_request_only
    (history : list Op) (now now' : Z) (exchangeName exchangeName' : string)
    (options options' : PublishOptions) (connectionName connectionName' : option string)
    (message : Message) :
  let w := run_ops history initial_world in
  let first := request now exchangeName (Some options) connectionName in
  let second := request now' exchangeName' (Some options') connectionName' in
  let w1 := exec first w in
  let w2 := exec second w1 in
  ∃ p1 p2 s1 s2,
    result first w = Ok p1 ∧ result second w1 = Ok p2 ∧
    subscriptions w2 = subscriptions w ++ [s1; s2] ∧
    sub_callback s1 = ReplyCallback p1 (sub_id s1) ∧
    sub_callback s2 = ReplyCallback p2 (sub_id s2) ∧
    p1 ≠ p2 ∧ sub_id s1 ≠ sub_id s2 ∧ sub_topic s1 ≠ sub_topic s2 ∧
    promises (exec (reply (sub_topic s1) message) w2) !! p2 = promises w2 !! p2 ∧
    is_active (exec (reply (sub_topic s1) message) w2) (sub_id s2) = true ∧
    promises (exec (reply (sub_topic s2) message) w2) !! p1 = promises w2 !! p1 ∧
    is_active (exec (reply (sub_topic s2) message) w2) (sub_id s1) = true.
Proof.
  intros w first second w1 w2.
  pose proof (tidy_run_ops history) as Htidy. fold w in Htidy. clearbody w.
  destruct (request_outcome now exchangeName options connectionName w)
    as (w1' & Hrun1 & Hsubs1 & _).
  assert (Hw1 : w1 = w1') by (unfold w1, first, exec; by rewrite Hrun1).
  clearbody w1. subst w1'.
  destruct (request_outcome now' exchangeName' options' connectionName' w1)
    as (w2' & Hrun2 & Hsubs2 & _).
  assert (Hw2 : w2 = w2') by (unfold w2, second, exec; by rewrite Hrun2).
  clearbody w2. subst w2'.
  assert (Hnext : next_id w1 = S (S (S (next_id w)))).
  { destruct (request_runs now exchangeName options connectionName w)
      as (w1' & l & Hrun & _ & Hn & _).
    rewrite Hrun1 in Hrun. by injection Hrun as <-. }
  assert (Htidy1 : tidy w1).
  { pose proof (tidy_request now exchangeName (Some options) connectionName w Htidy)
      as H.
    unfold exec in H. by rewrite Hrun1 in H. }
  pose proof (tidy_strangers w Htidy) as Hold.
  pose proof (tidy_strangers w1 Htidy1) as Hold1.
  assert (Htopics : "uuid-" +:+ pretty (next_id w) ≠ "uuid-" +:+ pretty (next_id w1)).
  { intros H%String.eqb_eq%uuid_topic_inj. lia. }
  pose (s1 := mkSubscription (S (S (next_id w))) Responses
                ("uuid-" +:+ pretty (next_id w))
                (ReplyCallback (S (next_id w)) (S (S (next_id w)))) false true).
  pose (s2 := mkSubscription (S (S (next_id w1))) Responses
                ("uuid-" +:+ pretty (next_id w1))
                (ReplyCallback (S (next_id w1)) (S (S (next_id w1)))) false true).
  assert (Hall : subscriptions w2 = subscriptions w ++ [s1; s2]).
  { by rewrite Hsubs2, Hsubs1, <- (assoc_L (++)). }
  exists (S (next_id w)), (S (next_id w1)), s1, s2.
  unfold result. subst first second. rewrite Hrun1, Hrun2.
  unfold s1 at 2 3 4 5 6 7 8, s2 at 2 3 4 5 6 7 8.
  cbn [fst sub_callback sub_id sub_topic].
  do 5 (split; [done|]). split; [lia|]. split; [lia|]. split; [done|].
  assert (Hactive2 : is_active w2 (S (S (next_id w1))) = true)
    by (by eapply is_active_ours).
  assert (Hactive1 : is_active w2 (S (S (next_id w))) = true).
  { pose proof (is_active_ours w (subscriptions w) true w1 Hold Hsubs1) as H1.
    unfold is_active in *. by rewrite Hsubs2, existsb_app, H1. }
  destruct (reply_frame ("uuid-" +:+ pretty (next_id w)) message
              (S (next_id w1)) (S (S (next_id w1))) w2)
    as [HA1 HA2].
  { rewrite Hall. apply Forall_app. split.
    - eapply Forall_impl; [exact Hold|]. intros s [Hl _] Hl'. congruence.
    - apply Forall_cons. split; [|apply Forall_singleton]; cbn; intros Hl q i Hcb.
      + injection Hcb as <- <-. lia.
      + apply String.eqb_eq in Hl. congruence. }
  destruct (reply_frame ("uuid-" +:+ pretty (next_id w1)) message
              (S (next_id w)) (S (S (next_id w))) w2)
    as [HB1 HB2].
  { rewrite Hsubs2. apply Forall_app. split.
    - eapply Forall_impl; [exact Hold1|]. intros s [Hl _] Hl'. congruence.
    - apply Forall_singleton. cbn. intros Hl q i Hcb.
      injection Hcb as <- <-. lia. }
  cbn [sub_topic sub_id s1 s2].
  rewrite HA1, HA2, HB1, HB2. done.
Qed.

(** ** Policies and who sets them *)

Section policies.
Context (R : gmap string nat) (U : UnhandledStrategy) (C : option nat) (A : bool).

Lemma policies_modify f :
  (∀ w, serializers (f w) = serializers w) →
  (∀ w, unhandled_onUnhandled (f w) = unhandled_onUnhandled w) →
  (∀ w, unhandled_custom (f w) = unhandled_custom w) →
  (∀ w, autoNack (broker (f w)) = autoNack (broker w)) →
  preserves (policies R U C A) (modify f).
Proof.
  intros H1 H2 H3 H4 w Hw. unfold policies, exec, modify. cbn.
  by rewrite H1, H2, H3, H4.
Qed.

Lemma policies_fresh : preserves (policies R U C A) fresh.
Proof. by intros w. Qed.

Ltac unfold_policies :=
  unfold retry, configure, addConnection, connectionFn, topologyFn, connection_on,
    emit, clearAckInterval, setAckInterval, batchAck, on_topology, addExchange,
    addQueue, bindExchange, bindQueue, close, connection_close, closeAll,
    deleteExchange, deleteQueue, getExchange, getQueue, handle, postal_subscribe,
    unsubscribe, publish, set_promises, resolve, reject, notify, uuid_v1,
    request, reset, shutdown, startSubscription;
  unfold effect, update.

Ltac policies_step :=
  lazymatch goal with
  | |- preserves _ (ret _) => apply preserves_ret
  | |- preserves _ (throw _) => apply preserves_throw
  | |- preserves _ get => apply preserves_get
  | |- preserves _ this => apply preserves_this
  | |- preserves _ fresh => apply policies_fresh
  | |- preserves _ (modify _) => apply policies_modify; done
  | |- preserves _ (discard _) => apply preserves_discard
  | |- preserves _ (try_catch _ _) => apply preserves_try_catch; [|intros ?]
  | |- preserves _ (mapM _ _) => apply preserves_mapM; intros ?
  | |- preserves _ (bind _ _) => apply preserves_bind; [|intros ?]
  | |- preserves _ (match ?x with _ => _ end) => destruct x
  | |- preserves _ (let '(_, _) := ?x in _) => destruct x
  | |- preserves _ _ => progress unfold_policies
  end.

Lemma policies_run_listeners ls c ev err :
  preserves (policies R U C A) (run_listeners ls c ev err).
Proof.
  induction ls as [|[[c' ev'] l] ls IH]; cbn [run_listeners]; [apply preserves_ret|].
  apply preserves_bind; [|done].
  destruct (_ && _); [|apply preserves_ret].
  unfold run_listener. repeat policies_step.
Qed.

Lemma policies_deliver subs topic message :
  preserves (policies R U C A) (deliver subs topic message).
Proof.
  induction subs as [|s subs IH]; cbn [deliver]; [apply preserves_ret|].
  apply preserves_bind; [apply preserves_get|]. intros w.
  apply preserves_bind; [|done].
  destruct (_ && _); [|apply preserves_ret].
  unfold run_callback. repeat policies_step.
Qed.

Lemma policies_dispatch_deliver subs topic message :
  preserves (policies R U C A) (dispatch_deliver subs topic message).
Proof.
  induction subs as [|s subs IH]; cbn [dispatch_deliver]; [apply preserves_ret|].
  apply preserves_bind; [apply preserves_get|]. intros w.
  apply preserves_bind; [|done].
  destruct (_ && _); [|apply preserves_ret].
  unfold run_callback. repeat policies_step.
Qed.

Lemma policies_run_op op :
  match op with
  | Op_addSerializer _ _ | Op_nackUnhandled | Op_onUnhandled _ | Op_rejectUnhandled
  | Op_nackOnError | Op_ignoreHandlerErrors => True
  | _ => preserves (policies R U C A) (run_op op)
  end.
Proof.
  destruct op; try exact I; cbn [run_op]; unfold signal, reply, dispatch;
    repeat first [apply policies_run_listeners | apply policies_deliver
                 | apply policies_dispatch_deliver
                 | policies_step].
Qed.
End policies.

(** X12: the policy state follows its setters and nothing else.  After any
    history of calls and events, from any state: the registry of serializers
    is the one before with the [addSerializer] calls of the history applied
    in order (a later registration of a content type replaces an earlier one,
    also a built-in one); the strategy for unhandled messages is the one
    chosen by the last of [nackUnhandled], [rejectUnhandled] and
    [onUnhandled], and the custom handler remembered is that of the last
    [onUnhandled], also while another strategy is chosen; [autoNack] is
    what the last of [nackOnError] and [ignoreHandlerErrors] set.  Neither
    [reset] nor [shutdown] nor any event restores a default. *)
Theorem policies_follow_their_setters (ops : list Op) (w : World) :
  let w' := run_ops ops w in
  serializers w' =
    foldl (λ registry op, match op with
                          | Op_addSerializer contentType serializer =>
                              <[contentType := serializer]> registry
                          | _ => registry
                          end) (serializers w) ops ∧
  unhandled_onUnhandled w' =
    foldl (λ strategy op, match op with
                          | Op_nackUnhandled => nackOnUnhandled
                          | Op_rejectUnhandled => rejectOnUnhandled
                          | Op_onUnhandled handler => customOnUnhandled (Some handler)
                          | _ => strategy
                          end) (unhandled_onUnhandled w) ops ∧
  unhandled_custom w' =
    foldl (λ custom op, match op with
                        | Op_onUnhandled handler => Some handler
                        | _ => custom
                        end) (unhandled_custom w) ops ∧
  autoNack (broker w') =
    foldl (λ flag op, match op with
                      | Op_nackOnError => true
                      | Op_ignoreHandlerErrors => false
                      | _ => flag
                      end) (autoNack (broker w)) ops.
Proof.
  cbn zeta. revert w. induction ops as [|op ops IH]; intros w; [done|].
  cbn [run_ops foldl]. fold (run_ops ops (exec (run_op op) w)).
  destruct (IH (exec (run_op op) w)) as (-> & -> & -> & ->). clear IH.
  pose proof (policies_run_op (serializers w) (unhandled_onUnhandled w)
                (unhandled_custom w) (autoNack (broker w)) op) as Hop.
  destruct op; try done;
    destruct (Hop w) as (-> & -> & -> & ->); done.
Qed.

(** ** Calls on a connection that is not registered *)

Lemma throws_untouched_on_topology name call w :
  connections (broker w) !! name = None →
  throws_untouched (on_topology name call) w.
Proof.
  intros Hname. exists "this.connections[connectionName] is undefined", [].
  unfold on_topology. run. rewrite Hname. unfold with_log. cbn.
  rewrite app_nil_r. by destruct w.
Qed.

(** X13: no call of the facade registers a connection on the side.  When
    the name a call resolves to (the argument, or "default" when it is
    undefined or empty) is not registered, each of [addExchange] in its
    positional form, [addQueue], [bindExchange], [bindQueue],
    [deleteExchange], [deleteQueue], [getExchange] and [getQueue] throws a
    TypeError at once, where the caller expects a promise or a channel.
    Nothing has been done by then, except that [addQueue] has logged its
    missing-handlers warning when that applies. *)
Theorem calls_on_unregistered_connection_throw
    (connectionName : option string) (w : World)
    (name source target : string) (type : option string) (keys : list string)
    (exchange : ExchangeDef) (queue : QueueDef) :
  connections (broker w) !! or_string connectionName "default" = None →
  throws_untouched (addExchange (ExchangeNamed name) type (Some exchange) connectionName) w ∧
  throws_untouched (addQueue name (Some queue) connectionName) w ∧
  throws_untouched (bindExchange source target keys connectionName) w ∧
  throws_untouched (bindQueue source target keys connectionName) w ∧
  throws_untouched (deleteExchange name connectionName) w ∧
  throws_untouched (deleteQueue name connectionName) w ∧
  throws_untouched (getExchange name connectionName) w ∧
  throws_untouched (getQueue name connectionName) w ∧
  warnings (logged (addQueue name (Some queue) connectionName) w) =
    (if q_subscribe queue && negb (hasHandles (broker w))
     then [handlers_warning name] else []).
Proof.
  intros Hname.
  assert (Hw : with_log (λ l, l ++ (E_warn <$> [])) w = w).
  { unfold with_log. cbn [fmap list_fmap]. rewrite app_nil_r. by destruct w. }
  repeat split.
  - by apply throws_untouched_on_topology.
  - unfold throws_untouched, addQueue, on_topology. run. cbn [q_subscribe].
    destruct (q_subscribe queue && negb (hasHandles (broker w)));
      cbv beta iota; cbn [broker with_log]; rewrite Hname.
    + by exists "this.connections[connectionName] is undefined", [handlers_warning name].
    + exists "this.connections[connectionName] is undefined", []. by rewrite Hw.
  - by apply throws_untouched_on_topology.
  - by apply throws_untouched_on_topology.
  - by apply throws_untouched_on_topology.
  - by apply throws_untouched_on_topology.
  - exists "this.connections[connectionName] is undefined", [].
    unfold getExchange. run. by rewrite Hname, Hw.
  - exists "this.connections[connectionName] is undefined", [].
    unfold getQueue. run. by rewrite Hname, Hw.
  - unfold logged, exec, addQueue, on_topology. run. cbn [q_subscribe].
    destruct (q_subscribe queue && negb (hasHandles (broker w)));
      cbv beta iota; cbn [broker with_log]; rewrite Hname; cbn.
    + by rewrite drop_app_length.
    + by rewrite drop_ge.
Qed.

Lemma calls_on_unregistered_connection_throw_witness :
  let w := run_ops [Op_addConnection (Some (mkConnOptions (Some "rpc") None None None))]
             initial_world in
  throws_untouched (getQueue "orders" None) w.
Proof.
  intros w.
  apply (calls_on_unregistered_connection_throw None w "orders" "" "" None []
           (mkExchangeDef "" None) (mkQueueDef "" true)).
  vm_compute. reflexivity.
Defined.

(** ** Queue names in topics *)

Lemma replace_dots_idem q : replace_dots (replace_dots q) = replace_dots q.
Proof.
  induction q as [|c q IH]; [done|]. cbn [replace_dots]. rewrite IH.
  destruct (Ascii.eqb c ".") eqn:E; [done|]. by rewrite E.
Qed.

(** X14: what the prefix of a topic keeps of the queue name.  [handle]
    replaces every "." of the queue name by "-": the prefix has the length
    of the name and no "." in it, a name without "." is its own prefix, and
    replacing twice is replacing once.  So a handler registered for a queue
    is registered under the same topic for every queue whose name differs
    from it in "." against "-" only, and a queue named "#" gets the topic
    of the handlers for all queues. *)
Theorem queue_names_collide_on_dots (queueName : string) (messageType : option string) :
  Forall (λ c, c ≠ "."%char) (String.list_ascii_of_string (replace_dots queueName)) ∧
  String.length (replace_dots queueName) = String.length queueName ∧
  (Forall (λ c, c ≠ "."%char) (String.list_ascii_of_string queueName) →
   replace_dots queueName = queueName) ∧
  replace_dots (replace_dots queueName) = replace_dots queueName ∧
  handle_target messageType (QueueName (replace_dots queueName)) =
    handle_target messageType (QueueName queueName) ∧
  handle_target messageType (QueueName "#") = handle_target messageType NoQueue.
Proof.
  split; [|split; [|split; [|split; [apply replace_dots_idem|split; [|done]]]]].
  - induction queueName as [|c q IH]; [by apply Forall_nil|].
    cbn [replace_dots String.list_ascii_of_string]. apply Forall_cons. split; [|done].
    destruct (Ascii.eqb_spec c "."); [done|done].
  - induction queueName as [|c q IH]; [done|]. cbn. by rewrite IH.
  - induction queueName as [|c q IH]; [done|].
    cbn [replace_dots String.list_ascii_of_string]. intros [Hc Hq]%Forall_cons.
    rewrite IH by done. by destruct (Ascii.eqb_spec c ".").
  - unfold handle_target. by rewrite replace_dots_idem.
Qed.

(** ** Lifecycle events of registered connections *)

Lemma listeners_modify f :
  (∀ w, listeners (f w) = listeners w) →
  (∀ w, connections (broker (f w)) = connections (broker w)) →
  (∀ w, next_id (f w) = next_id w) →
  preserves listeners_once (modify f).
Proof.
  intros Hl Hc Hn w Hw. unfold listeners_once, exec, modify. cbn.
  by rewrite Hl, Hc, Hn.
Qed.

Lemma listeners_fresh : preserves listeners_once fresh.
Proof.
  intros w [Hids Hreg]. split; [|exact Hreg]. unfold exec, fresh. cbn.
  eapply Forall_impl; [exact Hids|]. intros l Hl. cbn in *. lia.
Qed.

Lemma listeners_reset : preserves listeners_once reset.
Proof.
  intros w [Hids _]. split; [exact Hids|]. intros name t c.
  unfold exec, reset. run. cbn. by rewrite lookup_empty.
Qed.

Lemma listeners_on_topology key call : preserves listeners_once (on_topology key call).
Proof.
  intros w [Hids Hreg].
  assert (Hsame : listeners (exec (on_topology key call) w) = listeners w ∧
                  next_id (exec (on_topology key call) w) = next_id w).
  { unfold exec, on_topology. run. by destruct (connections (broker w) !! key). }
  destruct Hsame as [Hl Hn]. split; [by rewrite Hl, Hn|].
  intros name t c. rewrite on_topology_registry, Hl.
  destruct (connections (broker w) !! key) as [t0|] eqn:Ht0; [|apply Hreg].
  destruct (decide (name = key)) as [->|Hne].
  - rewrite lookup_insert_eq. intros [= <-]. destruct call; apply (Hreg key t0 c Ht0).
  - rewrite lookup_insert_ne by done. apply Hreg.
Qed.

Lemma listeners_addConnection options : preserves listeners_once (addConnection options).
Proof.
  intros w [Hids Hreg].
  destruct (connections (broker w) !! connection_name options) as [t0|] eqn:Ht0.
  - assert (Hsame : listeners (exec (addConnection options) w) = listeners w ∧
                    next_id (exec (addConnection options) w) = next_id w ∧
                    connections (broker (exec (addConnection options) w))
                      = connections (broker w)).
    { unfold exec, addConnection. run. rewrite Ht0. by destruct (topo_connection t0). }
    destruct Hsame as (Hl & Hn & Hc). split; [by rewrite Hl, Hn|].
    by rewrite Hl, Hc.
  - destruct (inherited (connection_name options)) eqn:Hown.
    { unfold exec. rewrite addConnection_inherited by done. by split. }
    unfold exec. rewrite addConnection_new by done. cbn [snd].
    set (name := connection_name options).
    set (c := mkConnection (next_id w) name).
    change ([(c, Connected, OnConnected c)] ++ [(c, Closed, OnClosed c)]
              ++ [(c, Failed, OnFailed name c)]
              ++ [(c, Unreachable, OnUnreachable name c)])
      with (listeners_of name c).
    split; cbn [listeners next_id broker connections register].
    + apply Forall_app. split.
      * eapply Forall_impl; [exact Hids|]. intros l Hl. cbn in *. lia.
      * unfold listeners_of.
        repeat (apply Forall_cons; split; [unfold c; cbn; lia|]). by apply Forall_nil.
    + intros name' t' c'. destruct (decide (name' = name)) as [->|Hne].
      * rewrite lookup_insert_eq. intros [= <-] [= <-].
        exists (listeners w), []. split; [done|]. rewrite app_nil_r.
        eapply Forall_impl; [exact Hids|]. intros l Hl. cbn in *. lia.
      * rewrite lookup_insert_ne by done. intros Ht' Hc'.
        destruct (Hreg name' t' c' Ht' Hc') as (before & after & Hls & Hne').
        exists before, (after ++ listeners_of name c). split.
        { rewrite Hls. by rewrite <- !(assoc_L (++)). }
        assert (Hc : (conn_id c' < next_id w)%nat).
        { rewrite Hls in Hids. apply Forall_app in Hids as [_ Hids].
          apply Forall_app in Hids as [Hids _].
          apply Forall_cons in Hids as [Hids _]. exact Hids. }
        rewrite (assoc_L (++)). apply Forall_app. split; [done|].
        unfold listeners_of.
        repeat (apply Forall_cons; split; [unfold c; cbn; lia|]). by apply Forall_nil.
Qed.

Ltac unfold_listeners :=
  unfold retry, configure, emit, clearAckInterval, setAckInterval, batchAck,
    addExchange, addQueue, addSerializer, bindExchange, bindQueue, close,
    connection_close, closeAll, deleteExchange, deleteQueue, getExchange,
    getQueue, handle, postal_subscribe, unsubscribe, ignoreHandlerErrors,
    nackOnError, nackUnhandled, onUnhandled, rejectUnhandled, set_unhandled,
    publish, set_promises, resolve, reject, notify, uuid_v1, request, shutdown,
    startSubscription;
  unfold effect, update.

Ltac listeners_step :=
  lazymatch goal with
  | |- preserves _ (ret _) => apply preserves_ret
  | |- preserves _ (throw _) => apply preserves_throw
  | |- preserves _ get => apply preserves_get
  | |- preserves _ this => apply preserves_this
  | |- preserves _ fresh => apply listeners_fresh
  | |- preserves _ reset => apply listeners_reset
  | |- preserves _ (on_topology _ _) => apply listeners_on_topology
  | |- preserves _ (addConnection _) => apply listeners_addConnection
  | |- preserves _ (modify _) => apply listeners_modify; done
  | |- preserves _ (discard _) => apply preserves_discard
  | |- preserves _ (try_catch _ _) => apply preserves_try_catch; [|intros ?]
  | |- preserves _ (mapM _ _) => apply preserves_mapM; intros ?
  | |- preserves _ (bind _ _) => apply preserves_bind; [|intros ?]
  | |- preserves _ (match ?x with _ => _ end) => destruct x
  | |- preserves _ (let '(_, _) := ?x in _) => destruct x
  | |- preserves _ _ => progress unfold_listeners
  end.

Lemma listeners_run_listeners ls c ev err :
  preserves listeners_once (run_listeners ls c ev err).
Proof.
  induction ls as [|[[c' ev'] l] ls IH]; cbn [run_listeners]; [apply preserves_ret|].
  apply preserves_bind; [|done].
  destruct (_ && _); [|apply preserves_ret].
  unfold run_listener. repeat listeners_step.
Qed.

Lemma listeners_deliver subs topic message :
  preserves listeners_once (deliver subs topic message).
Proof.
  induction subs as [|s subs IH]; cbn [deliver]; [apply preserves_ret|].
  apply preserves_bind; [apply preserves_get|]. intros w.
  apply preserves_bind; [|done].
  destruct (_ && _); [|apply preserves_ret].
  unfold run_callback. repeat listeners_step.
Qed.

Lemma listeners_dispatch_deliver subs topic message :
  preserves listeners_once (dispatch_deliver subs topic message).
Proof.
  induction subs as [|s subs IH]; cbn [dispatch_deliver]; [apply preserves_ret|].
  apply preserves_bind; [apply preserves_get|]. intros w.
  apply preserves_bind; [|done].
  destruct (_ && _); [|apply preserves_ret].
  unfold run_callback. repeat listeners_step.
Qed.

Lemma listeners_run_op op : preserves listeners_once (run_op op).
Proof.
  destruct op; cbn [run_op]; unfold signal, reply, dispatch;
    repeat first [apply listeners_run_listeners | apply listeners_deliver
                 | apply listeners_dispatch_deliver
                 | listeners_step].
Qed.

Lemma listeners_once_run_ops ops : listeners_once (run_ops ops initial_world).
Proof.
  assert (H : ∀ w, listeners_once w → listeners_once (run_ops ops w)).
  { induction ops as [|op ops IH]; intros w Hw; [done|].
    cbn. apply IH. by apply listeners_run_op. }
  apply H. split; [by apply Forall_nil|]. intros name t c. cbn.
  by rewrite lookup_empty.
Qed.

Lemma run_listeners_others ls c ev err w :
  Forall (λ l, conn_id l.1.1 ≠ c) ls →
  run_listeners ls c ev err w = (Ok tt, w).
Proof.
  induction 1 as [|[[c' ev'] l] ls Hl _ IH]; [done|].
  cbn [run_listeners]. cbn in Hl. rewrite bool_decide_eq_false_2 by done.
  cbn [andb]. unfold bind at 1. unfold ret at 1. exact IH.
Qed.

Lemma run_listener_returns l err w :
  ∃ w', run_listener l err w = (Ok tt, w').
Proof.
  destruct l; unfold run_listener, setAckInterval, clearAckInterval; run;
    destruct (ackIntervalId (broker w)) eqn:E; do 3 (cbn; rewrite ?E); by eexists.
Qed.

Lemma run_listeners_app l1 l2 c ev err w :
  run_listeners (l1 ++ l2) c ev err w =
  run_listeners l2 c ev err (exec (run_listeners l1 c ev err) w).
Proof.
  unfold exec. revert w. induction l1 as [|[[c' ev'] l] l1 IH]; intros w; [done|].
  cbn [app run_listeners]. unfold bind.
  destruct (bool_decide (conn_id c' = c) && _).
  - destruct (run_listener_returns l err w) as [w' ->]. apply IH.
  - unfold ret. apply IH.
Qed.

(** On a connection with exactly its own four listeners, an event runs the
    one listener registered for it. *)
Lemma signal_runs_one name c ev err w before after :
  listeners w = before ++ listeners_of name c ++ after →
  Forall (λ l, conn_id l.1.1 ≠ conn_id c) (before ++ after) →
  exec (signal c ev err) w =
  exec (run_listener match ev with
                     | Connected => OnConnected c
                     | Closed => OnClosed c
                     | Failed => OnFailed name c
                     | Unreachable => OnUnreachable name c
                     end err) w.
Proof.
  intros Hls [Hbefore Hafter]%Forall_app.
  unfold signal, exec at 1. run. rewrite Hls, !run_listeners_app.
  unfold exec at 2. rewrite run_listeners_others by done. cbn [snd].
  rewrite run_listeners_others by done.
  unfold exec, listeners_of. cbn [run_listeners].
  rewrite bool_decide_eq_true_2 by done. cbn [andb].
  unfold bind. cbn [snd].
  destruct ev; unfold ret;
    repeat match goal with
           | |- context [run_listener ?l err ?w'] =>
               let H := fresh in
               destruct (run_listener_returns l err w') as [? H]; rewrite H
           end; done.
Qed.

(** X15: each lifecycle event of a registered connection is announced
    once.  In every reachable state, an event raised by the connection of a
    registered topology runs exactly one listener, however often
    [addConnection] was called for the name and whatever other connections
    exist or existed: "connected", "closed" and "failed" each emit the
    generic event with the connection and then the event named after the
    connection ("<name>.connection.opened", ".closed", ".failed", the last
    with the error as argument); "connected" also arms the timer with 500
    ms. *)
Theorem lifecycle_events_are_announced_once
    (history : list Op) (name : string) (t : Topology) (c : Connection)
    (err : string) :
  let w := run_ops history initial_world in
  connections (broker w) !! name = Some t →
  topo_connection t = Some c →
  emitted (logged (signal c Connected err) w) =
    [("connected", ArgConnection c);
     (conn_name c +:+ ".connection.opened", ArgConnection c)] ∧
  (∃ id, timers (exec (signal c Connected err) w) = {[id := 500]}) ∧
  logged (signal c Closed err) w =
    [E_emit "closed" (ArgConnection c);
     E_emit (conn_name c +:+ ".connection.closed") (ArgConnection c)] ∧
  logged (signal c Failed err) w =
    [E_emit "failed" (ArgConnection c);
     E_emit (name +:+ ".connection.failed") (ArgError err)].
Proof.
  intros w Ht Hc.
  destruct (listeners_once_run_ops history) as [_ Hreg]. fold w in Hreg.
  destruct (Hreg name t c Ht Hc) as (before & after & Hls & Hothers).
  pose proof (timer_recorded_run_ops history) as Htimers. fold w in Htimers.
  clearbody w. unfold logged.
  rewrite !(signal_runs_one name c _ err w before after Hls Hothers).
  split; [|split; [|split]].
  - unfold exec, run_listener, setAckInterval, clearAckInterval. run.
    destruct (ackIntervalId (broker w)) eqn:E; do 3 (cbn; rewrite ?E);
      rewrite <- !(assoc_L (++)), drop_app_length; done.
  - destruct (setAckInterval_runs 500
      (with_log (λ l, l ++ [E_emit (conn_name c +:+ ".connection.opened")
                              (ArgConnection c)])
         (with_log (λ l, l ++ [E_emit "connected" (ArgConnection c)]) w)))
      as (id & _ & Hid); [|by exists id].
    intros id ms. cbn. apply Htimers.
  - unfold exec, run_listener. run. cbn.
    by rewrite <- !(assoc_L (++)), drop_app_length.
  - unfold exec, run_listener. run. cbn.
    by rewrite <- !(assoc_L (++)), drop_app_length.
Qed.

Lemma lifecycle_events_are_announced_once_witness :
  let history := [Op_addConnection (Some (mkConnOptions (Some "a") None None None));
                  Op_addConnection (Some (mkConnOptions (Some "b") None None None));
                  Op_addConnection (Some (mkConnOptions (Some "a") None None None));
                  Op_close (Some "a") true;
                  Op_addConnection (Some (mkConnOptions (Some "a") None None None))] in
  logged (signal (mkConnection 3 "a") Failed "refused")
    (run_ops history initial_world) =
  [E_emit "failed" (ArgConnection (mkConnection 3 "a"));
   E_emit "a.connection.failed" (ArgError "refused")].
Proof.
  intros history.
  refine (proj2 (proj2 (proj2 (lifecycle_events_are_announced_once history "a"
    (mkTopology "a" (Some (mkConnection 3 "a"))
       (mkConnOptions (Some "a") (Some 3) (Some 60) None) ∅)
    (mkConnection 3 "a") "refused" _ _)))).
  - vm_compute. reflexivity.
  - reflexivity.
Defined.

(** ** Text that does not survive UTF-8 *)

Lemma well_formed_slice_write : ∀ n s,
  (length s ≤ n)%nat →
  Forall (λ c, 0 ≤ c < 0x10000) s →
  well_formed (utf8_slice (utf8_write s)) = true.
Proof.
  assert (Hreplaced : ∀ bytes,
            utf8_slice (utf8_bytes 0xFFFD ++ bytes) = 0xFFFD :: utf8_slice bytes).
  { intros bytes. apply utf8_slice_3; lia. }
  assert (Hunit : ∀ c bytes, 0 ≤ c < 0x10000 → ¬ (0xD800 ≤ c ≤ 0xDFFF) →
            utf8_slice (utf8_bytes c ++ bytes) = c :: utf8_slice bytes).
  { intros c bytes Hc Hs.
    destruct (Z.lt_ge_cases c 0x80); [apply utf8_slice_1; lia|].
    destruct (Z.lt_ge_cases c 0x800); [apply utf8_slice_2; lia|].
    apply utf8_slice_3; lia. }
  assert (Hplain : ∀ c s, 0 ≤ c < 0x10000 → ¬ (0xD800 ≤ c ≤ 0xDFFF) →
            well_formed (c :: s) = well_formed s).
  { intros c s Hc Hs. cbn [well_formed].
    unfold is_high_surrogate, is_low_surrogate. by decide_tests. }
  induction n as [|n IH]; intros s Hn Hs.
  { destruct s; [done|cbn in Hn; lia]. }
  destruct s as [|c s]; [done|].
  apply Forall_cons in Hs as [Hc Hs]. cbn [length] in Hn.
  cbn [utf8_write]. destruct (is_high_surrogate c) eqn:Hhigh.
  - destruct s as [|d s].
    + rewrite <- (app_nil_r (utf8_bytes 0xFFFD)), Hreplaced. done.
    + destruct (is_low_surrogate d) eqn:Hlow.
      * apply Forall_cons in Hs as [Hd Hs]. cbn [length] in Hn.
        unfold is_high_surrogate, is_low_surrogate in Hhigh, Hlow.
        rewrite utf8_slice_4 by lia. cbn [well_formed].
        unfold is_high_surrogate at 1, is_low_surrogate at 1.
        rewrite Hhigh, Hlow. apply IH; [lia|done].
      * rewrite Hreplaced, Hplain by lia. apply IH; [lia|done].
  - destruct (is_low_surrogate c) eqn:Hlow.
    + rewrite Hreplaced, Hplain by lia. apply IH; [lia|done].
    + unfold is_high_surrogate, is_low_surrogate in Hhigh, Hlow.
      rewrite Hunit, Hplain by lia. apply IH; [lia|done].
Qed.

(** X16: what "text/plain" gives back.  For every string (of code units
    in range), serializing and deserializing as UTF-8 gives a well-formed
    string, and it gives back the string itself exactly when the string is
    well formed: a string with a lone surrogate never comes back as it
    was. *)
Theorem text_plain_round_trip_iff_well_formed (string : list Z) :
  Forall (λ c, 0 ≤ c < 0x10000) string →
  ∃ back, deserialize text_plain (serialize text_plain string) None = Some back ∧
          well_formed back = true ∧
          (back = string ↔ well_formed string = true).
Proof.
  intros Hrange. exists (utf8_slice (utf8_write string)). split; [reflexivity|].
  assert (Hback : well_formed (utf8_slice (utf8_write string)) = true).
  { by eapply well_formed_slice_write. }
  split; [exact Hback|]. split.
  - intros Heq. by rewrite Heq in Hback.
  - apply utf8_roundtrip.
Qed.

Lemma text_plain_round_trip_iff_well_formed_witness :
  deserialize text_plain (serialize text_plain [0x61; 0xDC00; 0x62]) None
    ≠ Some [0x61; 0xDC00; 0x62].
Proof.
  destruct (text_plain_round_trip_iff_well_formed [0x61; 0xDC00; 0x62])
    as (back & Hback & _ & Hiff).
  - repeat constructor; lia.
  - rewrite Hback. intros [= Heq]. apply Hiff in Heq. discriminate Heq.
Defined.
